(** * svg-erase: a shallow embedding of [erase.js]

    The eraser clips polyline paths against a circular eraser (a trail of one
    point) or against a chain of capsules (one per pair of consecutive trail
    points).  JavaScript numbers are IEEE 754 binary64 values, embedded here
    as Rocq's primitive floats, so that the geometric routines evaluate inside
    the logic exactly as they do in the program.  [Math.pow(v, 2)] is taken
    to be [v * v], which is what the [pow] of the usual engines returns for
    the exponent 2.

    Paths are JavaScript objects that the program shares and updates in
    place; they live in an explicit store of objects and arrays. *)

From Stdlib Require Import Floats.
From stdpp Require Import base option list strings.

Set Warnings "-inexact-float".

(** ** Numbers and points *)

Module Num.

(** [a === b] and [a !== b] on numbers: [nan] differs from itself, and the
    two zeros are equal. *)
Definition seq (a b : float) : bool := PrimFloat.eqb a b.
Definition sne (a b : float) : bool := negb (PrimFloat.eqb a b).

(** [a >= b] and [a > b]; every comparison with [nan] is false. *)
Definition geb (a b : float) : bool := PrimFloat.leb b a.
Definition gtb (a b : float) : bool := PrimFloat.ltb b a.

(** [Math.pow(v, 2)]. *)
Definition pow2 (v : float) : float := PrimFloat.mul v v.

(** Truthiness of a number: [0], [-0] and [nan] are falsy. *)
Definition truthy (v : float) : bool :=
  negb (PrimFloat.eqb v 0%float) && PrimFloat.eqb v v.

End Num.

Record Point : Type := mkPoint { x : float; y : float }.

(** [a.x === b.x && a.y === b.y] *)
Definition samePoint (a b : Point) : bool :=
  Num.seq (x a) (x b) && Num.seq (y a) (y b).

(** [a.x !== b.x || a.y !== b.y] *)
Definition diffPoint (a b : Point) : bool :=
  Num.sne (x a) (x b) || Num.sne (y a) (y b).

(** ** Geometry primitives *)

Section Geometry.

Local Open Scope float_scope.
Import Num.

Definition getDistance (aX aY bX bY : float) : float :=
  sqrt (pow2 (bX - aX) + pow2 (bY - aY)).

(** Returns 0 or 1 in the source; only its truth value is ever used. *)
Definition withinCircle (px py cX cY r : float) : bool :=
  let dist := getDistance px py cX cY in
  if dist <? r then true else false.

Definition withinBox (pX pY aX aY bX bY r : float) : bool :=
  let vec_ab := (bX - aX, bY - aY) in
  let vec_ap := (pX - aX, pY - aY) in
  let vec_n := (- (snd vec_ab), fst vec_ab) in
  let mag_n := sqrt (pow2 (fst vec_n) + pow2 (snd vec_n)) in
  let u_vec_n := (fst vec_n / mag_n, snd vec_n / mag_n) in
  let mag_ab := sqrt (pow2 (fst vec_ab) + pow2 (snd vec_ab)) in
  let u_vec_ab := (fst vec_ab / mag_ab, snd vec_ab / mag_ab) in
  let ap_proj_ab := fst vec_ap * fst u_vec_ab + snd vec_ap * snd u_vec_ab in
  if (ap_proj_ab <=? 0) || geb ap_proj_ab mag_ab then false
  else
    let ap_proj_n := fst vec_ap * fst u_vec_n + snd vec_ap * snd u_vec_n in
    if geb ap_proj_n r || (ap_proj_n <=? - r) then false
    else true.

(** The location index: in the circle around [a], in the circle around
    [b], in the box between them. *)
Record LocationIndex : Type :=
  mkIndex { inStart : bool; inEnd : bool; inBox : bool }.

Definition withinCapsule (pX pY aX aY bX bY r : float) : LocationIndex :=
  mkIndex (withinCircle pX pY aX aY r)
          (withinCircle pX pY bX bY r)
          (withinBox pX pY aX aY bX bY r).

(** [locationIndex.indexOf(1) !== -1] *)
Definition hasOne (li : LocationIndex) : bool :=
  inStart li || inEnd li || inBox li.

Record Box : Type := mkBox { b0 : Point; b1 : Point; b2 : Point; b3 : Point }.

Definition getParallelSegments (aX aY bX bY r : float) : Box :=
  let vec_v := (bX - aX, bY - aY) in
  let vec_n := (- (snd vec_v), fst vec_v) in
  let mag_n := sqrt (pow2 (fst vec_n) + pow2 (snd vec_n)) in
  let u_vec_n := (fst vec_n / mag_n, snd vec_n / mag_n) in
  mkBox (mkPoint (aX + r * fst u_vec_n) (aY + r * snd u_vec_n))
        (mkPoint (aX - r * fst u_vec_n) (aY - r * snd u_vec_n))
        (mkPoint (bX - r * fst u_vec_n) (bY - r * snd u_vec_n))
        (mkPoint (bX + r * fst u_vec_n) (bY + r * snd u_vec_n)).

(** [a] is the point inside the circle, [b] the one outside. *)
Definition getCircleIntersection (aX aY bX bY cX cY r : float) : option Point :=
  let vec_ac := (cX - aX, cY - aY) in
  let vec_ab := (bX - aX, bY - aY) in
  let mag_ab := sqrt (pow2 (fst vec_ab) + pow2 (snd vec_ab)) in
  let u_vec_ab := (fst vec_ab / mag_ab, snd vec_ab / mag_ab) in
  let ac_proj_ab := fst vec_ac * fst u_vec_ab + snd vec_ac * snd u_vec_ab in
  let rightPoint := (aX + ac_proj_ab * fst u_vec_ab, aY + ac_proj_ab * snd u_vec_ab) in
  let distCToRightPoint :=
    sqrt (pow2 (cX - fst rightPoint) + pow2 (cY - snd rightPoint)) in
  let b := if seq distCToRightPoint 0 then r
           else sqrt (pow2 r - pow2 distCToRightPoint) in
  let intersection :=
    mkPoint (aX + ac_proj_ab * fst u_vec_ab + b * fst u_vec_ab)
            (aY + ac_proj_ab * snd u_vec_ab + b * snd u_vec_ab) in
  if seq (x intersection) aX && seq (y intersection) aY then None
  else Some intersection.

Definition getLength (P : float * float) : float :=
  sqrt (fst P * fst P + snd P * snd P).

Definition EPS : float := 1e-6.

Definition getClosestPointOnSegment (A B P : float * float) : float * float :=
  let AB := (fst B - fst A, snd B - snd A) in
  let len := getLength AB in
  if len <? EPS then A
  else
    let PA := (fst P - fst A, snd P - snd A) in
    let k := (fst AB * fst PA + snd AB * snd PA) / len in
    if k <? 0 then A
    else if gtb k len then B
    else (fst A + fst AB * k / len, snd A + snd AB * k / len).

(** Both [a] and [b] are outside the circle. *)
Definition getCircleIntersections (aX aY bX bY cX cY r : float)
  : option (Point * Point) :=
  let vec_ac := (cX - aX, cY - aY) in
  let vec_ab := (bX - aX, bY - aY) in
  let vec_n := (- (snd vec_ab), fst vec_ab) in
  let mag_n := sqrt (pow2 (fst vec_n) + pow2 (snd vec_n)) in
  let u_vec_n := (fst vec_n / mag_n, snd vec_n / mag_n) in
  let mag_d := fst vec_ac * fst u_vec_n + snd vec_ac * snd u_vec_n in
  let closest := getClosestPointOnSegment (aX, aY) (bX, bY) (cX, cY) in
  let dist := getLength (fst closest - cX, snd closest - cY) in
  if geb dist r then None
  else
    let xx := sqrt (pow2 r - pow2 mag_d) in
    let vec_cd := (cX - mag_d * fst u_vec_n, cY - mag_d * snd u_vec_n) in
    let mag_ab := sqrt (pow2 (fst vec_ab) + pow2 (snd vec_ab)) in
    let u_vec_ab := (fst vec_ab / mag_ab, snd vec_ab / mag_ab) in
    let i0 := mkPoint (fst vec_cd - fst u_vec_ab * xx) (snd vec_cd - snd u_vec_ab * xx) in
    let i1 := mkPoint (fst vec_cd + fst u_vec_ab * xx) (snd vec_cd + snd u_vec_ab * xx) in
    if seq (x i0) aX && seq (y i0) aY then None
    else Some (i0, i1).

Definition getLineIntersection (aX aY bX bY cX cY dX dY : float) : option Point :=
  let s1_x := bX - aX in
  let s1_y := bY - aY in
  let s2_x := dX - cX in
  let s2_y := dY - cY in
  if seq (- s2_x * s1_y + s1_x * s2_y) 0 then None
  else
    let s := (- s1_y * (aX - cX) + s1_x * (aY - cY)) / (- s2_x * s1_y + s1_x * s2_y) in
    let t := (s2_x * (aY - cY) - s2_y * (aX - cX)) / (- s2_x * s1_y + s1_x * s2_y) in
    if geb s 0 && (s <=? 1) && geb t 0 && (t <=? 1)
    then Some (mkPoint (aX + t * s1_x) (aY + t * s1_y))
    else None.

(** [if (i) intersections.push(i[0], i[1])] *)
Definition pushPair (i : option (Point * Point)) : list (option Point) :=
  match i with
  | Some (p, q) => [Some p; Some q]
  | None => []
  end.

(** The scan [for (n ...) if (intersections[n]) if (d(intersections[n], t)
    < d(best, t)) best = intersections[n]]. *)
Definition closestTo (tX tY : float) (start : Point)
           (intersections : list (option Point)) : Point :=
  fold_left
    (fun best c =>
       match c with
       | Some q =>
           if getDistance (x q) (y q) tX tY <? getDistance (x best) (y best) tX tY
           then q else best
       | None => best
       end)
    intersections start.

(** [a] is inside the capsule with location index [li], [b] is outside. *)
Definition getCapsuleIntersection
           (aX aY : float) (li : LocationIndex)
           (bX bY c0_x c0_y c1_x c1_y r : float) : option Point :=
  let box := getParallelSegments c0_x c0_y c1_x c1_y r in
  let top := getLineIntersection aX aY bX bY (x (b0 box)) (y (b0 box)) (x (b3 box)) (y (b3 box)) in
  let bottom := getLineIntersection aX aY bX bY (x (b1 box)) (y (b1 box)) (x (b2 box)) (y (b2 box)) in
  let intersections :=
    if inStart li && negb (inEnd li) then
      [getCircleIntersection aX aY bX bY c0_x c0_y r; top; bottom]
        ++ pushPair (getCircleIntersections aX aY bX bY c1_x c1_y r)
    else if negb (inStart li) && inEnd li then
      [getCircleIntersection aX aY bX bY c1_x c1_y r; top; bottom]
        ++ pushPair (getCircleIntersections aX aY bX bY c0_x c0_y r)
    else if inStart li && inEnd li then
      [getCircleIntersection aX aY bX bY c0_x c0_y r; top; bottom;
       getCircleIntersection aX aY bX bY c1_x c1_y r]
    else
      pushPair (getCircleIntersections aX aY bX bY c1_x c1_y r)
        ++ pushPair (getCircleIntersections aX aY bX bY c0_x c0_y r)
        ++ [top; bottom] in
  let intersection := closestTo bX bY (mkPoint aX aY) intersections in
  if seq (x intersection) aX && seq (y intersection) aY then None
  else Some intersection.

(** Neither [a] nor [b] is inside the capsule. *)
Definition getCapsuleIntersections
           (aX aY bX bY c0_x c0_y c1_x c1_y r : float) : option (Point * Point) :=
  let box := getParallelSegments c0_x c0_y c1_x c1_y r in
  let intersections :=
    pushPair (getCircleIntersections aX aY bX bY c0_x c0_y r)
      ++ pushPair (getCircleIntersections aX aY bX bY c1_x c1_y r)
      ++ [getLineIntersection aX aY bX bY (x (b0 box)) (y (b0 box)) (x (b3 box)) (y (b3 box));
          getLineIntersection aX aY bX bY (x (b1 box)) (y (b1 box)) (x (b2 box)) (y (b2 box))] in
  let intersection0 := closestTo aX aY (mkPoint bX bY) intersections in
  let intersection1 := closestTo bX bY (mkPoint aX aY) intersections in
  if (seq (x intersection0) bX && seq (y intersection0) bY)
     || (seq (x intersection1) aX && seq (y intersection1) aY)
  then None
  else Some (intersection0, intersection1).

End Geometry.

(** ** The store

    Path objects and arrays are JavaScript reference values.  The program
    overwrites array slots ([path.coords[i] = x]), rebinds a field
    ([newPath.coords = ...]) and pushes the same object into several lists,
    so objects and arrays are kept in a store and named by their location.
    A location is an index into the store; allocation appends.  Points are
    never assigned to by the program and are kept as values. *)

Abbreviation loc := nat (only parsing).

(** The value of an attribute of a path object.  [createNewPath] tells
    strings and arrays from everything else. *)
Inductive Value : Type :=
| VStr (s : string)
| VNum (n : float)
| VBool (b : bool)
| VNull
| VArr (a : loc).

(** A path object: the [coords] array and the other own properties, in
    insertion order. *)
Record PathObj : Type := mkPath { attrs : list (string * Value); coords : loc }.

Record Store : Type := mkStore {
  coordArrays : list (list Point);   (* arrays of points *)
  valueArrays : list (list Value);   (* arrays held by attributes *)
  objects : list PathObj;            (* path objects *)
  newPaths : list loc                (* the variable [newPaths] of [erase] *)
}.

(** The outcome of running a piece of the program: a value, an uncaught
    [TypeError], or a loop that was still running when the fuel ran out. *)
Inductive Res (A : Type) : Type :=
| Done (a : A)
| Throw
| OutOfFuel.
Arguments Done {A} a.
Arguments Throw {A}.
Arguments OutOfFuel {A}.

Definition M (A : Type) : Type := Store → Res (A * Store).

Definition ret {A} (a : A) : M A := λ σ, Done (a, σ).
Definition bind {A B} (m : M A) (k : A → M B) : M B :=
  λ σ, match m σ with
       | Done (a, σ') => k a σ'
       | Throw => Throw
       | OutOfFuel => OutOfFuel
       end.
Definition throw {A} : M A := λ _, Throw.
Definition outOfFuel {A} : M A := λ _, OutOfFuel.

Notation "x <- m ;; k" := (bind m (λ x, k))
  (at level 100, m at next level, right associativity, only parsing).
Notation "m ;;; k" := (bind m (λ _, k))
  (at level 100, right associativity, only parsing).

(** Reading a property of [undefined] throws. *)
Definition orThrow {A} (o : option A) : M A :=
  match o with Some a => ret a | None => throw end.

Section StoreOps.

Definition getObject (l : loc) : M PathObj := λ σ, orThrow (objects σ !! l) σ.
Definition getCoordArray (a : loc) : M (list Point) := λ σ, orThrow (coordArrays σ !! a) σ.
Definition getValueArray (a : loc) : M (list Value) := λ σ, orThrow (valueArrays σ !! a) σ.

Definition newCoordArray (cs : list Point) : M loc :=
  λ σ, Done (length (coordArrays σ),
             mkStore (coordArrays σ ++ [cs]) (valueArrays σ) (objects σ) (newPaths σ)).
Definition newValueArray (vs : list Value) : M loc :=
  λ σ, Done (length (valueArrays σ),
             mkStore (coordArrays σ) (valueArrays σ ++ [vs]) (objects σ) (newPaths σ)).
Definition newObject (o : PathObj) : M loc :=
  λ σ, Done (length (objects σ),
             mkStore (coordArrays σ) (valueArrays σ) (objects σ ++ [o]) (newPaths σ)).

Definition setCoordArray (a : loc) (cs : list Point) : M unit :=
  λ σ, Done (tt, mkStore (<[a := cs]> (coordArrays σ)) (valueArrays σ) (objects σ) (newPaths σ)).
Definition setObject (l : loc) (o : PathObj) : M unit :=
  λ σ, Done (tt, mkStore (coordArrays σ) (valueArrays σ) (<[l := o]> (objects σ)) (newPaths σ)).

(** [newPaths.push(l)] *)
Definition pushNewPath (l : loc) : M unit :=
  λ σ, Done (tt, mkStore (coordArrays σ) (valueArrays σ) (objects σ) (newPaths σ ++ [l])).

(** [paths = newPaths; newPaths = []] *)
Definition takeNewPaths : M (list loc) :=
  λ σ, Done (newPaths σ, mkStore (coordArrays σ) (valueArrays σ) (objects σ) []).
Definition readNewPaths : M (list loc) := λ σ, Done (newPaths σ, σ).

(** [path.coords] as a list *)
Definition coordsOf (path : loc) : M (list Point) :=
  o <- getObject path ;; getCoordArray (coords o).

(** [path.coords[i] = p].  The walks only write below the length they
    have just tested; a write past the end would leave holes, which the
    arrays of this model cannot hold. *)
Definition writeCoord (path : loc) (i : nat) (p : Point) : M unit :=
  o <- getObject path ;;
  cs <- getCoordArray (coords o) ;;
  if decide (i < length cs) then setCoordArray (coords o) (<[i := p]> cs) else throw.

(** [path.coords.push(p)] *)
Definition pushCoord (path : loc) (p : Point) : M unit :=
  o <- getObject path ;;
  cs <- getCoordArray (coords o) ;;
  setCoordArray (coords o) (cs ++ [p]).

(** [path.coords = arr.slice(from, to)]: the slice is a new array. *)
Definition slice {A} (from to : nat) (l : list A) : list A :=
  take (to - from) (drop from l).

Definition assignCoords (path : loc) (cs : list Point) : M unit :=
  a <- newCoordArray cs ;;
  o <- getObject path ;;
  setObject path (mkPath (attrs o) a).

(** Modelled from the spec: [Array.prototype.clear], which the passes call
    on the coordinates of a fresh clone and which [erase.js] does not
    define; the clone is to have "an independently owned, initially-empty
    coordinate sequence", so [clear] empties the array in place.  Both
    passes bind [newPath.coords] to a new slice before they read it, so
    nothing they push depends on what [clear] leaves in the array. *)
Definition clear (path : loc) : M unit :=
  o <- getObject path ;;
  _ <- getCoordArray (coords o) ;;
  setCoordArray (coords o) [].

End StoreOps.

(** ** Path utilities *)

(** The loop of [createNewPath] over the own properties other than
    [coords]: a string is copied, an array is copied one level deep by
    [slice()], and a property of any other type is not carried over. *)
Fixpoint copyAttrs (kvs : list (string * Value)) : M (list (string * Value)) :=
  match kvs with
  | [] => ret []
  | (key, VStr s) :: rest =>
      rest' <- copyAttrs rest ;; ret ((key, VStr s) :: rest')
  | (key, VArr a) :: rest =>
      vs <- getValueArray a ;;
      a' <- newValueArray vs ;;
      rest' <- copyAttrs rest ;; ret ((key, VArr a') :: rest')
  | _ :: rest => copyAttrs rest
  end.

(** [coords] is an array-valued property like any other and is copied by
    [slice()]. *)
Definition createNewPath (path : loc) : M loc :=
  o <- getObject path ;;
  kvs <- copyAttrs (attrs o) ;;
  cs <- getCoordArray (coords o) ;;
  a <- newCoordArray cs ;;
  newObject (mkPath kvs a).

(** The scanning loop of [cleanPath]: [path[p]] is kept when it differs
    from [path[p + 1]], for [p] from [0] to [path.length - 2]. *)
Fixpoint cleanScan (path : list Point) : list Point :=
  match path with
  | p :: (q :: _) as rest => (if diffPoint p q then [p] else []) ++ cleanScan rest
  | _ => []
  end.

(** [cleanPath]; [None] is the [TypeError] of reading [path[-1].x] on an
    empty trail.  After the scan [pClean] is [path.length - 1].  The last
    test reads [path[cleaned.length - 1]]; [cleaned] is not empty there
    unless [path] is, so the index is never negative when it is read. *)
Definition cleanPath (path : list Point) : option (list Point) :=
  if decide (length path = 1) then Some path
  else
    let cleaned := cleanScan path in
    let pClean := length path - 1 in
    let cleaned :=
      if negb (length path =? 0)%nat && (length cleaned =? 0)%nat
      then match path !! 0 with Some p => cleaned ++ [p] | None => cleaned end
      else cleaned in
    pl ← path !! (length path - 1) ;
    pc ← path !! (length cleaned - 1) ;
    if diffPoint pl pc
    then (pn ← path !! pClean ; Some (cleaned ++ [pn]))
    else Some cleaned.

(** ** The two passes *)

Section Passes.

(** The variables [erasePath] (already cleaned) and [eraseRadius] that the
    two closures of [erase] capture. *)
Variable erasePath : list Point.
Variable eraseRadius : float.

(** One turn of the [while] loop of [pointErase], from the cursors
    [(i, last)] to the next ones. *)
Definition pointEraseStep (eX eY : float) (path newPath : loc) (i last : nat)
  : M (nat * nat) :=
  cs <- coordsOf path ;;
  p0 <- orThrow (cs !! i) ;;
  p1 <- orThrow (cs !! (i + 1)) ;;
  let p0_withinCircle := withinCircle (x p0) (y p0) eX eY eraseRadius in
  let p1_withinCircle := withinCircle (x p1) (y p1) eX eY eraseRadius in
  if p0_withinCircle && p1_withinCircle then ret (i + 1, i + 1)
  else if p0_withinCircle && negb p1_withinCircle then
    match getCircleIntersection (x p0) (y p0) (x p1) (y p1) eX eY eraseRadius with
    | Some xp => writeCoord path i xp ;;; ret (i, i)
    | None => ret (i + 1, last)
    end
  else if negb p0_withinCircle && p1_withinCircle then
    match getCircleIntersection (x p1) (y p1) (x p0) (y p0) eX eY eraseRadius with
    | Some xp =>
        assignCoords newPath (slice last (i + 1) cs) ;;;
        pushCoord newPath xp ;;;
        c <- createNewPath newPath ;;
        pushNewPath c ;;;
        ret (i + 1, i + 1)
    | None => ret (i + 1, i + 1)
    end
  else
    match getCircleIntersections (x p0) (y p0) (x p1) (y p1) eX eY eraseRadius with
    | Some (q0, q1) =>
        assignCoords newPath (slice last (i + 1) cs) ;;;
        ncs <- coordsOf newPath ;;
        tl <- orThrow (ncs !! (length ncs - 1)) ;;
        (if diffPoint tl q0 then pushCoord newPath q0 else ret tt) ;;;
        ncs <- coordsOf newPath ;;
        (if decide (1 < length ncs)
         then c <- createNewPath newPath ;; pushNewPath c
         else ret tt) ;;;
        writeCoord path i q1 ;;;
        cs <- coordsOf path ;;
        let i' := match cs !! (i + 1) with
                  | Some nxt => if samePoint nxt q1 then i + 1 else i
                  | None => i
                  end in
        ret (i', i')
    | None => ret (i + 1, last)
    end.

(** [while (i < path.coords.length - 1) ...]; [path.coords.length - 1]
    is [-1] for an empty array, and no [i] is below it. *)
Fixpoint pointEraseWalk (fuel : nat) (eX eY : float) (path newPath : loc)
         (i last : nat) : M (nat * nat) :=
  cs <- coordsOf path ;;
  if decide (i + 1 < length cs) then
    match fuel with
    | O => outOfFuel
    | S fuel' =>
        st <- pointEraseStep eX eY path newPath i last ;;
        pointEraseWalk fuel' eX eY path newPath (fst st) (snd st)
    end
  else ret (i, last).

Definition pointErase (fuel : nat) (path : loc) : M unit :=
  e <- orThrow (erasePath !! 0) ;;
  let eX := x e in
  let eY := y e in
  cs <- coordsOf path ;;
  single <-
    (if decide (length cs = 1) then
       p <- orThrow (cs !! 0) ;;
       ret (negb (withinCircle (x p) (y p) eX eY eraseRadius))
     else ret false) ;;
  if (single : bool) then pushNewPath path
  else
    newPath <- createNewPath path ;;
    clear newPath ;;;
    st <- pointEraseWalk fuel eX eY path newPath 0 0 ;;
    let i := fst st in
    let last := snd st in
    if decide (last ≠ i) then
      cs <- coordsOf path ;;
      assignCoords newPath (slice last (length cs) cs) ;;;
      ncs <- coordsOf newPath ;;
      if decide (0 < length ncs) then pushNewPath newPath else ret tt
    else ret tt.

(** One turn of the [while] loop of [capsuleErase]. *)
Definition capsuleEraseStep (e0 e1 : Point) (path newPath : loc) (i last : nat)
  : M (nat * nat) :=
  cs <- coordsOf path ;;
  p0 <- orThrow (cs !! i) ;;
  p1 <- orThrow (cs !! (i + 1)) ;;
  let p1_locationIndex :=
    withinCapsule (x p1) (y p1) (x e0) (y e0) (x e1) (y e1) eraseRadius in
  let p0_locationIndex :=
    withinCapsule (x p0) (y p0) (x e0) (y e0) (x e1) (y e1) eraseRadius in
  if hasOne p0_locationIndex && hasOne p1_locationIndex then ret (i + 1, i + 1)
  else if hasOne p0_locationIndex && negb (hasOne p1_locationIndex) then
    match getCapsuleIntersection (x p0) (y p0) p0_locationIndex (x p1) (y p1)
                                 (x e0) (y e0) (x e1) (y e1) eraseRadius with
    | Some xp => writeCoord path i xp ;;; ret (i, i)
    | None => ret (i + 1, last)
    end
  else if negb (hasOne p0_locationIndex) && hasOne p1_locationIndex then
    match getCapsuleIntersection (x p1) (y p1) p1_locationIndex (x p0) (y p0)
                                 (x e0) (y e0) (x e1) (y e1) eraseRadius with
    | Some xp =>
        assignCoords newPath (slice last (i + 1) cs) ;;;
        pushCoord newPath xp ;;;
        c <- createNewPath newPath ;;
        pushNewPath c ;;;
        ret (i + 1, i + 1)
    | None => ret (i + 1, last)
    end
  else
    match getCapsuleIntersections (x p0) (y p0) (x p1) (y p1)
                                  (x e0) (y e0) (x e1) (y e1) eraseRadius with
    | Some (q0, q1) =>
        assignCoords newPath (slice last (i + 1) cs) ;;;
        ncs <- coordsOf newPath ;;
        tl <- orThrow (ncs !! (length ncs - 1)) ;;
        (if diffPoint tl q0 then pushCoord newPath q0 else ret tt) ;;;
        ncs <- coordsOf newPath ;;
        (if decide (1 < length ncs)
         then c <- createNewPath newPath ;; pushNewPath c
         else ret tt) ;;;
        writeCoord path i q1 ;;;
        cs <- coordsOf path ;;
        let i' := match cs !! (i + 1) with
                  | Some nxt => if samePoint nxt q1 then i + 1 else i
                  | None => i
                  end in
        ret (i', i')
    | None => ret (i + 1, last)
    end.

Fixpoint capsuleEraseWalk (fuel : nat) (e0 e1 : Point) (path newPath : loc)
         (i last : nat) : M (nat * nat) :=
  cs <- coordsOf path ;;
  if decide (i + 1 < length cs) then
    match fuel with
    | O => outOfFuel
    | S fuel' =>
        st <- capsuleEraseStep e0 e1 path newPath i last ;;
        capsuleEraseWalk fuel' e0 e1 path newPath (fst st) (snd st)
    end
  else ret (i, last).

Definition capsuleErase (fuel : nat) (path : loc) (eraseIndex : nat) : M unit :=
  e0 <- orThrow (erasePath !! eraseIndex) ;;
  e1 <- orThrow (erasePath !! (eraseIndex + 1)) ;;
  cs <- coordsOf path ;;
  single <-
    (if decide (length cs = 1) then
       p <- orThrow (cs !! 0) ;;
       ret (negb (hasOne (withinCapsule (x p) (y p) (x e0) (y e0) (x e1) (y e1)
                                        eraseRadius)))
     else ret false) ;;
  if (single : bool) then pushNewPath path
  else
    newPath <- createNewPath path ;;
    clear newPath ;;;
    st <- capsuleEraseWalk fuel e0 e1 path newPath 0 0 ;;
    let i := fst st in
    let last := snd st in
    if decide (last ≠ i) then
      cs <- coordsOf path ;;
      assignCoords newPath (slice last (length cs) cs) ;;;
      ncs <- coordsOf newPath ;;
      if decide (0 < length ncs)
      then c <- createNewPath newPath ;; pushNewPath c
      else ret tt
    else ret tt.

End Passes.

(** ** The entry point *)

(** [for (p = 0; p < paths.length; p++) f(paths[p])] *)
Fixpoint forEach (f : loc → M unit) (paths : list loc) : M unit :=
  match paths with
  | [] => ret tt
  | p :: rest => f p ;;; forEach f rest
  end.

(** The indices [e] of [for (e = 0; e < erasePath.length - 1; e++)]. *)
Definition capsuleIndices (erasePath : list Point) : list nat :=
  seq 0 (length erasePath - 1).

(** The chain of capsule passes: each one runs over the paths the one
    before it produced. *)
Fixpoint capsuleChain (fuel : nat) (erasePath : list Point) (eraseRadius : float)
         (es : list nat) (paths : list loc) : M (list loc) :=
  match es with
  | [] => ret paths
  | e :: es' =>
      forEach (λ p, capsuleErase erasePath eraseRadius fuel p e) paths ;;;
      paths' <- takeNewPaths ;;
      capsuleChain fuel erasePath eraseRadius es' paths'
  end.

(** [eraseRadius = eraseRadius || 20]; [None] is a call without the third
    argument. *)
Definition radiusOrDefault (eraseRadius : option float) : float :=
  match eraseRadius with
  | Some r => if Num.truthy r then r else 20%float
  | None => 20%float
  end.

(** [erase(paths, erasePath, eraseRadius)], run in the store of the caller;
    [fuel] bounds the turns of each [while] loop of the two passes. *)
Definition erase (fuel : nat) (paths : list loc) (erasePath : list Point)
           (eraseRadius : option float) : M (list loc) :=
  let r := radiusOrDefault eraseRadius in
  takeNewPaths ;;;
  erasePath <- orThrow (cleanPath erasePath) ;;
  if decide (length erasePath = 1) then
    forEach (pointErase erasePath r fuel) paths ;;;
    readNewPaths
  else
    capsuleChain fuel erasePath r (capsuleIndices erasePath) paths.

(** *** Reading a result back *)

(** [path.coords] of the path object at [l], as the store has it. *)
Definition coordsIn (σ : Store) (l : loc) : option (list Point) :=
  o ← objects σ !! l ; coordArrays σ !! coords o.

Definition pt (a b : float) : Point := mkPoint a b.

(** ** Printing paths

    [logPath], [logPaths], [displayPath] and [displayPaths] build their
    text with [+], which converts a number to a string; the conversion is
    a parameter here, so that what is proved holds for the one of the
    language.  The console and the document are the lists of the strings
    given to [console.log] and to [document.write], in the order of the
    calls. *)

Section Printing.

Variable numberText : float → string.

(** ["[" + p.x + "," + p.y + "]"] *)
Definition pointText (p : Point) : string :=
  ((("[" +:+ numberText (x p)) +:+ ",") +:+ numberText (y p)) +:+ "]".

(** The loop of [logPath]: [log] is the text built before the points of
    [path]; the point at the head is the last one when nothing follows
    it. *)
Fixpoint logPathFrom (log : string) (path : list Point) : string :=
  match path with
  | [] => log
  | p :: rest =>
      let log := log +:+ pointText p in
      let log := match rest with
                 | [] => log +:+ "]"
                 | _ :: _ => log +:+ ","
                 end in
      logPathFrom log rest
  end.

(** [logPath(path, displaySwitch)]: the value returned ([None] is
    [undefined]) and what is written to the console. *)
Definition logPath (path : list Point) (displaySwitch : bool)
  : option string * list string :=
  let log := logPathFrom "[" path in
  if displaySwitch then (None, [log]) else (Some log, []).

(** The loop of [logPaths]; [None] is the [TypeError] of reading the
    [length] of the [coords] of something that is not a path. *)
Fixpoint logPathsFrom (σ : Store) (log : string) (paths : list loc) : option string :=
  match paths with
  | [] => Some log
  | l :: rest =>
      cs ← coordsIn σ l ;
      match fst (logPath cs false) with
      | Some text =>
          let log := log +:+ text in
          let log := match rest with
                     | [] => log +:+ "]"
                     | _ :: _ => log +:+ ","
                     end in
          logPathsFrom σ log rest
      | None => None
      end
  end.

(** [logPaths(paths)]: what is written to the console.  Its [log] is a
    global of the script, which [logPath] does not touch (it declares its
    own); nothing else reads it, and it is not kept here. *)
Definition logPaths (σ : Store) (paths : list loc) : option (list string) :=
  log ← logPathsFrom σ "[" paths ; Some [log].

(** The loop of [displayPath]: what it writes to the document. *)
Fixpoint displayPathFrom (path : list Point) : list string :=
  match path with
  | [] => []
  | p :: rest =>
      pointText p
        :: match rest with
           | [] => "]"
           | _ :: _ => ", "
           end
        :: displayPathFrom rest
  end.

Definition displayPath (path : list Point) : list string :=
  "[" :: displayPathFrom path.

(** The loop of [displayPaths]; [None] is the [TypeError] of reading the
    [length] of the [coords] of something that is not a path, and what
    was written before it is not kept. *)
Fixpoint displayPathsFrom (σ : Store) (paths : list loc) : option (list string) :=
  match paths with
  | [] => Some []
  | l :: rest =>
      cs ← coordsIn σ l ;
      written ← displayPathsFrom σ rest ;
      Some (displayPath cs
              ++ match rest with
                 | [] => "]"
                 | _ :: _ => ",<br/>"
                 end
              :: written)
  end.

Definition displayPaths (σ : Store) (paths : list loc) : option (list string) :=
  written ← displayPathsFrom σ paths ;
  Some ("<br/>Printing paths:<br/>" :: "[" :: written).

(** The text of a list of items between brackets, with [sep] between two
    items; the closing bracket comes with the last item, so the text of an
    empty list is the opening bracket alone. *)
Definition bracketed (sep : string) (items : list string) : string :=
  match items with
  | [] => "["
  | _ :: _ => "[" +:+ String.concat sep items +:+ "]"
  end.

End Printing.

(** ** Notions used in the statements *)

(** No two neighbours of a trail are the same point (by [===]). *)
Fixpoint adjacentDiffer (l : list Point) : Prop :=
  match l with
  | p :: (q :: _) as rest => diffPoint p q = true ∧ adjacentDiffer rest
  | _ => True
  end.

(** The reference the specification compares [cleanPath] with: every point
    that is exactly equal to its immediate predecessor is deleted, and
    nothing else. *)
Fixpoint dedupAfter (prev : Point) (l : list Point) : list Point :=
  match l with
  | [] => []
  | p :: rest => (if samePoint p prev then [] else [p]) ++ dedupAfter p rest
  end.

Definition dedupConsecutive (l : list Point) : list Point :=
  match l with
  | [] => []
  | p :: rest => p :: dedupAfter p rest
  end.

(** What [===] decides on the specification side of two floats: both are
    zeros, or they are the same infinity or the same finite number. *)
Definition SFsame (f g : spec_float) : Prop :=
  match f, g with
  | S754_zero _, S754_zero _ => True
  | S754_infinity s, S754_infinity s' => s = s'
  | S754_finite s m e, S754_finite s' m' e' => s = s' ∧ m = m' ∧ e = e'
  | _, _ => False
  end.

(** *** Partial correctness of a computation

    [wp m Q σ]: if [m] returns from the store [σ], its value and the store
    it leaves satisfy [Q]. *)
Definition wp {A} (m : M A) (Q : A → Store → Prop) (σ : Store) : Prop :=
  match m σ with
  | Done (a, σ') => Q a σ'
  | Throw | OutOfFuel => True
  end.

(** *** What a pass may change in the store it is given

    [extends σ0 σ]: every path object and attribute array of [σ0] is still
    there in [σ], unchanged, and every array of points of [σ0] is still
    there with the same length (its slots may hold other points). *)
Definition extends (σ0 σ : Store) : Prop :=
  (∀ l o, objects σ0 !! l = Some o → objects σ !! l = Some o)
  ∧ (∀ a vs, valueArrays σ0 !! a = Some vs → valueArrays σ !! a = Some vs)
  ∧ (∀ a cs, coordArrays σ0 !! a = Some cs →
       ∃ cs', coordArrays σ !! a = Some cs' ∧ length cs' = length cs).

(** [l] is a path object whose [coords] has at least one point. *)
Definition nonEmptyPath (σ : Store) (l : loc) : Prop :=
  ∃ o cs, objects σ !! l = Some o ∧ coordArrays σ !! coords o = Some cs
          ∧ 0 < length cs.

Definition outputsOk (σ : Store) : Prop := Forall (nonEmptyPath σ) (newPaths σ).

(** The invariant of a walk, relative to the store [σ0] of the caller:
    [newPath] is an object of the pass's own, not yet in [newPaths], and
    its [coords] is an array of the pass's own. *)
Record walkInv (σ0 : Store) (newPath : loc) (σ : Store) : Prop := mkWalkInv {
  inv_extends : extends σ0 σ;
  inv_outputs : outputsOk σ;
  inv_shell_new : objects σ0 !! newPath = None;
  inv_shell_out : newPath ∉ newPaths σ;
  inv_shell : ∃ o, objects σ !! newPath = Some o ∧ coordArrays σ0 !! coords o = None
}.

(** The invariant between two paths of a pass. *)
Definition passInv (σ0 σ : Store) : Prop := extends σ0 σ ∧ outputsOk σ.

(** *** Total correctness of a computation

    [returns m Q σ]: from the store [σ], [m] returns, and its value and
    the store it leaves satisfy [Q]. *)
Definition returns {A} (m : M A) (Q : A → Store → Prop) (σ : Store) : Prop :=
  match m σ with
  | Done (a, σ') => Q a σ'
  | Throw | OutOfFuel => False
  end.

(** Every array an attribute names is in the store. *)
Definition attrsValid (vas : list (list Value)) (kvs : list (string * Value)) : Prop :=
  Forall (λ kv, match kv.2 with
                | VArr a => is_Some (vas !! a)
                | _ => True
                end) kvs.

(** [l] is a path object of the store whose [coords] holds the points [cs]. *)
Definition pathHas (σ : Store) (l : loc) (cs : list Point) : Prop :=
  ∃ o, objects σ !! l = Some o ∧ coordArrays σ !! coords o = Some cs
       ∧ attrsValid (valueArrays σ) (attrs o).

(** [σ'] is [σ] with more arrays and objects allocated. *)
Definition grows (σ σ' : Store) : Prop :=
  ∃ ca va oa, coordArrays σ' = coordArrays σ ++ ca
              ∧ valueArrays σ' = valueArrays σ ++ va
              ∧ objects σ' = objects σ ++ oa.

(** *** A path that stays away from the eraser

    The coordinates of a point are numbers, not [NaN]. *)
Definition isNumber (p : Point) : bool :=
  Num.seq (x p) (x p) && Num.seq (y p) (y p).

(** No point of the segment from [p0] to [p1] is closer to [e] than [r]:
    the point of the segment that is closest to [e] is at distance [r] or
    more. *)
Definition segmentClearOfCircle (p0 p1 e : Point) (r : float) : Prop :=
  let closest := getClosestPointOnSegment (x p0, y p0) (x p1, y p1) (x e, y e) in
  Num.geb (getLength (fst closest - x e, snd closest - y e)%float) r = true.


(** The segment from [p0] to [p1] stays clear of the two end circles of
    the capsule around [e0], [e1] and does not meet its two sides. *)
Definition segmentClearOfCapsule (p0 p1 e0 e1 : Point) (r : float) : Prop :=
  let box := getParallelSegments (x e0) (y e0) (x e1) (y e1) r in
  segmentClearOfCircle p0 p1 e0 r
  ∧ segmentClearOfCircle p0 p1 e1 r
  ∧ getLineIntersection (x p0) (y p0) (x p1) (y p1)
                        (x (b0 box)) (y (b0 box)) (x (b3 box)) (y (b3 box)) = None
  ∧ getLineIntersection (x p0) (y p0) (x p1) (y p1)
                        (x (b1 box)) (y (b1 box)) (x (b2 box)) (y (b2 box)) = None.

Definition awayFromCapsule (e0 e1 : Point) (r : float) (cs : list Point) : Prop :=
  Forall (λ p, isNumber p = true
               ∧ hasOne (withinCapsule (x p) (y p) (x e0) (y e0) (x e1) (y e1) r)
                 = false) cs
  ∧ ∀ i p0 p1, cs !! i = Some p0 → cs !! (i + 1) = Some p1 →
               segmentClearOfCapsule p0 p1 e0 e1 r.


(** What a pass does with a path that stays away from the eraser: it
    allocates, and pushes one path with the same points. *)
Definition copied (σ : Store) (cs : list Point) : unit → Store → Prop :=
  λ _ σ', grows σ σ' ∧ ∃ l', newPaths σ' = newPaths σ ++ [l'] ∧ pathHas σ' l' cs.

(** *** A path that grazes the eraser

    A segment from (4.6, 17.8) to (-19.4, 35.8) and an eraser of radius 1 at
    (0, 20): the segment touches the circle at (0.6, 20.8). *)
Definition grazingStore : Store :=
  mkStore [[pt 4.6 17.8; pt (-19.4) 35.8]] []
          [mkPath [("stroke", VStr "#000000")] 0] [].

Definition grazingEnd : Point := pt (-19.4) 35.8.
Definition grazingEraser : Point := pt 0 20.

Definition nanPoint : Point := mkPoint nan nan.

(** The walk over [path] is stuck: [path.coords] is [[nanPoint; grazingEnd]]
    and [newPath] is another object with another array of points. *)
Definition stuck (path newPath : loc) (σ : Store) : Prop :=
  ∃ op on csn,
    objects σ !! path = Some op ∧ objects σ !! newPath = Some on
    ∧ path ≠ newPath ∧ coords op ≠ coords on
    ∧ coordArrays σ !! coords op = Some [nanPoint; grazingEnd]
    ∧ coordArrays σ !! coords on = Some csn
    ∧ attrsValid (valueArrays σ) (attrs on).

(** The store when the walk over the grazing path starts, and the store
    after its first turn. *)
Definition grazingShell : Store :=
  Eval vm_compute in
    match (np <- createNewPath 0 ;; clear np ;;; ret np) grazingStore with
    | Done (_, σ) => σ
    | _ => grazingStore
    end.

Definition grazingStuck : Store :=
  Eval vm_compute in
    match pointEraseStep 1 (x grazingEraser) (y grazingEraser) 0 1 0 0 grazingShell with
    | Done (_, σ) => σ
    | _ => grazingShell
    end.

(** [m'] returns whatever [m] returns. *)
Definition refines {A} (m m' : M A) : Prop :=
  ∀ σ r, m σ = Done r → m' σ = Done r.

(** *** Reading attributes back *)

(** [path[key]] for an own property other than [coords]. *)
Definition attrOf (σ : Store) (l : loc) (key : string) : option Value :=
  o ← objects σ !! l ;
  snd <$> List.find (λ kv, String.eqb (fst kv) key) (attrs o).

(** [path[key][0]], when [path[key]] is an array whose first element is an
    array: the inner array, and what it holds. *)
Definition innerArrayOf (σ : Store) (l : loc) (key : string) : option loc :=
  v ← attrOf σ l key ;
  match v with
  | VArr a =>
      vs ← valueArrays σ !! a ;
      match vs !! 0 with
      | Some (VArr b) => Some b
      | _ => None
      end
  | _ => None
  end.

Definition innerValuesOf (σ : Store) (l : loc) (key : string) : option (list Value) :=
  b ← innerArrayOf σ l key ; valueArrays σ !! b.

(** [arr[i] = v] on the attribute array at [a]. *)
Definition setValueSlot (a : loc) (i : nat) (v : Value) (σ : Store) : Store :=
  match valueArrays σ !! a with
  | Some vs => mkStore (coordArrays σ) (<[a := <[i := v]> vs]> (valueArrays σ))
                       (objects σ) (newPaths σ)
  | None => σ
  end.

(** *** The inputs of the examples *)

(** One path from (0,0) to (100,100); the eraser is at (50,50) with radius
    10. *)
Definition diagonalStore : Store :=
  mkStore [[pt 0 0; pt 100 100]] [] [mkPath [("stroke", VStr "#000000")] 0] [].

Definition diagonalAfter : Store :=
  Eval vm_compute in
    match erase 2 [0] [pt 50 50] (Some 10%float) diagonalStore with
    | Done (_, σ) => σ
    | _ => diagonalStore
    end.

Definition crossingLow : Point := pt 42.928932188134524 42.928932188134524.
Definition crossingHigh : Point := pt 57.071067811865476 57.071067811865476.

(** The same path with a number-valued attribute and an attribute whose
    array holds an array: [{stroke: "#000000", width: 2, dash: [[5, 3]]}]. *)
Definition styledStore : Store :=
  mkStore [[pt 0 0; pt 100 100]] [[VArr 1]; [VNum 5; VNum 3]]
          [mkPath [("stroke", VStr "#000000"); ("width", VNum 2); ("dash", VArr 0)] 0]
          [].

Definition styledAfter : Store :=
  Eval vm_compute in
    match erase 2 [0] [pt 50 50] (Some 10%float) styledStore with
    | Done (_, σ) => σ
    | _ => styledStore
    end.

(** A trail that comes back to its first point after a repeated point. *)
Definition returningTrail : list Point := [pt 0 0; pt 0 0; pt 1 1; pt 0 0].

(** A path from (3, 5) to a point just inside the unit circle around the
    origin, for which the single-crossing routines find no crossing. *)
Definition barelyInside : Point := pt 0.5 0.8660254037844385.

Definition barelyStore : Store :=
  mkStore [[pt 3 5; barelyInside]] [] [mkPath [("stroke", VStr "#000000")] 0] [].

Definition barelyShell : Store :=
  Eval vm_compute in
    match (np <- createNewPath 0 ;; clear np ;;; ret np) barelyStore with
    | Done (_, σ) => σ
    | _ => barelyStore
    end.

Definition barelyAfterCapsule : Store :=
  Eval vm_compute in
    match erase 1 [0] [pt 0 0; pt (-10) 0] (Some 1%float) barelyStore with
    | Done (_, σ) => σ
    | _ => barelyStore
    end.



(** ** Notions used in the further properties *)

(** *** Paths under the eraser, and dots beside it *)

(** Every point of [cs] is within the circle of radius [r] around [e]. *)
Definition insideCircle (e : Point) (r : float) (cs : list Point) : Prop :=
  Forall (λ p, withinCircle (x p) (y p) (x e) (y e) r = true) cs.

(** Every point of [cs] is in the capsule of radius [r] around the segment
    from [e0] to [e1]: its location index holds a 1. *)
Definition insideCapsule (e0 e1 : Point) (r : float) (cs : list Point) : Prop :=
  Forall (λ p, hasOne (withinCapsule (x p) (y p) (x e0) (y e0) (x e1) (y e1) r) = true) cs.

(** The point [p] is outside the eraser that goes along the (cleaned)
    trail: outside the circle of a trail of one point, outside every capsule
    of a longer trail. *)
Definition missedBy (trail : list Point) (r : float) (p : Point) : Prop :=
  match trail with
  | [e] => withinCircle (x p) (y p) (x e) (y e) r = false
  | _ => ∀ k e0 e1, trail !! k = Some e0 → trail !! (k + 1) = Some e1 →
                    hasOne (withinCapsule (x p) (y p) (x e0) (y e0) (x e1) (y e1) r) = false
  end.

(** The store after [erase] has returned keeps the objects and arrays of
    the store [σ] as they were. *)
Definition sameHeap (σ σ' : Store) : Prop :=
  coordArrays σ' = coordArrays σ ∧ valueArrays σ' = valueArrays σ
  ∧ objects σ' = objects σ.

(** What a pass does with a path that lies under the eraser: it allocates
    its working clone and pushes nothing. *)
Definition swallowed (σ : Store) : unit → Store → Prop :=
  λ _ σ', grows σ σ' ∧ newPaths σ' = newPaths σ.

(** A path of one point, (20, 10), and a path whose [coords] is empty. *)
Definition dotStore : Store :=
  mkStore [[pt 20 10]; []] []
          [mkPath [("stroke", VStr "#000000")] 0; mkPath [("stroke", VStr "#000000")] 1]
          [].

(** A trail of three points; the diagonal path stays away from its first
    capsule and lies in its second one when the radius is 100. *)
Definition bentTrail : list Point := [pt 1000 0; pt 1000 500; pt 50 50].

(** *** What [createNewPath] carries over *)

(** The attributes [createNewPath] has a branch for: strings and arrays. *)
Definition carried (kv : string * Value) : bool :=
  match kv.2 with
  | VStr _ | VArr _ => true
  | _ => false
  end.

(** [v'] in the store [σ'] is the copy [createNewPath] makes of [v] in the
    store [σ]: the same string, or an array that was allocated for the copy
    and holds what the array [v] holds. *)
Definition copiedValue (σ σ' : Store) (v v' : Value) : Prop :=
  match v, v' with
  | VStr s, VStr s' => s' = s
  | VArr a, VArr a' =>
      length (valueArrays σ) ≤ a'
      ∧ ∃ vs, valueArrays σ !! a = Some vs ∧ valueArrays σ' !! a' = Some vs
  | _, _ => False
  end.

(** *** A walk held up by a point that is not a number

    The walk over [path] is held up: the first point of [path.coords] has a
    coordinate that is not a number, its second point is [q], and [newPath]
    is another object with another array of points. *)
Definition heldUp (q : Point) (path newPath : loc) (σ : Store) : Prop :=
  ∃ op on csn p more,
    objects σ !! path = Some op ∧ objects σ !! newPath = Some on
    ∧ path ≠ newPath ∧ coords op ≠ coords on
    ∧ coordArrays σ !! coords op = Some (p :: q :: more)
    ∧ isNumber p = false
    ∧ coordArrays σ !! coords on = Some csn
    ∧ attrsValid (valueArrays σ) (attrs on).

(** A path from a point with no abscissa to (100, 100). *)
Definition nanStore : Store :=
  mkStore [[pt nan 0; pt 100 100]] [] [mkPath [("stroke", VStr "#000000")] 0] [].

(** *** Running without a [TypeError]

    [safe m Q σ]: from the store [σ], [m] does not throw, and when it
    returns, its value and the store it leaves satisfy [Q]. *)
Definition safe {A} (m : M A) (Q : A → Store → Prop) (σ : Store) : Prop :=
  match m σ with
  | Done (a, σ') => Q a σ'
  | Throw => False
  | OutOfFuel => True
  end.

(** Every path object of the store has its [coords] array and the arrays
    of its attributes in the store. *)
Definition wellFormed (σ : Store) : Prop :=
  ∀ l o, objects σ !! l = Some o →
         coords o < length (coordArrays σ)
         ∧ attrsValid (valueArrays σ) (attrs o).

(** [l] is a path object of the store. *)
Definition isPath (σ : Store) (l : loc) : Prop := l < length (objects σ).

(** A path is [erase]'s own when it was allocated after the [n0] objects
    the caller had.  Every path that was pushed is a path object, and is
    [erase]'s own or one of the [given] paths. *)
Definition ownOrGiven (n0 : nat) (given : loc → Prop) (σ : Store) : Prop :=
  Forall (λ l, isPath σ l ∧ (n0 ≤ l ∨ given l)) (newPaths σ).

(** The invariant of a walk over [path] with the clone [newPath]: the
    store is well formed, [path.coords] has [n] points or more, and
    [newPath] is another object, of [erase]'s own. *)
Record walkOk (n0 : nat) (given : loc → Prop) (path newPath : loc) (n : nat)
       (σ : Store) : Prop := mkWalkOk {
  ok_wf : wellFormed σ;
  ok_out : ownOrGiven n0 given σ;
  ok_path : ∃ o cs, objects σ !! path = Some o
                    ∧ coordArrays σ !! coords o = Some cs ∧ n ≤ length cs;
  ok_shell : n0 ≤ newPath ∧ isPath σ newPath;
  ok_other : path ≠ newPath
}.

(** The invariant between two paths of a pass. *)
Definition passOk (n0 : nat) (given : loc → Prop) (σ : Store) : Prop :=
  wellFormed σ ∧ n0 ≤ length (objects σ) ∧ ownOrGiven n0 given σ.

(** The paths [erase] may return as they were given: those of [paths] that
    have a single point in the store [σ] of the caller. *)
Definition givenDot (σ : Store) (paths : list loc) (l : loc) : Prop :=
  l ∈ paths ∧ ∃ p, coordsIn σ l = Some [p].

(** What a pass keeps: the invariant, and the objects that were there. *)
Definition passKeeps (n0 : nat) (given : loc → Prop) (σ : Store)
  : unit → Store → Prop :=
  λ _ σ', passOk n0 given σ' ∧ length (objects σ) ≤ length (objects σ').

(** *** Computations that only push to [newPaths]

    The store with the paths [nps] pushed before what [newPaths] holds. *)
Definition pushedBefore (nps : list loc) (σ : Store) : Store :=
  mkStore (coordArrays σ) (valueArrays σ) (objects σ) (nps ++ newPaths σ).

(** [m] does not read [newPaths]: whatever was pushed before, it does the
    same and pushes the same. *)
Definition appendsOnly {A} (m : M A) : Prop :=
  ∀ nps σ,
    m (pushedBefore nps σ)
    = match m σ with
      | Done (a, σ') => Done (a, pushedBefore nps σ')
      | Throw => Throw
      | OutOfFuel => OutOfFuel
      end.

(** * Properties *)

(** ** Strict equality of numbers *)

Section StrictEquality.

Lemma SFeqb_same f g : SFeqb f g = true ↔ SFsame f g.
Proof.
  unfold SFeqb, SFcompare, SFsame.
  destruct f as [s| s| |s m e], g as [s'| s'| |s' m' e']; try done;
    try (destruct s, s'; done); try (destruct s; done); try (destruct s'; done).
  split.
  - destruct s, s'; try done.
    + destruct (Z.compare_spec e e') as [->| |]; try done.
      destruct (PosDef.Pos.compare_cont Eq m m') eqn:E; try done.
      apply Pcompare_Eq_eq in E. by subst.
    + destruct (Z.compare_spec e e') as [->| |]; try done.
      destruct (PosDef.Pos.compare_cont Eq m m') eqn:E; try done.
      apply Pcompare_Eq_eq in E. by subst.
  - intros (-> & -> & ->). rewrite Z.compare_refl.
    change (PosDef.Pos.compare_cont Eq m' m') with (Pos.compare m' m').
    rewrite Pos.compare_refl. by destruct s'.
Qed.

Lemma SFeqb_sym f g : SFeqb f g = true → SFeqb g f = true.
Proof.
  rewrite !SFeqb_same. unfold SFsame.
  destruct f, g; try done. by intros (-> & -> & ->).
Qed.

Lemma SFeqb_trans f g h :
  SFeqb f g = true → SFeqb g h = true → SFeqb f h = true.
Proof.
  rewrite !SFeqb_same. unfold SFsame.
  destruct f, g; try done; destruct h; try done; try congruence.
  by intros (-> & -> & ->) (-> & -> & ->).
Qed.

Lemma seq_sym a b : Num.seq a b = true → Num.seq b a = true.
Proof. unfold Num.seq. rewrite !FloatAxioms.eqb_spec. apply SFeqb_sym. Qed.

Lemma seq_trans a b c :
  Num.seq a b = true → Num.seq b c = true → Num.seq a c = true.
Proof. unfold Num.seq. rewrite !FloatAxioms.eqb_spec. apply SFeqb_trans. Qed.

Lemma diffPoint_samePoint a b : diffPoint a b = negb (samePoint a b).
Proof.
  unfold diffPoint, samePoint, Num.sne, Num.seq.
  by destruct (PrimFloat.eqb (x a) (x b)), (PrimFloat.eqb (y a) (y b)).
Qed.

Lemma samePoint_sym a b : samePoint a b = true → samePoint b a = true.
Proof.
  unfold samePoint. rewrite !andb_true_iff.
  intros [??]; split; by apply seq_sym.
Qed.

Lemma samePoint_trans a b c :
  samePoint a b = true → samePoint b c = true → samePoint a c = true.
Proof.
  unfold samePoint. rewrite !andb_true_iff.
  intros [??] [??]; split; eapply seq_trans; eauto.
Qed.

Lemma diffPoint_sym a b : diffPoint a b = true → diffPoint b a = true.
Proof.
  rewrite !diffPoint_samePoint, !negb_true_iff.
  intros H. destruct (samePoint b a) eqn:E; [|done].
  apply samePoint_sym in E. congruence.
Qed.

(** A point that differs from [p] also differs from every point that is
    the same as [p]. *)
Lemma diffPoint_same_r a b c :
  diffPoint a b = true → samePoint b c = true → diffPoint a c = true.
Proof.
  rewrite !diffPoint_samePoint, !negb_true_iff.
  intros Hab Hbc. destruct (samePoint a c) eqn:E; [|done].
  rewrite <- Hab. symmetry.
  eapply samePoint_trans; [exact E|]. by apply samePoint_sym.
Qed.

End StrictEquality.

(** ** Subtraction of numbers

    A difference of two binary64 numbers that is a zero comes from two
    numbers that are strictly equal: subtraction is exact for operands
    this close, so it cannot round a non-zero difference to zero. *)

Section Subtraction.


Local Open Scope Z_scope.









End Subtraction.



(** ** Cleaning the eraser trail *)

Section CleanPath.

Implicit Types (p q : Point) (l path : list Point).

Lemma cleanScan_cons p q l :
  cleanScan (p :: q :: l) = (if diffPoint p q then [p] else []) ++ cleanScan (q :: l).
Proof. done. Qed.

(** When the scan keeps nothing, every point is the same as the first. *)
Lemma cleanScan_nil p l z :
  cleanScan (p :: l) = [] → z ∈ l → samePoint p z = true.
Proof.
  revert p. induction l as [|q l IH]; intros p Hs Hz.
  - by apply elem_of_nil in Hz.
  - rewrite cleanScan_cons in Hs.
    destruct (diffPoint p q) eqn:Hd; [done|].
    rewrite diffPoint_samePoint, negb_false_iff in Hd.
    apply elem_of_cons in Hz as [->|Hz]; [done|].
    eapply samePoint_trans; [exact Hd|]. by apply IH.
Qed.

(** The first point the scan keeps is the first point of the trail or
    the same as it. *)
Lemma cleanScan_head p l h t :
  cleanScan (p :: l) = h :: t → h = p ∨ samePoint p h = true.
Proof.
  revert p. induction l as [|q l IH]; intros p Hs; [done|].
  rewrite cleanScan_cons in Hs.
  destruct (diffPoint p q) eqn:Hd.
  - left. by inversion Hs.
  - rewrite diffPoint_samePoint, negb_false_iff in Hd.
    right. destruct (IH _ Hs) as [->|Hq]; [done|].
    by eapply samePoint_trans.
Qed.

Lemma cleanScan_adjacentDiffer l : adjacentDiffer (cleanScan l).
Proof.
  induction l as [|p [|q l] IH]; [done..|].
  rewrite cleanScan_cons.
  destruct (diffPoint p q) eqn:Hd; [|exact IH].
  destruct (cleanScan (q :: l)) as [|h t] eqn:Hs; [done|].
  split; [|exact IH].
  destruct (cleanScan_head _ _ _ _ Hs) as [->|Hq]; [done|].
  by eapply diffPoint_same_r.
Qed.

(** The last point the scan keeps differs from the last point of the
    trail. *)
Lemma cleanScan_last p l t h z :
  cleanScan (p :: l) = t ++ [h] → last (p :: l) = Some z → diffPoint h z = true.
Proof.
  revert p t. induction l as [|q l IH]; intros p t Hs Hz.
  - by destruct t.
  - rewrite cleanScan_cons in Hs. rewrite last_cons_cons in Hz.
    destruct (cleanScan (q :: l)) as [|h' t'] eqn:Hs'.
    + rewrite app_nil_r in Hs.
      destruct (diffPoint p q) eqn:Hd; [|by destruct t].
      destruct t as [|? [|??]]; try done. inversion Hs; subst h.
      destruct l as [|q' l'].
      * simpl in Hz. by inversion Hz; subst.
      * eapply diffPoint_same_r; [exact Hd|].
        eapply cleanScan_nil; [exact Hs'|].
        rewrite last_cons_cons in Hz. by apply last_Some_elem_of.
    + destruct (exists_last (l := h' :: t')) as (t'' & h'' & E); [done|].
      rewrite E in Hs, Hs'.
      assert (h = h'') as ->.
      { rewrite app_assoc in Hs. by apply app_inj_tail in Hs as [_ ?]. }
      by eapply IH.
Qed.

Lemma adjacentDiffer_snoc l h z :
  adjacentDiffer (l ++ [h]) → diffPoint h z = true → adjacentDiffer (l ++ [h; z]).
Proof.
  induction l as [|p [|q l] IH]; simpl; [done| |].
  - by intros [??] ?.
  - intros [? H] ?. split; [done|]. by apply IH.
Qed.

Lemma cleanScan_length l : length (cleanScan l) ≤ length l - 1.
Proof.
  induction l as [|p [|q l] IH]; [done..|].
  rewrite cleanScan_cons, length_app.
  destruct (diffPoint p q); simpl in *; lia.
Qed.

Lemma lookup_last_index l : l !! (length l - 1) = last l.
Proof. rewrite last_lookup. f_equal. lia. Qed.

(** What [cleanPath] returns on a trail of two points or more. *)
Lemma cleanPath_long p q l :
  ∃ z, last (p :: q :: l) = Some z ∧
    ((cleanScan (p :: q :: l) = [] ∧ cleanPath (p :: q :: l) = Some [p])
     ∨ (∃ t h pc, cleanScan (p :: q :: l) = t ++ [h]
          ∧ (p :: q :: l) !! (length t) = Some pc
          ∧ cleanPath (p :: q :: l) =
              Some (if diffPoint z pc then t ++ [h; z] else t ++ [h]))).
Proof.
  assert (is_Some (last (p :: q :: l))) as [z Hz] by (by apply last_is_Some).
  exists z. split; [done|].
  unfold cleanPath. rewrite decide_False by (simpl; lia).
  rewrite lookup_last_index, Hz.
  destruct (cleanScan (p :: q :: l)) as [|h' t'] eqn:Hs.
  - left. split; [done|]. simpl.
    assert (samePoint p z = true) as Hpz.
    { eapply cleanScan_nil; [exact Hs|].
      rewrite last_cons_cons in Hz. by apply last_Some_elem_of. }
    apply samePoint_sym in Hpz.
    rewrite diffPoint_samePoint, Hpz. done.
  - right. destruct (exists_last (l := h' :: t')) as (t & h & E); [done|].
    rewrite E in *. clear E h' t'.
    pose proof (cleanScan_length (p :: q :: l)) as Hlen.
    rewrite Hs, length_app in Hlen. simpl in Hlen.
    destruct (lookup_lt_is_Some_2 (p :: q :: l) (length t)) as [pc Hpc];
      [simpl; lia|].
    exists t, h, pc. split; [done|]. split; [done|].
    assert ((length (t ++ [h]) =? 0)%nat = false) as ->
      by (by rewrite length_app, Nat.add_1_r).
    rewrite andb_false_r.
    replace (length (t ++ [h]) - 1) with (length t)
      by (rewrite length_app; simpl; lia).
    rewrite Hpc. simpl.
    destruct (diffPoint z pc); [|done].
    by rewrite <- app_assoc.
Qed.

Lemma cleanPath_adjacentDiffer path c :
  cleanPath path = Some c → adjacentDiffer c.
Proof.
  destruct path as [|p [|q l]].
  - done.
  - unfold cleanPath. simpl. by intros [= <-].
  - destruct (cleanPath_long p q l) as (z & Hz & [[_ ->]|(t & h & pc & Hs & _ & ->)]).
    + by intros [= <-].
    + intros [= <-].
      pose proof (cleanScan_adjacentDiffer (p :: q :: l)) as Hadj.
      rewrite Hs in Hadj.
      destruct (diffPoint z pc); [|done].
      apply adjacentDiffer_snoc; [done|].
      by eapply cleanScan_last.
Qed.

Lemma cleanPath_nonempty path :
  path ≠ [] → ∃ c, cleanPath path = Some c ∧ c ≠ [].
Proof.
  destruct path as [|p [|q l]]; [done| |]; intros _.
  - exists [p]. by unfold cleanPath.
  - destruct (cleanPath_long p q l) as (z & Hz & [[_ ->]|(t & h & pc & Hs & _ & ->)]).
    + by exists [p].
    + eexists; split; [done|]. destruct (diffPoint z pc); by destruct t.
Qed.

(** On a trail with no repeated neighbour the scan keeps every point but
    the last. *)
Lemma cleanScan_adjacentDiffer_id l z :
  adjacentDiffer (l ++ [z]) → cleanScan (l ++ [z]) = l.
Proof.
  induction l as [|p l IH]; [done|].
  destruct l as [|q l].
  - simpl. by intros [-> _].
  - change ((p :: q :: l) ++ [z]) with (p :: q :: (l ++ [z])).
    rewrite cleanScan_cons. intros [-> H]. simpl. f_equal. by apply IH.
Qed.

Lemma adjacentDiffer_last_two l h z :
  adjacentDiffer (l ++ [h; z]) → diffPoint h z = true.
Proof.
  induction l as [|p [|q l] IH]; simpl.
  - by intros [??].
  - by intros [? [??]].
  - intros [_ H]. by apply IH.
Qed.

(** A trail of one point is returned as it is. *)
Lemma cleanPath_single p : cleanPath [p] = Some [p].
Proof. done. Qed.

(** A trail whose points are all the same as the first collapses to it. *)
Lemma cleanPath_all_same p q l :
  Forall (λ z, samePoint p z = true) (q :: l) → cleanPath (p :: q :: l) = Some [p].
Proof.
  intros Hall.
  destruct (cleanPath_long p q l) as (z & Hz & [[_ ->]|(t & h & pc & Hs & _ & _)]);
    [done|].
  exfalso. clear z Hz pc. revert p t h Hall Hs.
  induction (q :: l) as [|q' l' IH]; intros p t h Hall Hs; [by destruct t|].
  apply Forall_cons in Hall as [Hpq Hall]. rewrite cleanScan_cons in Hs.
  rewrite diffPoint_samePoint, Hpq in Hs. simpl in Hs.
  apply (IH q' t h); [|done].
  eapply Forall_impl; [exact Hall|]. intros z' Hz'. simpl in Hz'.
  eapply samePoint_trans; [by apply samePoint_sym|done].
Qed.

(** A trail with no repeated neighbour is a fixed point of [cleanPath]. *)
Lemma cleanPath_fixed c : c ≠ [] → adjacentDiffer c → cleanPath c = Some c.
Proof.
  intros Hne Hadj.
  destruct c as [|p [|q l]]; [done| by unfold cleanPath |].
  destruct (exists_last (l := p :: q :: l)) as (c' & z & E); [done|].
  destruct (exists_last (l := c')) as (t & h & E').
  { intros ->. by destruct l. }
  subst c'. rewrite <- app_assoc in E. simpl in E.
  destruct (cleanPath_long p q l) as (z' & Hz & [[Hs _]|(t' & h' & pc & Hs & Hpc & ->)]).
  - rewrite E in Hs, Hadj.
    replace (t ++ [h; z]) with ((t ++ [h]) ++ [z]) in Hs, Hadj
      by (by rewrite <- app_assoc).
    rewrite cleanScan_adjacentDiffer_id in Hs by done. by destruct t.
  - rewrite E in Hs, Hadj, Hz, Hpc |- *.
    pose proof (adjacentDiffer_last_two _ _ _ Hadj) as Hhz.
    replace (t ++ [h; z]) with ((t ++ [h]) ++ [z]) in Hs, Hadj, Hz
      by (by rewrite <- app_assoc).
    rewrite cleanScan_adjacentDiffer_id in Hs by done.
    apply app_inj_tail in Hs as [-> ->].
    rewrite last_snoc in Hz. inversion Hz; subst z'.
    rewrite lookup_app_r, Nat.sub_diag in Hpc by lia.
    inversion Hpc; subst pc.
    by rewrite (diffPoint_sym _ _ Hhz).
Qed.

End CleanPath.

(** ** Reasoning about computations in the store *)

Section Wp.

Context {A B : Type}.
Implicit Types (Q : A → Store → Prop) (σ : Store).

Lemma wp_ret Q (a : A) σ : Q a σ → wp (ret a) Q σ.
Proof. done. Qed.

Lemma wp_throw Q σ : wp (@throw A) Q σ.
Proof. done. Qed.

Lemma wp_outOfFuel Q σ : wp (@outOfFuel A) Q σ.
Proof. done. Qed.

Lemma wp_bind (m : M A) (k : A → M B) (R : B → Store → Prop) σ :
  wp m (λ a σ', wp (k a) R σ') σ → wp (bind m k) R σ.
Proof. unfold wp, bind. by destruct (m σ) as [[a σ']| |]. Qed.

Lemma wp_mono (m : M A) Q Q' σ :
  (∀ a σ', Q a σ' → Q' a σ') → wp m Q σ → wp m Q' σ.
Proof. unfold wp. destruct (m σ) as [[a σ']| |]; auto. Qed.

Lemma wp_orThrow (o : option A) Q σ :
  (∀ a, o = Some a → Q a σ) → wp (orThrow o) Q σ.
Proof. destruct o; simpl; [|done]. intros H. by apply H. Qed.

Lemma wp_done (m : M A) Q σ a σ' : wp m Q σ → m σ = Done (a, σ') → Q a σ'.
Proof. unfold wp. intros H E. by rewrite E in H. Qed.

End Wp.

Section StoreRules.

Implicit Types (σ : Store) (l a : loc).

Lemma wp_getObject l (Q : PathObj → Store → Prop) σ :
  (∀ o, objects σ !! l = Some o → Q o σ) → wp (getObject l) Q σ.
Proof. intros H. unfold getObject. by apply wp_orThrow. Qed.

Lemma wp_getCoordArray a (Q : list Point → Store → Prop) σ :
  (∀ cs, coordArrays σ !! a = Some cs → Q cs σ) → wp (getCoordArray a) Q σ.
Proof. intros H. unfold getCoordArray. by apply wp_orThrow. Qed.

Lemma wp_getValueArray a (Q : list Value → Store → Prop) σ :
  (∀ vs, valueArrays σ !! a = Some vs → Q vs σ) → wp (getValueArray a) Q σ.
Proof. intros H. unfold getValueArray. by apply wp_orThrow. Qed.

Lemma wp_coordsOf l (Q : list Point → Store → Prop) σ :
  (∀ o cs, objects σ !! l = Some o → coordArrays σ !! coords o = Some cs → Q cs σ)
  → wp (coordsOf l) Q σ.
Proof.
  intros H. unfold coordsOf. apply wp_bind, wp_getObject. intros o Ho.
  apply wp_getCoordArray. intros cs Hcs. by eapply H.
Qed.

Lemma store_eta σ :
  σ = mkStore (coordArrays σ) (valueArrays σ) (objects σ) (newPaths σ).
Proof. by destruct σ. Qed.

(** [copyAttrs] only allocates attribute arrays. *)
Lemma wp_copyAttrs kvs (Q : list (string * Value) → Store → Prop) σ :
  (∀ kvs' va, Q kvs' (mkStore (coordArrays σ) (valueArrays σ ++ va)
                              (objects σ) (newPaths σ)))
  → wp (copyAttrs kvs) Q σ.
Proof.
  revert Q σ. induction kvs as [|[key v] kvs IH]; intros Q σ H.
  - simpl. apply wp_ret. specialize (H [] []).
    by rewrite app_nil_r, <- store_eta in H.
  - destruct v; simpl; try by apply IH.
    + apply wp_bind, IH. intros kvs' va. apply wp_ret, H.
    + apply wp_bind, wp_getValueArray. intros vs _.
      apply wp_bind. unfold wp at 1. simpl.
      apply wp_bind, IH. intros kvs' va. simpl. apply wp_ret.
      rewrite <- app_assoc. apply H.
Qed.

(** [createNewPath] only allocates: attribute arrays, one array of points
    holding the points of the source, and the new object, which is the
    last object of the store. *)
Lemma wp_createNewPath l (Q : loc → Store → Prop) σ :
  (∀ o cs kvs' va,
      objects σ !! l = Some o → coordArrays σ !! coords o = Some cs →
      Q (length (objects σ))
        (mkStore (coordArrays σ ++ [cs]) (valueArrays σ ++ va)
                 (objects σ ++ [mkPath kvs' (length (coordArrays σ))])
                 (newPaths σ)))
  → wp (createNewPath l) Q σ.
Proof.
  intros H. unfold createNewPath.
  apply wp_bind, wp_getObject. intros o Ho.
  apply wp_bind, wp_copyAttrs. intros kvs' va.
  apply wp_bind, wp_getCoordArray. simpl. intros cs Hcs.
  apply wp_bind. unfold wp at 1. simpl.
  unfold wp. simpl. by eapply H.
Qed.

End StoreRules.

(** ** The invariant of the walks *)

Section WalkInvariant.

Implicit Types (σ : Store) (l a c : loc) (cs : list Point).



(** Allocation leaves everything that was there as it was. *)
Lemma nonEmptyPath_grow σ l ca va oa :
  nonEmptyPath σ l →
  nonEmptyPath (mkStore (coordArrays σ ++ ca) (valueArrays σ ++ va)
                        (objects σ ++ oa) (newPaths σ)) l.
Proof.
  intros (o & cs & Ho & Hcs & Hlen). exists o, cs. simpl.
  split_and!; [by apply lookup_app_l_Some..|done].
Qed.

Lemma walkInv_grow σ0 np σ ca va oa :
  walkInv σ0 np σ →
  walkInv σ0 np (mkStore (coordArrays σ ++ ca) (valueArrays σ ++ va)
                         (objects σ ++ oa) (newPaths σ)).
Proof.
  intros [(Ho & Hv & Hc) Hout Hnew Hnp (o & Hsh & Hsa)].
  split; simpl.
  - split_and!; simpl.
    + intros l o' H. by apply lookup_app_l_Some, Ho.
    + intros a vs H. by apply lookup_app_l_Some, Hv.
    + intros a cs H. destruct (Hc _ _ H) as (cs' & H' & Hl).
      exists cs'. split; [by apply lookup_app_l_Some|done].
  - unfold outputsOk in *. simpl. eapply Forall_impl; [exact Hout|].
    intros l Hl. by apply nonEmptyPath_grow.
  - done.
  - done.
  - exists o. split; [by apply lookup_app_l_Some|done].
Qed.

(** An array of points is overwritten by one that is not shorter; an
    array the caller had keeps its length. *)
Lemma walkInv_setCoordArray σ0 np σ a cs cs' :
  walkInv σ0 np σ →
  coordArrays σ !! a = Some cs →
  length cs ≤ length cs' →
  (coordArrays σ0 !! a = None ∨ length cs' = length cs) →
  walkInv σ0 np (mkStore (<[a := cs']> (coordArrays σ)) (valueArrays σ)
                         (objects σ) (newPaths σ)).
Proof.
  intros [(Ho & Hv & Hc) Hout Hnew Hnp (o & Hsh & Hsa)] Ha Hle Hold.
  pose proof (lookup_lt_Some _ _ _ Ha) as Hlt.
  split; simpl; [|..|done|done|by exists o].
  - split_and!; simpl; [done..|].
    intros a' cs0 H. destruct (Hc _ _ H) as (cs1 & H1 & Hl).
    destruct (decide (a' = a)) as [->|Hne].
    + exists cs'. rewrite list_lookup_insert_eq by done. split; [done|].
      destruct Hold as [Hnone|Heq]; [congruence|].
      rewrite Ha in H1. inversion H1; subst. lia.
    + exists cs1. by rewrite list_lookup_insert_ne.
  - unfold outputsOk in *. simpl. eapply Forall_impl; [exact Hout|].
    intros l (o' & cs0 & Ho' & Hcs0 & Hlen). exists o'. simpl.
    destruct (decide (coords o' = a)) as [E|Hne].
    + exists cs'. rewrite E, list_lookup_insert_eq by done.
      split_and!; [done..|]. rewrite E, Ha in Hcs0. inversion Hcs0; subst. lia.
    + exists cs0. by rewrite list_lookup_insert_ne.
Qed.

(** [newPath.coords] is bound to an array the caller did not have. *)
Lemma walkInv_setObject σ0 np σ kvs a :
  walkInv σ0 np σ →
  coordArrays σ0 !! a = None →
  walkInv σ0 np (mkStore (coordArrays σ) (valueArrays σ)
                         (<[np := mkPath kvs a]> (objects σ)) (newPaths σ)).
Proof.
  intros [(Ho & Hv & Hc) Hout Hnew Hnp (o & Hsh & Hsa)] Ha.
  pose proof (lookup_lt_Some _ _ _ Hsh) as Hlt.
  split; simpl; [| |done|done|].
  - split_and!; simpl; [|done..].
    intros l o' H. rewrite list_lookup_insert_ne; [by apply Ho|].
    intros ->. congruence.
  - unfold outputsOk in *. simpl.
    apply Forall_forall. intros l Hl.
    rewrite Forall_forall in Hout. destruct (Hout _ Hl) as (o' & cs0 & Ho' & Hcs0 & Hlen).
    exists o', cs0. simpl. rewrite list_lookup_insert_ne; [done|].
    intros ->. done.
  - exists (mkPath kvs a). by rewrite list_lookup_insert_eq.
Qed.

Lemma walkInv_push σ0 np σ c :
  walkInv σ0 np σ → nonEmptyPath σ c → c ≠ np →
  walkInv σ0 np (mkStore (coordArrays σ) (valueArrays σ) (objects σ)
                         (newPaths σ ++ [c])).
Proof.
  intros [Hext Hout Hnew Hnp Hsh] Hc Hne.
  split; simpl; [done| |done| |done].
  - unfold outputsOk in *. simpl. apply Forall_app. split; [done|].
    by apply Forall_singleton.
  - rewrite elem_of_app, list_elem_of_singleton. intros [?|?]; [done|by subst].
Qed.

Lemma walkInv_fresh_coords σ0 np σ :
  walkInv σ0 np σ → coordArrays σ0 !! length (coordArrays σ) = None.
Proof.
  intros [(_ & _ & Hc) _ _ _ _].
  destruct (coordArrays σ0 !! length (coordArrays σ)) as [cs|] eqn:E; [|done].
  destruct (Hc _ _ E) as (cs' & H' & _).
  apply lookup_lt_Some in H'. lia.
Qed.

End WalkInvariant.

Section WalkRules.

Variable σ0 : Store.
Variable np : loc.
Implicit Types (σ : Store) (l a c : loc) (cs : list Point).

Lemma inv_coordsOf_shell σ (Q : list Point → Store → Prop) :
  (∀ cs, (0 < length cs → nonEmptyPath σ np) → Q cs σ) → wp (coordsOf np) Q σ.
Proof.
  intros H. apply wp_coordsOf. intros o cs Ho Hcs. apply H.
  intros Hlen. by exists o, cs.
Qed.

Lemma inv_writeCoord σ path i p (Q : unit → Store → Prop) :
  walkInv σ0 np σ → (∀ σ', walkInv σ0 np σ' → Q tt σ')
  → wp (writeCoord path i p) Q σ.
Proof.
  intros Hinv H. unfold writeCoord.
  apply wp_bind, wp_getObject. intros o Ho.
  apply wp_bind, wp_getCoordArray. intros cs Hcs.
  case_decide; [|apply wp_throw].
  unfold wp. simpl. apply H.
  eapply walkInv_setCoordArray; eauto; rewrite length_insert; auto.
Qed.

Lemma inv_pushCoord σ p (Q : unit → Store → Prop) :
  walkInv σ0 np σ → (∀ σ', walkInv σ0 np σ' → nonEmptyPath σ' np → Q tt σ')
  → wp (pushCoord np p) Q σ.
Proof.
  intros Hinv H. unfold pushCoord.
  apply wp_bind, wp_getObject. intros o Ho.
  apply wp_bind, wp_getCoordArray. intros cs Hcs.
  unfold wp. simpl. apply H.
  - eapply walkInv_setCoordArray; eauto.
    + rewrite length_app. lia.
    + left. destruct Hinv as [_ _ _ _ (o' & Ho' & Hsa)]. congruence.
  - exists o, (cs ++ [p]). simpl. split_and!; [done| |rewrite length_app; simpl; lia].
    apply list_lookup_insert_eq. by eapply lookup_lt_Some.
Qed.

Lemma inv_assignCoords σ cs (Q : unit → Store → Prop) :
  walkInv σ0 np σ → (∀ σ', walkInv σ0 np σ' → Q tt σ')
  → wp (assignCoords np cs) Q σ.
Proof.
  intros Hinv H. unfold assignCoords.
  apply wp_bind. unfold wp at 1. simpl.
  apply wp_bind, wp_getObject. simpl. intros o Ho.
  unfold wp. simpl. apply H.
  pose proof (walkInv_fresh_coords _ _ _ Hinv) as Hfresh.
  apply (walkInv_grow _ _ _ [cs] [] []) in Hinv.
  rewrite !app_nil_r in Hinv.
  by apply (walkInv_setObject _ _ _ (attrs o) (length (coordArrays σ))) in Hinv.
Qed.

Lemma inv_createNewPath σ l (Q : loc → Store → Prop) :
  walkInv σ0 np σ →
  (∀ σ' c, walkInv σ0 np σ' → c ≠ np → (nonEmptyPath σ l → nonEmptyPath σ' c)
           → Q c σ')
  → wp (createNewPath l) Q σ.
Proof.
  intros Hinv H. apply wp_createNewPath. intros o cs kvs' va Ho Hcs.
  apply H.
  - by apply walkInv_grow.
  - destruct Hinv as [_ _ _ _ (o' & Ho' & _)].
    apply lookup_lt_Some in Ho'. lia.
  - intros (o' & cs' & Ho' & Hcs' & Hlen).
    exists (mkPath kvs' (length (coordArrays σ))), cs. simpl.
    split_and!.
    + by apply list_lookup_middle.
    + by apply list_lookup_middle.
    + congruence.
Qed.

Lemma inv_pushNewPath σ c (Q : unit → Store → Prop) :
  walkInv σ0 np σ → nonEmptyPath σ c → c ≠ np →
  (∀ σ', walkInv σ0 np σ' → Q tt σ') → wp (pushNewPath c) Q σ.
Proof.
  intros Hinv Hc Hne H. unfold wp. simpl. apply H. by apply walkInv_push.
Qed.

(** [newPaths.push(createNewPath(newPath))] when [newPath] has points. *)
Lemma inv_emit σ (Q : unit → Store → Prop) :
  walkInv σ0 np σ → nonEmptyPath σ np →
  (∀ σ', walkInv σ0 np σ' → Q tt σ')
  → wp (c <- createNewPath np ;; pushNewPath c) Q σ.
Proof.
  intros Hinv Hne H. apply wp_bind, inv_createNewPath; [done|].
  intros σ' c Hinv' Hc Hnon. apply inv_pushNewPath; auto.
Qed.

(** The part the two double-crossing branches share. *)
Lemma inv_doubleCrossing σ path i last cs0 q0 q1 (Q : nat * nat → Store → Prop) :
  walkInv σ0 np σ →
  (∀ st σ', walkInv σ0 np σ' → Q st σ') →
  wp (assignCoords np (slice last (i + 1) cs0) ;;;
      ncs <- coordsOf np ;;
      tl <- orThrow (ncs !! (length ncs - 1)) ;;
      (if diffPoint tl q0 then pushCoord np q0 else ret tt) ;;;
      ncs <- coordsOf np ;;
      (if decide (1 < length ncs)
       then c <- createNewPath np ;; pushNewPath c
       else ret tt) ;;;
      writeCoord path i q1 ;;;
      cs <- coordsOf path ;;
      let i' := match cs !! (i + 1) with
                | Some nxt => if samePoint nxt q1 then i + 1 else i
                | None => i
                end in
      ret (i', i')) Q σ.
Proof.
  intros Hinv H.
  apply wp_bind, inv_assignCoords; [done|]. intros σ1 Hinv1.
  apply wp_bind, wp_coordsOf. intros _ ncs _ _.
  apply wp_bind, wp_orThrow. intros tl _.
  apply wp_bind.
  assert (wp (if diffPoint tl q0 then pushCoord np q0 else ret tt)
             (λ _ σ', walkInv σ0 np σ') σ1) as Hpush.
  { destruct (diffPoint tl q0); [|by apply wp_ret].
    apply inv_pushCoord; auto. }
  eapply wp_mono; [|exact Hpush]. simpl. intros _ σ2 Hinv2.
  apply wp_bind, inv_coordsOf_shell. intros ncs' Hne.
  apply wp_bind.
  assert (wp (if decide (1 < length ncs')
              then c <- createNewPath np ;; pushNewPath c else ret tt)
             (λ _ σ', walkInv σ0 np σ') σ2) as Hemit.
  { case_decide; [|by apply wp_ret].
    apply inv_emit; auto. apply Hne. lia. }
  eapply wp_mono; [|exact Hemit]. simpl. intros _ σ3 Hinv3.
  apply wp_bind, inv_writeCoord; [done|]. intros σ4 Hinv4.
  apply wp_bind, wp_coordsOf. intros _ cs _ _.
  apply wp_ret. by apply H.
Qed.

(** The part the two single-crossing emissions share. *)
Lemma inv_singleCrossing σ i last cs0 xp (Q : nat * nat → Store → Prop) :
  walkInv σ0 np σ →
  (∀ st σ', walkInv σ0 np σ' → Q st σ') →
  wp (assignCoords np (slice last (i + 1) cs0) ;;;
      pushCoord np xp ;;;
      c <- createNewPath np ;;
      pushNewPath c ;;;
      ret (i + 1, i + 1)) Q σ.
Proof.
  intros Hinv H.
  apply wp_bind, inv_assignCoords; [done|]. intros σ1 Hinv1.
  apply wp_bind, inv_pushCoord; [done|]. intros σ2 Hinv2 Hne.
  apply wp_bind, inv_createNewPath; [done|]. intros σ3 c Hinv3 Hc Hnon.
  apply wp_bind, inv_pushNewPath; auto. intros σ4 Hinv4.
  apply wp_ret. by apply H.
Qed.

Variable eraseRadius : float.

Lemma inv_pointEraseStep σ eX eY path i last :
  walkInv σ0 np σ →
  wp (pointEraseStep eraseRadius eX eY path np i last)
     (λ _ σ', walkInv σ0 np σ') σ.
Proof.
  intros Hinv. unfold pointEraseStep.
  apply wp_bind, wp_coordsOf. intros _ cs _ _.
  apply wp_bind, wp_orThrow. intros p0 _.
  apply wp_bind, wp_orThrow. intros p1 _.
  repeat case_match; try by apply wp_ret.
  - apply wp_bind, inv_writeCoord; [done|]. intros σ1 Hinv1. by apply wp_ret.
  - by apply inv_singleCrossing.
  - by apply inv_doubleCrossing.
Qed.

Lemma inv_capsuleEraseStep σ e0 e1 path i last :
  walkInv σ0 np σ →
  wp (capsuleEraseStep eraseRadius e0 e1 path np i last)
     (λ _ σ', walkInv σ0 np σ') σ.
Proof.
  intros Hinv. unfold capsuleEraseStep.
  apply wp_bind, wp_coordsOf. intros _ cs _ _.
  apply wp_bind, wp_orThrow. intros p0 _.
  apply wp_bind, wp_orThrow. intros p1 _.
  repeat case_match; try by apply wp_ret.
  - apply wp_bind, inv_writeCoord; [done|]. intros σ1 Hinv1. by apply wp_ret.
  - by apply inv_singleCrossing.
  - by apply inv_doubleCrossing.
Qed.

Lemma inv_pointEraseWalk fuel σ eX eY path i last :
  walkInv σ0 np σ →
  wp (pointEraseWalk eraseRadius fuel eX eY path np i last)
     (λ _ σ', walkInv σ0 np σ') σ.
Proof.
  revert σ i last. induction fuel as [|fuel IH]; intros σ i last Hinv; simpl.
  - apply wp_bind, wp_coordsOf. intros _ cs _ _.
    case_decide; [apply wp_outOfFuel|by apply wp_ret].
  - apply wp_bind, wp_coordsOf. intros _ cs _ _.
    case_decide; [|by apply wp_ret].
    apply wp_bind. eapply wp_mono; [|by apply inv_pointEraseStep].
    simpl. intros st σ1 Hinv1. by apply IH.
Qed.

Lemma inv_capsuleEraseWalk fuel σ e0 e1 path i last :
  walkInv σ0 np σ →
  wp (capsuleEraseWalk eraseRadius fuel e0 e1 path np i last)
     (λ _ σ', walkInv σ0 np σ') σ.
Proof.
  revert σ i last. induction fuel as [|fuel IH]; intros σ i last Hinv; simpl.
  - apply wp_bind, wp_coordsOf. intros _ cs _ _.
    case_decide; [apply wp_outOfFuel|by apply wp_ret].
  - apply wp_bind, wp_coordsOf. intros _ cs _ _.
    case_decide; [|by apply wp_ret].
    apply wp_bind. eapply wp_mono; [|by apply inv_capsuleEraseStep].
    simpl. intros st σ1 Hinv1. by apply IH.
Qed.

End WalkRules.

(** ** The invariant of the passes *)

Section PassRules.

Variable σ0 : Store.
Implicit Types (σ : Store) (l a c : loc) (cs : list Point).

Lemma walkInv_passInv np σ : walkInv σ0 np σ → passInv σ0 σ.
Proof. by intros [? ? _ _ _]. Qed.

Lemma passInv_push σ c :
  passInv σ0 σ → nonEmptyPath σ c →
  passInv σ0 (mkStore (coordArrays σ) (valueArrays σ) (objects σ)
                      (newPaths σ ++ [c])).
Proof.
  intros [Hext Hout] Hc. split; [done|].
  unfold outputsOk in *. simpl. apply Forall_app. split; [done|].
  by apply Forall_singleton.
Qed.

(** The clone a pass starts from, with its coordinates cleared. *)
Lemma inv_newShell {B} σ path (k : loc → M B) (Q : B → Store → Prop) :
  passInv σ0 σ →
  (∀ np σ', walkInv σ0 np σ' → wp (k np) Q σ') →
  wp (np <- createNewPath path ;; clear np ;;; k np) Q σ.
Proof.
  intros [(Ho & Hv & Hc) Hout] H.
  apply wp_bind, wp_createNewPath. intros o cs kvs' va Hobj Hcs.
  apply wp_bind.
  unfold clear. apply wp_bind, wp_getObject. simpl. intros o'.
  rewrite list_lookup_middle by done. intros [= <-]. simpl.
  apply wp_bind, wp_getCoordArray. simpl. intros _ _.
  unfold wp at 1. simpl. apply (H (length (objects σ))).
  assert (∀ a cs1, coordArrays σ !! a = Some cs1 →
            <[length (coordArrays σ) := []]> (coordArrays σ ++ [cs]) !! a = Some cs1)
    as Hold.
  { intros a cs1 Ha. pose proof (lookup_lt_Some _ _ _ Ha).
    rewrite list_lookup_insert_ne by lia. by apply lookup_app_l_Some. }
  split; simpl.
  - split_and!; simpl.
    + intros l o' Hl. by apply lookup_app_l_Some, Ho.
    + intros a vs Ha. by apply lookup_app_l_Some, Hv.
    + intros a cs1 Ha. destruct (Hc _ _ Ha) as (cs2 & H2 & Hl).
      exists cs2. split; [by apply Hold|done].
  - unfold outputsOk in *. simpl. eapply Forall_impl; [exact Hout|].
    intros l (o' & cs1 & Ho' & Hcs1 & Hlen). exists o', cs1. simpl.
    split_and!; [by apply lookup_app_l_Some|by apply Hold|done].
  - destruct (objects σ0 !! length (objects σ)) as [o'|] eqn:E; [|done].
    apply Ho, lookup_lt_Some in E. lia.
  - intros Hin. unfold outputsOk in Hout. rewrite Forall_forall in Hout.
    destruct (Hout _ Hin) as (o' & _ & Ho' & _). apply lookup_lt_Some in Ho'. lia.
  - eexists. split; [by apply list_lookup_middle|]. simpl.
    destruct (coordArrays σ0 !! length (coordArrays σ)) as [cs1|] eqn:E; [|done].
    destruct (Hc _ _ E) as (cs2 & H2 & _). apply lookup_lt_Some in H2. lia.
Qed.

(** The last lines of [pointErase]: the rest of the walked path goes
    into [newPath], which is pushed itself. *)
Lemma inv_pointErase_flush np σ path (st : nat * nat) :
  walkInv σ0 np σ →
  wp (if decide (snd st ≠ fst st) then
        cs <- coordsOf path ;;
        assignCoords np (slice (snd st) (length cs) cs) ;;;
        ncs <- coordsOf np ;;
        if decide (0 < length ncs) then pushNewPath np else ret tt
      else ret tt) (λ _ σ', passInv σ0 σ') σ.
Proof.
  intros Hinv. case_decide; [|by apply wp_ret, (walkInv_passInv np)].
  apply wp_bind, wp_coordsOf. intros _ cs _ _.
  apply wp_bind, (inv_assignCoords σ0 np); [done|]. intros σ1 Hinv1.
  apply wp_bind, inv_coordsOf_shell. intros ncs Hne.
  case_decide; [|by apply wp_ret, (walkInv_passInv np)].
  unfold wp. simpl. apply passInv_push; [by apply (walkInv_passInv np)|auto].
Qed.

(** The last lines of [capsuleErase]: a clone of [newPath] is pushed. *)
Lemma inv_capsuleErase_flush np σ path (st : nat * nat) :
  walkInv σ0 np σ →
  wp (if decide (snd st ≠ fst st) then
        cs <- coordsOf path ;;
        assignCoords np (slice (snd st) (length cs) cs) ;;;
        ncs <- coordsOf np ;;
        if decide (0 < length ncs)
        then c <- createNewPath np ;; pushNewPath c
        else ret tt
      else ret tt) (λ _ σ', passInv σ0 σ') σ.
Proof.
  intros Hinv. case_decide; [|by apply wp_ret, (walkInv_passInv np)].
  apply wp_bind, wp_coordsOf. intros _ cs _ _.
  apply wp_bind, (inv_assignCoords σ0 np); [done|]. intros σ1 Hinv1.
  apply wp_bind, inv_coordsOf_shell. intros ncs Hne.
  case_decide; [|by apply wp_ret, (walkInv_passInv np)].
  apply (inv_emit σ0 np); auto. intros σ2 Hinv2. by apply (walkInv_passInv np).
Qed.

(** A path of a single point that the eraser misses is pushed as it is. *)
Lemma inv_single σ path cs (test : Point → bool) (rest : M unit) :
  passInv σ0 σ →
  (∃ o, objects σ !! path = Some o ∧ coordArrays σ !! coords o = Some cs) →
  wp rest (λ _ σ', passInv σ0 σ') σ →
  wp (single <-
        (if decide (length cs = 1) then
           p <- orThrow (cs !! 0) ;; ret (test p)
         else ret false) ;;
      if (single : bool) then pushNewPath path else rest)
     (λ _ σ', passInv σ0 σ') σ.
Proof.
  intros Hinv (o & Ho & Hcs) Hrest. apply wp_bind.
  case_decide as Hlen.
  - apply wp_bind, wp_orThrow. intros p _. apply wp_ret.
    destruct (test p); [|done].
    unfold wp. simpl. apply passInv_push; [done|].
    exists o, cs. split_and!; [done..|lia].
  - by apply wp_ret.
Qed.

Lemma inv_pointErase erasePath eraseRadius fuel σ path :
  passInv σ0 σ →
  wp (pointErase erasePath eraseRadius fuel path) (λ _ σ', passInv σ0 σ') σ.
Proof.
  intros Hinv. unfold pointErase.
  apply wp_bind, wp_orThrow. intros e _.
  apply wp_bind, wp_coordsOf. intros o cs Ho Hcs.
  apply inv_single; [done|by exists o|].
  apply inv_newShell; [done|]. intros np σ1 Hinv1.
  apply wp_bind. eapply wp_mono; [|by apply (inv_pointEraseWalk σ0 np)].
  simpl. intros st σ2 Hinv2. by apply (inv_pointErase_flush np).
Qed.

Lemma inv_capsuleErase erasePath eraseRadius fuel σ path e :
  passInv σ0 σ →
  wp (capsuleErase erasePath eraseRadius fuel path e) (λ _ σ', passInv σ0 σ') σ.
Proof.
  intros Hinv. unfold capsuleErase.
  apply wp_bind, wp_orThrow. intros e0 _.
  apply wp_bind, wp_orThrow. intros e1 _.
  apply wp_bind, wp_coordsOf. intros o cs Ho Hcs.
  apply inv_single; [done|by exists o|].
  apply inv_newShell; [done|]. intros np σ1 Hinv1.
  apply wp_bind. eapply wp_mono; [|by apply (inv_capsuleEraseWalk σ0 np)].
  simpl. intros st σ2 Hinv2. by apply (inv_capsuleErase_flush np).
Qed.

Lemma inv_forEach (f : loc → M unit) paths σ :
  (∀ p σ1, passInv σ0 σ1 → wp (f p) (λ _ σ', passInv σ0 σ') σ1) →
  passInv σ0 σ →
  wp (forEach f paths) (λ _ σ', passInv σ0 σ') σ.
Proof.
  intros Hf. revert σ. induction paths as [|p paths IH]; intros σ Hinv; simpl.
  - by apply wp_ret.
  - apply wp_bind. eapply wp_mono; [|by apply Hf]. simpl. intros _ σ1. apply IH.
Qed.

Lemma inv_capsuleChain fuel erasePath eraseRadius es paths σ :
  passInv σ0 σ →
  (es = [] → Forall (nonEmptyPath σ) paths) →
  wp (capsuleChain fuel erasePath eraseRadius es paths)
     (λ out σ', extends σ0 σ' ∧ Forall (nonEmptyPath σ') out) σ.
Proof.
  revert paths σ. induction es as [|e es IH]; intros paths σ Hinv Hnil; simpl.
  - apply wp_ret. split; [apply Hinv|by apply Hnil].
  - apply wp_bind.
    eapply wp_mono; [|apply inv_forEach; [|done]].
    2:{ intros p σ1 H1. by apply inv_capsuleErase. }
    simpl. intros _ σ1 [Hext Hout].
    apply wp_bind. unfold wp at 1. simpl.
    apply IH.
    + split; [done|]. by apply Forall_nil.
    + intros _. exact Hout.
Qed.

End PassRules.

Lemma cleanPath_Some_nonempty path c : cleanPath path = Some c → c ≠ [].
Proof.
  intros Hc ->. destruct path as [|p l]; [done|].
  destruct (cleanPath_nonempty (p :: l)) as (c & Hc' & Hne); [done|]. congruence.
Qed.

(** What [erase] leaves behind, whatever it is given. *)
Lemma inv_erase fuel paths erasePath eraseRadius σ :
  wp (erase fuel paths erasePath eraseRadius)
     (λ out σ', extends σ σ' ∧ Forall (nonEmptyPath σ') out) σ.
Proof.
  unfold erase. apply wp_bind. unfold wp at 1. simpl.
  set (σ1 := mkStore _ _ _ _).
  assert (passInv σ σ1) as Hinv.
  { split; [|by apply Forall_nil]. unfold extends. simpl. split_and!; eauto. }
  apply wp_bind, wp_orThrow. intros c Hc.
  case_decide as Hlen.
  - apply wp_bind.
    eapply wp_mono; [|apply (inv_forEach σ); [|done]].
    2:{ intros p σ2 H2. by apply inv_pointErase. }
    simpl. intros _ σ2 [Hext Hout]. by unfold wp.
  - apply inv_capsuleChain; [done|].
    unfold capsuleIndices. intros Hseq.
    apply cleanPath_Some_nonempty in Hc.
    destruct c as [|? [|? c]]; done.
Qed.

(** ** Total correctness *)

Section Returns.

Context {A B : Type}.
Implicit Types (Q : A → Store → Prop) (σ : Store).

Lemma returns_ret Q (a : A) σ : Q a σ → returns (ret a) Q σ.
Proof. done. Qed.

Lemma returns_bind (m : M A) (k : A → M B) (R : B → Store → Prop) σ :
  returns m (λ a σ', returns (k a) R σ') σ → returns (bind m k) R σ.
Proof. unfold returns, bind. by destruct (m σ) as [[a σ']| |]. Qed.

Lemma returns_mono (m : M A) Q Q' σ :
  (∀ a σ', Q a σ' → Q' a σ') → returns m Q σ → returns m Q' σ.
Proof. unfold returns. destruct (m σ) as [[a σ']| |]; auto. Qed.

Lemma returns_orThrow (o : option A) Q σ a :
  o = Some a → Q a σ → returns (orThrow o) Q σ.
Proof. by intros ->. Qed.

Lemma returns_done (m : M A) Q σ :
  returns m Q σ → ∃ a σ', m σ = Done (a, σ') ∧ Q a σ'.
Proof. unfold returns. destruct (m σ) as [[a σ']| |]; [eauto|done..]. Qed.

End Returns.

Section ReturnsRules.

Implicit Types (σ : Store) (l a c : loc) (cs : list Point).

Lemma returns_coordsOf l (Q : list Point → Store → Prop) σ cs :
  pathHas σ l cs → Q cs σ → returns (coordsOf l) Q σ.
Proof.
  intros (o & Ho & Hcs & _) H. unfold coordsOf.
  apply returns_bind. unfold getObject. eapply returns_orThrow; [done|].
  unfold getCoordArray. by eapply returns_orThrow.
Qed.

Lemma attrsValid_app vas va kvs :
  attrsValid vas kvs → attrsValid (vas ++ va) kvs.
Proof.
  unfold attrsValid. intros Hall. eapply Forall_impl; [exact Hall|].
  intros [key v] H. simpl in *.
  destruct v; try done. destruct H as [vs H]. exists vs. by apply lookup_app_l_Some.
Qed.

Lemma returns_copyAttrs kvs (Q : list (string * Value) → Store → Prop) σ :
  attrsValid (valueArrays σ) kvs →
  (∀ kvs' va, attrsValid (valueArrays σ ++ va) kvs' →
              Q kvs' (mkStore (coordArrays σ) (valueArrays σ ++ va)
                              (objects σ) (newPaths σ)))
  → returns (copyAttrs kvs) Q σ.
Proof.
  revert Q σ. induction kvs as [|[key v] kvs IH]; intros Q σ Hv H.
  - simpl. apply returns_ret. specialize (H [] []).
    rewrite app_nil_r, <- store_eta in H. apply H. by apply Forall_nil.
  - apply Forall_cons in Hv as [Hv1 Hv].
    destruct v; simpl; try by apply IH.
    + apply returns_bind, IH; [done|]. intros kvs' va Hk. apply returns_ret, H.
      by apply Forall_cons.
    + simpl in Hv1. destruct Hv1 as [vs Hvs].
      apply returns_bind. unfold getValueArray. eapply returns_orThrow; [done|].
      apply returns_bind. unfold returns at 1. simpl.
      apply returns_bind, IH; simpl; [by apply attrsValid_app|].
      intros kvs' va Hk. apply returns_ret.
      rewrite <- app_assoc in Hk |- *. apply H.
      apply Forall_cons. split; [|done]. simpl.
      exists vs. by apply list_lookup_middle.
Qed.

Lemma returns_createNewPath l cs (Q : loc → Store → Prop) σ :
  pathHas σ l cs →
  (∀ kvs' va,
      attrsValid (valueArrays σ ++ va) kvs' →
      Q (length (objects σ))
        (mkStore (coordArrays σ ++ [cs]) (valueArrays σ ++ va)
                 (objects σ ++ [mkPath kvs' (length (coordArrays σ))])
                 (newPaths σ)))
  → returns (createNewPath l) Q σ.
Proof.
  intros (o & Ho & Hcs & Hv) H. unfold createNewPath.
  apply returns_bind. unfold getObject. eapply returns_orThrow; [done|].
  apply returns_bind, returns_copyAttrs; [done|]. intros kvs' va Hk.
  apply returns_bind. unfold getCoordArray. eapply returns_orThrow; [done|].
  apply returns_bind. unfold returns at 1. simpl.
  unfold returns. simpl. by apply H.
Qed.

Lemma grows_refl σ : grows σ σ.
Proof. exists [], [], []. by rewrite !app_nil_r. Qed.

Lemma grows_trans σ1 σ2 σ3 : grows σ1 σ2 → grows σ2 σ3 → grows σ1 σ3.
Proof.
  intros (ca & va & oa & Hc & Hv & Ho) (ca' & va' & oa' & Hc' & Hv' & Ho').
  exists (ca ++ ca'), (va ++ va'), (oa ++ oa').
  rewrite Hc', Hv', Ho', Hc, Hv, Ho. by rewrite !app_assoc.
Qed.

Lemma pathHas_grows σ σ' l cs : grows σ σ' → pathHas σ l cs → pathHas σ' l cs.
Proof.
  intros (ca & va & oa & Hc & Hv & Ho) (o & Hobj & Hcs & Hval).
  exists o. rewrite Hc, Hv, Ho.
  split_and!; [by apply lookup_app_l_Some..|by apply attrsValid_app].
Qed.

End ReturnsRules.

(** ** A path that stays away from the eraser is copied as it is *)

Section NoCrossing.

Implicit Types (σ : Store) (l a c : loc) (cs : list Point) (e p q : Point).

Lemma getCircleIntersections_clear p0 p1 e r :
  segmentClearOfCircle p0 p1 e r →
  getCircleIntersections (x p0) (y p0) (x p1) (y p1) (x e) (y e) r = None.
Proof.
  unfold segmentClearOfCircle, getCircleIntersections. cbv zeta.
  by intros ->.
Qed.

Lemma getCapsuleIntersections_clear p0 p1 e0 e1 r :
  isNumber p1 = true →
  segmentClearOfCapsule p0 p1 e0 e1 r →
  getCapsuleIntersections (x p0) (y p0) (x p1) (y p1)
                          (x e0) (y e0) (x e1) (y e1) r = None.
Proof.
  intros Hnum (H0 & H1 & Htop & Hbot).
  unfold getCapsuleIntersections. cbv zeta.
  rewrite (getCircleIntersections_clear _ _ _ _ H0),
    (getCircleIntersections_clear _ _ _ _ H1), Htop, Hbot.
  simpl. unfold isNumber in Hnum. by rewrite Hnum.
Qed.

Lemma insert_snoc {T} (k : list T) (u v : T) : <[length k := v]> (k ++ [u]) = k ++ [v].
Proof. by rewrite insert_app_r_alt, Nat.sub_diag by lia. Qed.

Lemma slice_all {T} (k : list T) : slice 0 (length k) k = k.
Proof. unfold slice. by rewrite Nat.sub_0_r, drop_0, take_ge by lia. Qed.

Lemma pathHas_lookups σ l cs i :
  pathHas σ l cs → i < length cs → ∃ p, cs !! i = Some p ∧ p ∈ cs.
Proof.
  intros _ Hi. destruct (lookup_lt_is_Some_2 cs i Hi) as [p Hp].
  exists p. split; [done|]. by eapply list_elem_of_lookup_2.
Qed.

Section Point.

Variables (e : Point) (r : float).



End Point.

Section Capsule.

Variables (e0 e1 : Point) (r : float).

Lemma returns_capsuleEraseStep_clear σ path np cs i last
      (Q : nat * nat → Store → Prop) :
  pathHas σ path cs → awayFromCapsule e0 e1 r cs → i + 1 < length cs →
  Q (i + 1, last) σ →
  returns (capsuleEraseStep r e0 e1 path np i last) Q σ.
Proof.
  intros Hp [Hout Hseg] Hi HQ. unfold capsuleEraseStep.
  destruct (pathHas_lookups σ path cs i) as (p0 & Hp0 & Hin0); [done|lia|].
  destruct (pathHas_lookups σ path cs (i + 1)) as (p1 & Hp1 & Hin1); [done..|].
  rewrite Forall_forall in Hout.
  apply returns_bind. eapply returns_coordsOf; [done|].
  apply returns_bind. eapply returns_orThrow; [done|].
  apply returns_bind. eapply returns_orThrow; [done|].
  destruct (Hout _ Hin0) as [_ ->]. destruct (Hout _ Hin1) as [Hnum ->]. simpl.
  rewrite (getCapsuleIntersections_clear _ _ _ _ _ Hnum (Hseg _ _ _ Hp0 Hp1)).
  by apply returns_ret.
Qed.

Lemma returns_capsuleEraseWalk_clear fuel σ path np cs i last
      (Q : nat * nat → Store → Prop) :
  pathHas σ path cs → awayFromCapsule e0 e1 r cs →
  i + 1 ≤ length cs → length cs ≤ fuel + i + 1 →
  Q (length cs - 1, last) σ →
  returns (capsuleEraseWalk r fuel e0 e1 path np i last) Q σ.
Proof.
  revert i. induction fuel as [|fuel IH]; intros i Hp Haway Hi Hfuel HQ; simpl.
  - apply returns_bind. eapply returns_coordsOf; [done|].
    rewrite decide_False by lia. apply returns_ret.
    by replace i with (length cs - 1) by lia.
  - apply returns_bind. eapply returns_coordsOf; [done|].
    case_decide.
    + apply returns_bind. eapply returns_capsuleEraseStep_clear; [done..|].
      simpl. apply IH; [done..|lia|lia|done].
    + apply returns_ret. by replace i with (length cs - 1) by lia.
Qed.

End Capsule.

(** The clone a pass starts from, with its coordinates cleared. *)
Lemma returns_newShell {B} σ path cs (k : loc → M B) (Q : B → Store → Prop) :
  pathHas σ path cs →
  (∀ kvs' va,
      attrsValid (valueArrays σ ++ va) kvs' →
      returns (k (length (objects σ))) Q
              (mkStore (coordArrays σ ++ [[]]) (valueArrays σ ++ va)
                       (objects σ ++ [mkPath kvs' (length (coordArrays σ))])
                       (newPaths σ)))
  → returns (np <- createNewPath path ;; clear np ;;; k np) Q σ.
Proof.
  intros Hp H. apply returns_bind. eapply returns_createNewPath; [done|].
  intros kvs' va Hk. apply returns_bind. unfold clear.
  apply returns_bind. unfold getObject. simpl.
  eapply returns_orThrow; [by apply list_lookup_middle|]. simpl.
  apply returns_bind. unfold getCoordArray. simpl.
  eapply returns_orThrow; [by apply list_lookup_middle|].
  unfold returns at 1. simpl. rewrite insert_snoc. by apply H.
Qed.

(** [newPath.coords = path.coords.slice(0, path.coords.length)] on the
    clone, which is the last object of the store. *)
Lemma returns_fill σ cs kvs a (Q : unit → Store → Prop) objs :
  objects σ = objs ++ [mkPath kvs a] →
  Q tt (mkStore (coordArrays σ ++ [cs]) (valueArrays σ)
                (objs ++ [mkPath kvs (length (coordArrays σ))]) (newPaths σ))
  → returns (assignCoords (length objs) (slice 0 (length cs) cs)) Q σ.
Proof.
  intros Ho H. unfold assignCoords.
  apply returns_bind. unfold returns at 1. simpl.
  apply returns_bind. unfold getObject. simpl. rewrite Ho.
  eapply returns_orThrow; [by apply list_lookup_middle|].
  unfold returns. simpl. by rewrite insert_snoc, slice_all.
Qed.

Lemma copied_single σ path cs :
  pathHas σ path cs →
  copied σ cs tt (mkStore (coordArrays σ) (valueArrays σ) (objects σ)
                          (newPaths σ ++ [path])).
Proof.
  intros Hp. split; [exists [], [], []; simpl; by rewrite !app_nil_r|].
  by exists path.
Qed.


Lemma capsuleErase_clear erasePath k e0 e1 r fuel σ path cs :
  erasePath !! k = Some e0 → erasePath !! (k + 1) = Some e1 →
  pathHas σ path cs → cs ≠ [] → awayFromCapsule e0 e1 r cs → length cs ≤ fuel →
  returns (capsuleErase erasePath r fuel path k) (copied σ cs) σ.
Proof.
  intros He0 He1 Hp Hne Haway Hfuel. unfold capsuleErase.
  apply returns_bind. eapply returns_orThrow; [done|].
  apply returns_bind. eapply returns_orThrow; [done|].
  apply returns_bind. eapply returns_coordsOf; [done|].
  apply returns_bind. case_decide as Hlen.
  - destruct cs as [|p [|??]]; try done.
    destruct Haway as [Hout _]. apply Forall_cons in Hout as [[_ Hw] _].
    unfold returns, bind. simpl. rewrite Hw. simpl. by apply copied_single.
  - apply returns_ret. eapply returns_newShell; [done|]. intros kvs' va Hk.
    set (σ1 := mkStore _ _ _ _).
    assert (grows σ σ1) as Hg by (by exists [[]], va, [mkPath kvs' (length (coordArrays σ))]).
    apply returns_bind.
    eapply (returns_capsuleEraseWalk_clear e0 e1 r fuel σ1 path _ cs 0 0);
      [by eapply pathHas_grows|done|destruct cs; simpl; [done|lia]|lia|].
    simpl. rewrite decide_True by (destruct cs as [|? [|??]]; simpl in *; done || lia).
    apply returns_bind. eapply returns_coordsOf; [by eapply pathHas_grows|].
    apply returns_bind. eapply returns_fill; [done|]. simpl.
    set (σ2 := mkStore _ _ _ _).
    assert (pathHas σ2 (length (objects σ)) cs) as Hnew.
    { eexists. simpl. split_and!; [by apply list_lookup_middle| |done].
      simpl. apply list_lookup_middle. by rewrite length_app, Nat.add_1_r. }
    apply returns_bind. eapply returns_coordsOf; [done|].
    rewrite decide_True by (destruct cs; simpl; [done|lia]).
    apply returns_bind. eapply returns_createNewPath; [done|].
    intros kvs'' va' Hk'. unfold returns. simpl. split.
    + eexists [[]; cs; cs], (va ++ va'), [_; _]. simpl.
      by rewrite <- !app_assoc.
    + eexists. split; [done|]. eexists. simpl.
      split_and!; [by apply list_lookup_middle| |done].
      simpl. apply list_lookup_middle. by rewrite !length_app.
Qed.

Lemma pathHas_newPaths σ l cs nps :
  pathHas σ l cs →
  pathHas (mkStore (coordArrays σ) (valueArrays σ) (objects σ) nps) l cs.
Proof. done. Qed.

Lemma forEach_clear (f : loc → M unit) (P : list Point → Prop) paths css σ :
  (∀ σ1 l cs, pathHas σ1 l cs → P cs → returns (f l) (copied σ1 cs) σ1) →
  Forall2 (pathHas σ) paths css → Forall P css →
  returns (forEach f paths)
          (λ _ σ', grows σ σ'
                   ∧ ∃ outs, newPaths σ' = newPaths σ ++ outs
                             ∧ Forall2 (pathHas σ') outs css) σ.
Proof.
  intros Hf. revert σ css.
  induction paths as [|p paths IH]; intros σ css H2 HP.
  - apply Forall2_nil_inv_l in H2 as ->. simpl. apply returns_ret.
    split; [apply grows_refl|]. exists []. by rewrite app_nil_r.
  - apply Forall2_cons_inv_l in H2 as (cs & css' & Hp & H2 & ->).
    apply Forall_cons in HP as [HPcs HP]. simpl.
    apply returns_bind. eapply returns_mono; [|by apply Hf].
    simpl. intros _ σ1 (Hg & l' & Hnp & Hl').
    eapply returns_mono; [|apply IH; [|done]].
    2:{ eapply Forall2_impl; [exact H2|]. intros ??. by apply pathHas_grows. }
    simpl. intros _ σ2 (Hg' & outs & Hnp' & Houts).
    split; [by eapply grows_trans|].
    exists (l' :: outs). split.
    + rewrite Hnp', Hnp. by rewrite <- app_assoc.
    + apply Forall2_cons. split; [by eapply pathHas_grows|done].
Qed.



End NoCrossing.

(** ** A walk that never ends *)

(** Lookups in a store that was grown and updated at known places. *)
Ltac lookup_tac :=
  simpl;
  repeat first
    [ eassumption
    | apply list_lookup_middle; reflexivity
    | rewrite list_lookup_insert_eq
        by (repeat (rewrite length_insert || rewrite length_app); simpl; lia);
      reflexivity
    | rewrite list_lookup_insert_ne by (lia || congruence)
    | apply lookup_app_l_Some ].

Section Stuck.

Implicit Types (σ : Store) (l : loc) (cs : list Point).

Lemma returns_assignCoords l o cs (Q : unit → Store → Prop) σ :
  objects σ !! l = Some o →
  Q tt (mkStore (coordArrays σ ++ [cs]) (valueArrays σ)
                (<[l := mkPath (attrs o) (length (coordArrays σ))]> (objects σ))
                (newPaths σ))
  → returns (assignCoords l cs) Q σ.
Proof.
  intros Ho H. unfold assignCoords.
  apply returns_bind. unfold returns at 1. simpl.
  apply returns_bind. unfold getObject. simpl.
  by eapply returns_orThrow.
Qed.

Lemma returns_pushCoord l o cs p (Q : unit → Store → Prop) σ :
  objects σ !! l = Some o → coordArrays σ !! coords o = Some cs →
  Q tt (mkStore (<[coords o := cs ++ [p]]> (coordArrays σ)) (valueArrays σ)
                (objects σ) (newPaths σ))
  → returns (pushCoord l p) Q σ.
Proof.
  intros Ho Hcs H. unfold pushCoord.
  apply returns_bind. unfold getObject. eapply returns_orThrow; [done|].
  apply returns_bind. unfold getCoordArray. by eapply returns_orThrow.
Qed.

Lemma returns_writeCoord l o cs i p (Q : unit → Store → Prop) σ :
  objects σ !! l = Some o → coordArrays σ !! coords o = Some cs →
  i < length cs →
  Q tt (mkStore (<[coords o := <[i := p]> cs]> (coordArrays σ)) (valueArrays σ)
                (objects σ) (newPaths σ))
  → returns (writeCoord l i p) Q σ.
Proof.
  intros Ho Hcs Hi H. unfold writeCoord.
  apply returns_bind. unfold getObject. eapply returns_orThrow; [done|].
  apply returns_bind. unfold getCoordArray. eapply returns_orThrow; [done|].
  by rewrite decide_True.
Qed.

Lemma grazing_nan_outside :
  withinCircle (x nanPoint) (y nanPoint) (x grazingEraser) (y grazingEraser) 1 = false.
Proof. by vm_compute. Qed.

Lemma grazing_end_outside :
  withinCircle (x grazingEnd) (y grazingEnd) (x grazingEraser) (y grazingEraser) 1 = false.
Proof. by vm_compute. Qed.

(** On the grazing segment the double-crossing routine passes its distance
    test and answers with two [NaN] points. *)
Lemma grazing_first_crossings :
  getCircleIntersections 4.6 17.8 (x grazingEnd) (y grazingEnd)
                         (x grazingEraser) (y grazingEraser) 1
  = Some (nanPoint, nanPoint).
Proof. by vm_compute. Qed.

(** Once a coordinate is [NaN] the double-crossing routine answers with
    two [NaN] points. *)
Lemma grazing_nan_crossings :
  getCircleIntersections (x nanPoint) (y nanPoint) (x grazingEnd) (y grazingEnd)
                         (x grazingEraser) (y grazingEraser) 1
  = Some (nanPoint, nanPoint).
Proof. by vm_compute. Qed.

Lemma returns_coordsOf_obj l o cs (Q : list Point → Store → Prop) σ :
  objects σ !! l = Some o → coordArrays σ !! coords o = Some cs →
  Q cs σ → returns (coordsOf l) Q σ.
Proof.
  intros Ho Hcs H. unfold coordsOf.
  apply returns_bind. unfold getObject. eapply returns_orThrow; [done|].
  unfold getCoordArray. by eapply returns_orThrow.
Qed.

Lemma nan_differs_from_itself : diffPoint nanPoint nanPoint = true.
Proof. by vm_compute. Qed.


Variables path np : loc.

(** A stuck walk takes a turn, emits a path, and is stuck again with the
    same cursors. *)
Lemma stuck_step σ :
  stuck path np σ →
  returns (pointEraseStep 1 (x grazingEraser) (y grazingEraser) path np 0 0)
          (λ st σ', st = (0, 0) ∧ stuck path np σ') σ.
Proof.
  intros (op & on & csn & Hop & Hon & Hne & Hca & Hcp & Hcn & Hval).
  pose proof (lookup_lt_Some _ _ _ Hcp) as Hltp.
  pose proof (lookup_lt_Some _ _ _ Hcn) as Hltn.
  pose proof (lookup_lt_Some _ _ _ Hon) as Hlto.
  unfold pointEraseStep.
  apply returns_bind. eapply returns_coordsOf_obj; [done..|].
  apply returns_bind. eapply returns_orThrow; [done|].
  apply returns_bind. eapply returns_orThrow; [done|].
  rewrite grazing_nan_outside, grazing_end_outside, grazing_nan_crossings.
  simpl.
  apply returns_bind. eapply returns_assignCoords; [done|].
  apply returns_bind. eapply returns_coordsOf_obj; [lookup_tac..|].
  apply returns_bind. eapply returns_orThrow; [done|].
  rewrite nan_differs_from_itself.
  apply returns_bind. eapply returns_pushCoord; [lookup_tac..|].
  apply returns_bind. eapply returns_coordsOf_obj; [lookup_tac..|].
  simpl.
  apply returns_bind, returns_bind.
  eapply (returns_createNewPath np [nanPoint; nanPoint]).
  { eexists. split_and!; [lookup_tac..|done]. }
  simpl. intros kvs' va Hk.
  unfold returns at 1. simpl.
  apply returns_bind. eapply returns_writeCoord; [lookup_tac..|simpl; lia|].
  simpl.
  apply returns_bind. eapply returns_coordsOf_obj; [lookup_tac..|].
  simpl. apply returns_ret.
  split; [done|].
  eexists op, _, _. simpl. split_and!; [lookup_tac..|].
  - lia.
  - by apply attrsValid_app.
Qed.

Lemma coordsOf_eq l o cs σ :
  objects σ !! l = Some o → coordArrays σ !! coords o = Some cs →
  coordsOf l σ = Done (cs, σ).
Proof.
  intros Ho Hcs. unfold coordsOf, bind, getObject, getCoordArray.
  rewrite Ho. simpl. by rewrite Hcs.
Qed.

(** A stuck walk uses up whatever fuel it is given. *)
Lemma stuck_forever fuel σ :
  stuck path np σ →
  pointEraseWalk 1 fuel (x grazingEraser) (y grazingEraser) path np 0 0 σ = OutOfFuel.
Proof.
  revert σ. induction fuel as [|fuel IH]; intros σ Hst.
  - destruct Hst as (op & on & csn & Hop & Hon & Hne & Hca & Hcp & Hcn & Hval).
    simpl. unfold bind. by rewrite (coordsOf_eq _ _ _ _ Hop Hcp).
  - pose proof (stuck_step σ Hst) as Hstep.
    destruct Hst as (op & on & csn & Hop & Hon & Hne & Hca & Hcp & Hcn & Hval).
    simpl. unfold bind at 1. rewrite (coordsOf_eq _ _ _ _ Hop Hcp). simpl.
    unfold bind at 1. unfold returns in Hstep.
    destruct (pointEraseStep _ _ _ _ _ _ _ σ) as [[st σ']| |]; [|done..].
    destruct Hstep as [-> Hst']. by apply IH.
Qed.

End Stuck.

Lemma grazing_first_turn :
  pointEraseStep 1 (x grazingEraser) (y grazingEraser) 0 1 0 0 grazingShell
  = Done ((0, 0), grazingStuck).
Proof. by vm_compute. Qed.

Lemma grazing_stuck : stuck 0 1 grazingStuck.
Proof.
  eexists _, _, _. split_and!; try (by vm_compute).
  simpl. by repeat constructor.
Qed.

Lemma grazing_walk fuel :
  pointEraseWalk 1 fuel (x grazingEraser) (y grazingEraser) 0 1 0 0 grazingShell
  = OutOfFuel.
Proof.
  destruct fuel as [|fuel]; [by vm_compute|].
  change (pointEraseWalk 1 (S fuel) (x grazingEraser) (y grazingEraser) 0 1 0 0 grazingShell)
    with (match pointEraseStep 1 (x grazingEraser) (y grazingEraser) 0 1 0 0 grazingShell with
          | Done (st, σ') =>
              pointEraseWalk 1 fuel (x grazingEraser) (y grazingEraser) 0 1 st.1 st.2 σ'
          | Throw => Throw
          | OutOfFuel => OutOfFuel
          end).
  rewrite grazing_first_turn. apply stuck_forever, grazing_stuck.
Qed.

Lemma grazing_pointErase fuel :
  pointErase [grazingEraser] 1 fuel 0 grazingStore = OutOfFuel.
Proof.
  change (pointErase [grazingEraser] 1 fuel 0 grazingStore)
    with (match pointEraseWalk 1 fuel (x grazingEraser) (y grazingEraser) 0 1 0 0
                               grazingShell with
          | Done (st, σ') =>
              (if decide (st.2 ≠ st.1) then
                 cs <- coordsOf 0 ;;
                 assignCoords 1 (slice st.2 (length cs) cs) ;;;
                 ncs <- coordsOf 1 ;;
                 if decide (0 < length ncs) then pushNewPath 1 else ret tt
               else ret tt) σ'
          | Throw => Throw
          | OutOfFuel => OutOfFuel
          end).
  by rewrite grazing_walk.
Qed.

(** ** More fuel does not change a result *)

Section Fuel.

Lemma refines_refl {A} (m : M A) : refines m m.
Proof. by intros σ r. Qed.

Lemma refines_bind {A B} (m m' : M A) (k k' : A → M B) :
  refines m m' → (∀ a, refines (k a) (k' a)) → refines (bind m k) (bind m' k').
Proof.
  intros Hm Hk σ r. unfold bind.
  destruct (m σ) as [[a σ1]| |] eqn:E; [|done..].
  rewrite (Hm _ _ E). apply Hk.
Qed.

Lemma pointEraseWalk_fuel r fuel fuel' eX eY path np i last :
  fuel ≤ fuel' →
  refines (pointEraseWalk r fuel eX eY path np i last)
          (pointEraseWalk r fuel' eX eY path np i last).
Proof.
  revert fuel' i last. induction fuel as [|fuel IH]; intros fuel' i last Hle.
  - destruct fuel'; simpl; apply refines_bind; [apply refines_refl| |apply refines_refl|];
      intros cs; case_decide; try apply refines_refl; by intros σ res.
  - destruct fuel' as [|fuel']; [lia|]. simpl.
    apply refines_bind; [apply refines_refl|]. intros cs.
    case_decide; [|apply refines_refl].
    apply refines_bind; [apply refines_refl|]. intros st. apply IH. lia.
Qed.

Lemma capsuleEraseWalk_fuel r fuel fuel' e0 e1 path np i last :
  fuel ≤ fuel' →
  refines (capsuleEraseWalk r fuel e0 e1 path np i last)
          (capsuleEraseWalk r fuel' e0 e1 path np i last).
Proof.
  revert fuel' i last. induction fuel as [|fuel IH]; intros fuel' i last Hle.
  - destruct fuel'; simpl; apply refines_bind; [apply refines_refl| |apply refines_refl|];
      intros cs; case_decide; try apply refines_refl; by intros σ res.
  - destruct fuel' as [|fuel']; [lia|]. simpl.
    apply refines_bind; [apply refines_refl|]. intros cs.
    case_decide; [|apply refines_refl].
    apply refines_bind; [apply refines_refl|]. intros st. apply IH. lia.
Qed.

Lemma pointErase_fuel erasePath r fuel fuel' path :
  fuel ≤ fuel' →
  refines (pointErase erasePath r fuel path) (pointErase erasePath r fuel' path).
Proof.
  intros Hle. unfold pointErase.
  apply refines_bind; [apply refines_refl|]. intros e.
  apply refines_bind; [apply refines_refl|]. intros cs.
  apply refines_bind; [apply refines_refl|]. intros [|]; [apply refines_refl|].
  apply refines_bind; [apply refines_refl|]. intros np.
  apply refines_bind; [apply refines_refl|]. intros _.
  apply refines_bind; [by apply pointEraseWalk_fuel|]. intros st. apply refines_refl.
Qed.

Lemma capsuleErase_fuel erasePath r fuel fuel' path e :
  fuel ≤ fuel' →
  refines (capsuleErase erasePath r fuel path e) (capsuleErase erasePath r fuel' path e).
Proof.
  intros Hle. unfold capsuleErase.
  apply refines_bind; [apply refines_refl|]. intros e0.
  apply refines_bind; [apply refines_refl|]. intros e1.
  apply refines_bind; [apply refines_refl|]. intros cs.
  apply refines_bind; [apply refines_refl|]. intros [|]; [apply refines_refl|].
  apply refines_bind; [apply refines_refl|]. intros np.
  apply refines_bind; [apply refines_refl|]. intros _.
  apply refines_bind; [by apply capsuleEraseWalk_fuel|]. intros st. apply refines_refl.
Qed.

Lemma forEach_refines (f f' : loc → M unit) paths :
  (∀ p, refines (f p) (f' p)) → refines (forEach f paths) (forEach f' paths).
Proof.
  intros Hf. induction paths as [|p paths IH]; simpl; [apply refines_refl|].
  apply refines_bind; [apply Hf|]. by intros _.
Qed.

Lemma capsuleChain_fuel fuel fuel' erasePath r es paths :
  fuel ≤ fuel' →
  refines (capsuleChain fuel erasePath r es paths)
          (capsuleChain fuel' erasePath r es paths).
Proof.
  intros Hle. revert paths. induction es as [|e es IH]; intros paths; simpl.
  - apply refines_refl.
  - apply refines_bind.
    + apply forEach_refines. intros p. by apply capsuleErase_fuel.
    + intros _. apply refines_bind; [apply refines_refl|]. intros paths'. apply IH.
Qed.

(** A result of [erase] does not depend on the fuel it was found with. *)
Lemma erase_fuel fuel fuel' paths erasePath eraseRadius :
  fuel ≤ fuel' →
  refines (erase fuel paths erasePath eraseRadius)
          (erase fuel' paths erasePath eraseRadius).
Proof.
  intros Hle. unfold erase.
  apply refines_bind; [apply refines_refl|]. intros _.
  apply refines_bind; [apply refines_refl|]. intros c.
  case_decide.
  - apply refines_bind; [|intros _; apply refines_refl].
    apply forEach_refines. intros p. by apply pointErase_fuel.
  - by apply capsuleChain_fuel.
Qed.

End Fuel.

(** * The claims *)


Lemma nonEmptyPath_coordsIn σ l :
  nonEmptyPath σ l → ∃ cs, coordsIn σ l = Some cs ∧ 1 ≤ length cs.
Proof.
  intros (o & cs & Ho & Hcs & Hlen). exists cs. unfold coordsIn.
  rewrite Ho. simpl. split; [done|lia].
Qed.

(** C1, as the specification states it, fails: [erase] on the path from
    (0,0) to (100,100) with the eraser at (50,50) and radius 10 returns, and
    the [coords] of the caller's own path object no longer starts at (0,0):
    the second crossing point was written over it. *)
Lemma erase_overwrites_caller_coords :
  erase 2 [0] [pt 50 50] (Some 10%float) diagonalStore = Done ([2; 1], diagonalAfter)
  ∧ coordsIn diagonalStore 0 = Some [pt 0 0; pt 100 100]
  ∧ coordsIn diagonalAfter 0 = Some [crossingHigh; pt 100 100]
  ∧ coordsIn diagonalAfter 0 ≠ coordsIn diagonalStore 0.
Proof.
  split_and!; [by vm_compute..|].
  intros H. apply (f_equal (λ o, match o with
                               | Some (p :: _) => PrimFloat.eqb (x p) 0
                               | _ => true
                               end)) in H.
  by vm_compute in H.
Qed.

(** C1, amended: whatever [erase] is given, when it returns every path
    object of the caller is as it was (same attributes, same [coords]
    array), every array held by an attribute is as it was, and every array
    of points of the caller has the length it had; only slots of the
    caller's arrays of points may hold other points. *)
Theorem erase_frame fuel paths erasePath eraseRadius σ out σ' :
  erase fuel paths erasePath eraseRadius σ = Done (out, σ') → extends σ σ'.
Proof.
  intros H. pose proof (inv_erase fuel paths erasePath eraseRadius σ) as Hwp.
  by destruct (wp_done _ _ _ _ _ Hwp H).
Qed.

(** [erase_frame] on the diagonal path. *)
Lemma erase_frame_witness : extends diagonalStore diagonalAfter.
Proof.
  apply (erase_frame 2 [0] [pt 50 50] (Some 10%float) diagonalStore [2; 1] diagonalAfter).
  by vm_compute.
Defined.

(** C2 fails on the code: on the path [{stroke: "#000000", width: 2,
    dash: [[5, 3]]}] cut in two by the eraser, neither sub-path has the
    attribute [width], and the two [dash] arrays, though different arrays,
    hold the same inner array, which is the inner array of the source: a
    write through the first sub-path shows through the second and through
    the source. *)
Theorem emitted_paths_drop_and_share_attributes :
  erase 2 [0] [pt 50 50] (Some 10%float) styledStore = Done ([2; 1], styledAfter)
  ∧ attrOf styledStore 0 "width" = Some (VNum 2)
  ∧ attrOf styledAfter 2 "width" = None
  ∧ attrOf styledAfter 1 "width" = None
  ∧ attrOf styledAfter 2 "dash" = Some (VArr 3)
  ∧ attrOf styledAfter 1 "dash" = Some (VArr 2)
  ∧ innerArrayOf styledAfter 2 "dash" = Some 1
  ∧ innerArrayOf styledAfter 1 "dash" = Some 1
  ∧ innerArrayOf styledStore 0 "dash" = Some 1
  ∧ innerValuesOf styledAfter 1 "dash" = Some [VNum 5; VNum 3]
  ∧ innerValuesOf (setValueSlot 1 0 (VNum 9) styledAfter) 1 "dash"
    = Some [VNum 9; VNum 3].
Proof. split_and!; by vm_compute. Qed.

(** C3 fails on the code: on the trail (0,0), (0,0), (1,1), (0,0) the
    reference deduplication keeps (0,0), (1,1), (0,0), and [cleanPath]
    returns (0,0), (1,1): its last test compares the last point with
    [path[cleaned.length - 1]], here the second point of the input, and
    leaves the last point out. *)
Theorem cleanPath_drops_returning_point :
  cleanPath returningTrail = Some [pt 0 0; pt 1 1]
  ∧ dedupConsecutive returningTrail = [pt 0 0; pt 1 1; pt 0 0].
Proof. split; by vm_compute. Qed.

(** In the branch of [pointErase] where [p0] is outside, [p1] is inside
    and no crossing is found, both cursors move to [p1]. *)
Lemma pointEraseStep_no_crossing r eX eY path np i last σ o cs p0 p1 :
  objects σ !! path = Some o → coordArrays σ !! coords o = Some cs →
  cs !! i = Some p0 → cs !! (i + 1) = Some p1 →
  withinCircle (x p0) (y p0) eX eY r = false →
  withinCircle (x p1) (y p1) eX eY r = true →
  getCircleIntersection (x p1) (y p1) (x p0) (y p0) eX eY r = None →
  pointEraseStep r eX eY path np i last σ = Done ((i + 1, i + 1), σ).
Proof.
  intros Ho Hcs H0 H1 Hw0 Hw1 Hx. unfold pointEraseStep.
  unfold bind at 1. rewrite (coordsOf_eq _ _ _ _ Ho Hcs).
  unfold bind, orThrow. rewrite H0, H1. simpl.
  by rewrite Hw0, Hw1, Hx.
Qed.

(** In the same branch of [capsuleErase] only [i] moves. *)
Lemma capsuleEraseStep_no_crossing r e0 e1 path np i last σ o cs p0 p1 :
  objects σ !! path = Some o → coordArrays σ !! coords o = Some cs →
  cs !! i = Some p0 → cs !! (i + 1) = Some p1 →
  hasOne (withinCapsule (x p0) (y p0) (x e0) (y e0) (x e1) (y e1) r) = false →
  hasOne (withinCapsule (x p1) (y p1) (x e0) (y e0) (x e1) (y e1) r) = true →
  getCapsuleIntersection (x p1) (y p1)
    (withinCapsule (x p1) (y p1) (x e0) (y e0) (x e1) (y e1) r)
    (x p0) (y p0) (x e0) (y e0) (x e1) (y e1) r = None →
  capsuleEraseStep r e0 e1 path np i last σ = Done ((i + 1, last), σ).
Proof.
  intros Ho Hcs H0 H1 Hw0 Hw1 Hx. unfold capsuleEraseStep.
  unfold bind at 1. rewrite (coordsOf_eq _ _ _ _ Ho Hcs).
  unfold bind, orThrow. rewrite H0, H1. simpl.
  by rewrite Hw0, Hw1, Hx.
Qed.

(** C4 fails on the code: on the path from (3, 5) to a point just inside
    the unit circle around the origin, both passes are in the branch "[p0]
    outside, [p1] inside" and find no crossing.  [pointErase] moves both
    cursors to [p1] and the path is gone from the result; [capsuleErase],
    for the capsule from the origin to (-10, 0), moves [i] only, [last]
    stays at [p0], and the whole path, erased point included, is in the
    result. *)
Theorem capsule_pass_keeps_cursor :
  withinCircle 3 5 0 0 1 = false
  ∧ withinCircle (x barelyInside) (y barelyInside) 0 0 1 = true
  ∧ getCircleIntersection (x barelyInside) (y barelyInside) 3 5 0 0 1 = None
  ∧ hasOne (withinCapsule 3 5 0 0 (-10) 0 1) = false
  ∧ hasOne (withinCapsule (x barelyInside) (y barelyInside) 0 0 (-10) 0 1) = true
  ∧ getCapsuleIntersection (x barelyInside) (y barelyInside)
      (withinCapsule (x barelyInside) (y barelyInside) 0 0 (-10) 0 1)
      3 5 0 0 (-10) 0 1 = None
  ∧ pointEraseStep 1 0 0 0 1 0 0 barelyShell = Done ((1, 1), barelyShell)
  ∧ capsuleEraseStep 1 (pt 0 0) (pt (-10) 0) 0 1 0 0 barelyShell
    = Done ((1, 0), barelyShell)
  ∧ erase 1 [0] [pt 0 0] (Some 1%float) barelyStore = Done ([], barelyShell)
  ∧ erase 1 [0] [pt 0 0; pt (-10) 0] (Some 1%float) barelyStore
    = Done ([2], barelyAfterCapsule)
  ∧ coordsIn barelyAfterCapsule 2 = Some [pt 3 5; barelyInside].
Proof. split_and!; by vm_compute. Qed.



(** C6: whatever [erase] is given, every path of the list it returns has a
    [coords] of at least one point. *)
Theorem erase_outputs_nonempty fuel paths erasePath eraseRadius σ out σ' :
  erase fuel paths erasePath eraseRadius σ = Done (out, σ') →
  ∀ l, l ∈ out → ∃ cs, coordsIn σ' l = Some cs ∧ 1 ≤ length cs.
Proof.
  intros H l Hl. pose proof (inv_erase fuel paths erasePath eraseRadius σ) as Hwp.
  destruct (wp_done _ _ _ _ _ Hwp H) as [_ Hout].
  rewrite Forall_forall in Hout. by apply nonEmptyPath_coordsIn, Hout.
Qed.

(** [erase_outputs_nonempty] on the first sub-path of the diagonal path. *)
Lemma erase_outputs_nonempty_witness :
  ∃ cs, coordsIn diagonalAfter 2 = Some cs ∧ 1 ≤ length cs.
Proof.
  apply (erase_outputs_nonempty 2 [0] [pt 50 50] (Some 10%float) diagonalStore [2; 1]).
  - by vm_compute.
  - apply list_elem_of_here.
Defined.

(** With a trail of one point [erase] is one point pass. *)
Lemma erase_point_trail fuel paths e eraseRadius σ :
  erase fuel paths [e] eraseRadius σ
  = (forEach (pointErase [e] (radiusOrDefault eraseRadius) fuel) paths ;;;
     readNewPaths) (mkStore (coordArrays σ) (valueArrays σ) (objects σ) []).
Proof. reflexivity. Qed.

(** C7 fails on the code: on the path from (4.6, 17.8) to (-19.4, 35.8),
    which grazes the eraser of radius 1 at (0, 20), [erase] does not
    return, whatever the fuel.  The closest point of the segment is found
    at distance 0.99999999999999978, so a double crossing is looked for;
    the distance from the centre to the line is found above 1, the square
    root of a negative number is [NaN], and [NaN] crossing points are
    written into the walked path.  From then on every turn of the loop
    finds two [NaN] crossings again, emits one more path and leaves both
    cursors where they were. *)
Theorem erase_grazing_never_returns fuel :
  erase fuel [0] [grazingEraser] (Some 1%float) grazingStore = OutOfFuel.
Proof.
  rewrite erase_point_trail.
  change (mkStore (coordArrays grazingStore) _ _ []) with grazingStore.
  change (radiusOrDefault (Some 1%float)) with 1%float.
  simpl forEach. unfold bind. by rewrite grazing_pointErase.
Qed.

(** C8: on a non-empty trail [cleanPath] returns, and what it returns is a
    fixed point of [cleanPath]. *)
Theorem cleanPath_idempotent path :
  path ≠ [] → ∃ c, cleanPath path = Some c ∧ cleanPath c = Some c.
Proof.
  intros Hne. destruct (cleanPath_nonempty path Hne) as (c & Hc & Hcne).
  exists c. split; [done|].
  apply cleanPath_fixed; [done|]. by eapply cleanPath_adjacentDiffer.
Qed.

(** [cleanPath_idempotent] on the returning trail. *)
Lemma cleanPath_idempotent_witness :
  ∃ c, cleanPath returningTrail = Some c ∧ cleanPath c = Some c.
Proof. apply (cleanPath_idempotent returningTrail). discriminate. Defined.

(** C9: with any fuel of two turns or more, [erase] on the path from (0,0)
    to (100,100), eraser at (50,50), radius 10, returns exactly two
    sub-paths, from (0,0) to [crossingLow] and from [crossingHigh] to
    (100,100); each crossing point has equal coordinates, and its
    distance to (50,50), as [getDistance] computes it, is 10. *)
Theorem erase_diagonal_scenario fuel :
  ∃ σ' l1 l2,
    erase (2 + fuel) [0] [pt 50 50] (Some 10%float) diagonalStore = Done ([l1; l2], σ')
    ∧ coordsIn σ' l1 = Some [pt 0 0; crossingLow]
    ∧ coordsIn σ' l2 = Some [crossingHigh; pt 100 100]
    ∧ x crossingLow = y crossingLow
    ∧ x crossingHigh = y crossingHigh
    ∧ getDistance (x crossingLow) (y crossingLow) 50 50 = 10%float
    ∧ getDistance (x crossingHigh) (y crossingHigh) 50 50 = 10%float.
Proof.
  exists diagonalAfter, 2, 1. split_and!; try by vm_compute.
  apply (erase_fuel 2 (2 + fuel)); [lia|]. by vm_compute.
Qed.




(** * Further properties *)

Section NotANumber.

Local Open Scope float_scope.

Lemma Prim2SF_nan : Prim2SF nan = S754_nan.
Proof. reflexivity. Qed.

Lemma SFeqb_refl_false f : SFeqb f f = false → f = S754_nan.
Proof.
  intros H. destruct f as [s|s| |s m e]; try done.
  - by destruct s.
  - assert (SFeqb (S754_finite s m e) (S754_finite s m e) = true) as H'.
    { by apply SFeqb_same. }
    congruence.
Qed.

(** A number that differs from itself is [nan]. *)
Lemma sne_self_nan a : Num.seq a a = false → a = nan.
Proof.
  unfold Num.seq. rewrite FloatAxioms.eqb_spec. intros H%SFeqb_refl_false.
  apply Prim2SF_inj. by rewrite H.
Qed.

Lemma sub_nan_l b : nan - b = nan.
Proof. apply Prim2SF_inj. rewrite sub_spec. reflexivity. Qed.

Lemma sub_nan_r a : a - nan = nan.
Proof. apply Prim2SF_inj. rewrite sub_spec. simpl. by destruct (Prim2SF a). Qed.

Lemma add_nan_l b : nan + b = nan.
Proof. apply Prim2SF_inj. rewrite add_spec. reflexivity. Qed.

Lemma add_nan_r a : a + nan = nan.
Proof. apply Prim2SF_inj. rewrite add_spec. simpl. by destruct (Prim2SF a). Qed.

Lemma mul_nan_l b : nan * b = nan.
Proof. apply Prim2SF_inj. rewrite mul_spec. reflexivity. Qed.

Lemma mul_nan_r a : a * nan = nan.
Proof. apply Prim2SF_inj. rewrite mul_spec. simpl. by destruct (Prim2SF a). Qed.

Lemma div_nan_l b : nan / b = nan.
Proof. apply Prim2SF_inj. rewrite div_spec. reflexivity. Qed.

Lemma div_nan_r a : a / nan = nan.
Proof. apply Prim2SF_inj. rewrite div_spec. simpl. by destruct (Prim2SF a). Qed.

Lemma opp_nan : - nan = nan.
Proof. reflexivity. Qed.

Lemma sqrt_nan : sqrt nan = nan.
Proof. reflexivity. Qed.

Lemma ltb_nan_l b : (nan <? b) = false.
Proof. rewrite ltb_spec. reflexivity. Qed.

Lemma ltb_nan_r a : (a <? nan) = false.
Proof. rewrite ltb_spec. simpl. unfold SFltb, SFcompare. by destruct (Prim2SF a). Qed.

Lemma leb_nan_l b : (nan <=? b) = false.
Proof. rewrite leb_spec. reflexivity. Qed.

Lemma leb_nan_r a : (a <=? nan) = false.
Proof. rewrite leb_spec. simpl. unfold SFleb, SFcompare. by destruct (Prim2SF a). Qed.

Lemma eqb_nan_l b : (nan =? b) = false.
Proof. rewrite FloatAxioms.eqb_spec. reflexivity. Qed.

Lemma eqb_nan_r a : (a =? nan) = false.
Proof. rewrite FloatAxioms.eqb_spec. simpl. unfold SFeqb, SFcompare. by destruct (Prim2SF a). Qed.

End NotANumber.

Create Rewrite HintDb nan.
#[export] Hint Rewrite sub_nan_l sub_nan_r add_nan_l add_nan_r mul_nan_l mul_nan_r
  div_nan_l div_nan_r opp_nan sqrt_nan ltb_nan_l ltb_nan_r leb_nan_l leb_nan_r
  eqb_nan_l eqb_nan_r : nan.

Lemma isNumber_false p : isNumber p = false → x p = nan ∨ y p = nan.
Proof.
  unfold isNumber. intros [H|H]%andb_false_iff; [left|right]; by apply sne_self_nan.
Qed.

Ltac nan_simpl :=
  cbv beta iota zeta delta [fst snd Num.pow2 Num.geb Num.gtb Num.seq Num.sne x y];
  autorewrite with nan.

Lemma withinCircle_nan p cX cY r :
  isNumber p = false → withinCircle (x p) (y p) cX cY r = false.
Proof.
  intros [H|H]%isNumber_false; rewrite H; unfold withinCircle, getDistance;
    nan_simpl; reflexivity.
Qed.

Lemma withinBox_nan_point p aX aY bX bY r :
  isNumber p = false → withinBox (x p) (y p) aX aY bX bY r = true.
Proof.
  intros [H|H]%isNumber_false; rewrite H; unfold withinBox;
    nan_simpl; reflexivity.
Qed.

Lemma withinBox_nan_start pX pY a bX bY r :
  isNumber a = false → withinBox pX pY (x a) (y a) bX bY r = true.
Proof.
  intros [H|H]%isNumber_false; rewrite H; unfold withinBox;
    nan_simpl; reflexivity.
Qed.

Lemma withinBox_nan_end pX pY aX aY b r :
  isNumber b = false → withinBox pX pY aX aY (x b) (y b) r = true.
Proof.
  intros [H|H]%isNumber_false; rewrite H; unfold withinBox;
    nan_simpl; reflexivity.
Qed.

(** ** The entry point on its edge inputs *)

Lemma capsuleChain_no_paths fuel c r es σ :
  newPaths σ = [] → capsuleChain fuel c r es [] σ = Done ([], σ).
Proof.
  destruct σ as [ca va os nps]. simpl. intros ->.
  induction es as [|e es IH]; [done|].
  simpl. unfold bind, takeNewPaths. simpl. exact IH.
Qed.

Lemma erase_cleaned fuel paths trail c r σ :
  cleanPath trail = Some c →
  erase fuel paths trail r σ
  = (if decide (length c = 1) then
       forEach (pointErase c (radiusOrDefault r) fuel) paths ;;; readNewPaths
     else capsuleChain fuel c (radiusOrDefault r) (capsuleIndices c) paths)
      (mkStore (coordArrays σ) (valueArrays σ) (objects σ) []).
Proof. intros Hc. unfold erase, bind, takeNewPaths. by rewrite Hc. Qed.

(** X1: an empty eraser trail makes [erase] throw, whatever the paths, the
    radius and the store are: [cleanPath] reads [path[-1].x]. *)
Theorem erase_empty_trail_throws fuel paths eraseRadius σ :
  erase fuel paths [] eraseRadius σ = Throw.
Proof. done. Qed.

(** X2: with no paths to erase, [erase] returns the empty list for every
    trail that is not empty, and leaves every object and array of the store
    as it is. *)
Theorem erase_no_paths fuel trail eraseRadius σ :
  trail ≠ [] →
  erase fuel [] trail eraseRadius σ
  = Done ([], mkStore (coordArrays σ) (valueArrays σ) (objects σ) []).
Proof.
  intros Hne. destruct (cleanPath_nonempty trail Hne) as (c & Hc & _).
  rewrite (erase_cleaned _ _ _ _ _ _ Hc).
  case_decide; [done|]. by apply capsuleChain_no_paths.
Qed.

Lemma erase_no_paths_witness :
  erase 0 [] [pt 0 0; pt 1 1] None diagonalStore
  = Done ([], mkStore (coordArrays diagonalStore) (valueArrays diagonalStore)
                      (objects diagonalStore) []).
Proof. apply erase_no_paths. done. Defined.

(** X3: a radius of [0], [-0] or [NaN], like a missing radius, is replaced
    by 20: [erase] then does exactly what it does with the radius 20. *)
Theorem erase_falsy_radius_is_twenty fuel paths trail σ :
  erase fuel paths trail (Some 0%float) σ = erase fuel paths trail (Some 20%float) σ
  ∧ erase fuel paths trail (Some (-0)%float) σ = erase fuel paths trail (Some 20%float) σ
  ∧ erase fuel paths trail (Some nan) σ = erase fuel paths trail (Some 20%float) σ
  ∧ erase fuel paths trail None σ = erase fuel paths trail (Some 20%float) σ.
Proof. done. Qed.

Lemma erase_cleaned_trail fuel paths trail c r σ :
  cleanPath trail = Some c →
  erase fuel paths trail r σ = erase fuel paths c r σ.
Proof.
  intros Hc.
  assert (cleanPath c = Some c) as Hcc.
  { apply cleanPath_fixed; [by eapply cleanPath_Some_nonempty|].
    by eapply cleanPath_adjacentDiffer. }
  by rewrite (erase_cleaned _ _ _ _ _ _ Hc), (erase_cleaned _ _ _ _ _ _ Hcc).
Qed.

(** X4: [erase] depends on the trail only through the trail [cleanPath]
    makes of it: erasing with the cleaned trail gives the same result and
    the same store. *)
Theorem erase_uses_cleaned_trail fuel paths trail cleaned eraseRadius σ :
  cleanPath trail = Some cleaned →
  erase fuel paths trail eraseRadius σ = erase fuel paths cleaned eraseRadius σ.
Proof.
  apply erase_cleaned_trail.
Qed.

Lemma erase_uses_cleaned_trail_witness :
  erase 2 [0] returningTrail (Some 10%float) diagonalStore
  = erase 2 [0] [pt 0 0; pt 1 1] (Some 10%float) diagonalStore.
Proof. apply erase_uses_cleaned_trail. reflexivity. Defined.

(** X5: a trail whose points are all the same as its first point erases
    like the trail of that one point: the eraser is a circle. *)
Theorem erase_repeated_point_trail fuel paths e rest eraseRadius σ :
  Forall (λ z, samePoint e z = true) rest →
  erase fuel paths (e :: rest) eraseRadius σ = erase fuel paths [e] eraseRadius σ.
Proof.
  intros Hall. apply erase_cleaned_trail.
  destruct rest as [|q l]; [done|]. by apply cleanPath_all_same.
Qed.

Lemma erase_repeated_point_trail_witness :
  erase 2 [0] [pt 50 50; pt 50 50; pt 50 50] (Some 10%float) diagonalStore
  = erase 2 [0] [pt 50 50] (Some 10%float) diagonalStore.
Proof. apply erase_repeated_point_trail. by repeat constructor. Defined.

(** ** More on [cleanPath] *)

(** The scan keeps points of the trail, in their order, and never the
    last one. *)
Lemma cleanScan_sublist l z : cleanScan (l ++ [z]) `sublist_of` l.
Proof.
  induction l as [|p l IH]; [done|].
  destruct l as [|q l].
  - simpl. destruct (diffPoint p z); [done|]. by apply sublist_cons.
  - change ((p :: q :: l) ++ [z]) with (p :: q :: (l ++ [z])).
    rewrite cleanScan_cons.
    destruct (diffPoint p q); simpl.
    + by apply sublist_skip.
    + by apply sublist_cons. 
Qed.

(** X6: [cleanPath] only drops points: the trail it returns is the input
    trail with some of its points left out, in the same order, so it is
    never longer than the input. *)
Theorem cleanPath_sublist path cleaned :
  cleanPath path = Some cleaned →
  cleaned `sublist_of` path ∧ length cleaned ≤ length path.
Proof.
  intros Hc.
  assert (cleaned `sublist_of` path) as Hsub; [|split; [done|by apply sublist_length]].
  destruct path as [|p [|q l]]; [done| |].
  - unfold cleanPath in Hc. simpl in Hc. by inversion Hc.
  - destruct (exists_last (l := p :: q :: l)) as (init & z & E); [done|].
    pose proof (cleanScan_sublist init z) as Hscan. rewrite <- E in Hscan.
    destruct (cleanPath_long p q l) as (z' & Hz & [[_ Hp]|(t & h & pc & Hs & _ & Hp)]).
    + rewrite Hp in Hc. inversion Hc; subst cleaned.
      apply sublist_skip, sublist_nil_l.
    + rewrite Hp in Hc. inversion Hc; subst cleaned. clear Hc Hp.
      rewrite E in Hz. rewrite last_snoc in Hz. inversion Hz; subst z'.
      rewrite Hs in Hscan. rewrite E.
      destruct (diffPoint z pc).
      * replace (t ++ [h; z]) with ((t ++ [h]) ++ [z]) by (by rewrite <- app_assoc).
        by apply sublist_app.
      * by apply sublist_inserts_r.
Qed.

Lemma cleanPath_sublist_witness :
  [pt 0 0; pt 1 1] `sublist_of` returningTrail
  ∧ length [pt 0 0; pt 1 1] ≤ length returningTrail.
Proof. apply cleanPath_sublist. reflexivity. Defined.

(** X7: [cleanPath] returns a trail unchanged exactly when no two
    neighbours of the trail are the same point. *)
Theorem cleanPath_unchanged_iff path :
  path ≠ [] → (cleanPath path = Some path ↔ adjacentDiffer path).
Proof.
  intros Hne. split.
  - apply cleanPath_adjacentDiffer.
  - by apply cleanPath_fixed.
Qed.

Lemma cleanPath_unchanged_iff_witness :
  cleanPath [pt 0 0; pt 1 1; pt 0 0] = Some [pt 0 0; pt 1 1; pt 0 0]
  ↔ adjacentDiffer [pt 0 0; pt 1 1; pt 0 0].
Proof. apply cleanPath_unchanged_iff. done. Defined.

(** ** Paths that lie under the eraser are erased *)

Section Inside.

Implicit Types (σ : Store) (l a c : loc) (cs : list Point) (e p q : Point).

Lemma insideCircle_lookup e r cs i p :
  insideCircle e r cs → cs !! i = Some p →
  withinCircle (x p) (y p) (x e) (y e) r = true.
Proof.
  intros Hin Hp. unfold insideCircle in Hin. rewrite Forall_forall in Hin.
  apply Hin. by eapply list_elem_of_lookup_2.
Qed.

Lemma insideCapsule_lookup e0 e1 r cs i p :
  insideCapsule e0 e1 r cs → cs !! i = Some p →
  hasOne (withinCapsule (x p) (y p) (x e0) (y e0) (x e1) (y e1) r) = true.
Proof.
  intros Hin Hp. unfold insideCapsule in Hin. rewrite Forall_forall in Hin.
  apply Hin. by eapply list_elem_of_lookup_2.
Qed.

(** With both ends of every segment in the eraser, the walk moves both
    cursors to the end of the path and changes nothing. *)
Lemma returns_pointEraseWalk_inside e r fuel σ path np cs i
      (Q : nat * nat → Store → Prop) :
  pathHas σ path cs → insideCircle e r cs →
  length cs ≤ fuel + i + 1 →
  (∀ n, Q (n, n) σ) →
  returns (pointEraseWalk r fuel (x e) (y e) path np i i) Q σ.
Proof.
  revert i. induction fuel as [|fuel IH]; intros i Hp Hin Hfuel HQ; simpl.
  - apply returns_bind. eapply returns_coordsOf; [done|].
    rewrite decide_False by lia. by apply returns_ret.
  - apply returns_bind. eapply returns_coordsOf; [done|].
    case_decide as Hi; [|by apply returns_ret].
    destruct (lookup_lt_is_Some_2 cs i) as [p0 Hp0]; [lia|].
    destruct (lookup_lt_is_Some_2 cs (i + 1)) as [p1 Hp1]; [lia|].
    apply returns_bind. unfold pointEraseStep.
    apply returns_bind. eapply returns_coordsOf; [done|].
    apply returns_bind. eapply returns_orThrow; [done|].
    apply returns_bind. eapply returns_orThrow; [done|].
    rewrite (insideCircle_lookup _ _ _ _ _ Hin Hp0), (insideCircle_lookup _ _ _ _ _ Hin Hp1).
    simpl. apply returns_ret. simpl. apply IH; [done..|lia|done].
Qed.

Lemma returns_capsuleEraseWalk_inside e0 e1 r fuel σ path np cs i
      (Q : nat * nat → Store → Prop) :
  pathHas σ path cs → insideCapsule e0 e1 r cs →
  length cs ≤ fuel + i + 1 →
  (∀ n, Q (n, n) σ) →
  returns (capsuleEraseWalk r fuel e0 e1 path np i i) Q σ.
Proof.
  revert i. induction fuel as [|fuel IH]; intros i Hp Hin Hfuel HQ; simpl.
  - apply returns_bind. eapply returns_coordsOf; [done|].
    rewrite decide_False by lia. by apply returns_ret.
  - apply returns_bind. eapply returns_coordsOf; [done|].
    case_decide as Hi; [|by apply returns_ret].
    destruct (lookup_lt_is_Some_2 cs i) as [p0 Hp0]; [lia|].
    destruct (lookup_lt_is_Some_2 cs (i + 1)) as [p1 Hp1]; [lia|].
    apply returns_bind. unfold capsuleEraseStep.
    apply returns_bind. eapply returns_coordsOf; [done|].
    apply returns_bind. eapply returns_orThrow; [done|].
    apply returns_bind. eapply returns_orThrow; [done|].
    rewrite (insideCapsule_lookup _ _ _ _ _ _ Hin Hp0),
      (insideCapsule_lookup _ _ _ _ _ _ Hin Hp1).
    simpl. apply returns_ret. simpl. apply IH; [done..|lia|done].
Qed.


Lemma pointErase_inside erasePath e r fuel σ path cs :
  erasePath !! 0 = Some e →
  pathHas σ path cs → insideCircle e r cs → length cs ≤ fuel + 1 →
  returns (pointErase erasePath r fuel path) (swallowed σ) σ.
Proof.
  intros He Hp Hin Hfuel. unfold pointErase.
  apply returns_bind. eapply returns_orThrow; [done|].
  apply returns_bind. eapply returns_coordsOf; [done|].
  assert (returns (np <- createNewPath path ;; clear np ;;;
                   st <- pointEraseWalk r fuel (x e) (y e) path np 0 0 ;;
                   (if decide (snd st ≠ fst st) then
                      cs <- coordsOf path ;;
                      assignCoords np (slice (snd st) (length cs) cs) ;;;
                      ncs <- coordsOf np ;;
                      if decide (0 < length ncs) then pushNewPath np else ret tt
                    else ret tt)) (swallowed σ) σ) as Hrest.
  { eapply returns_newShell; [done|]. intros kvs' va Hk.
    set (σ1 := mkStore _ _ _ _).
    assert (grows σ σ1) as Hg
        by (by exists [[]], va, [mkPath kvs' (length (coordArrays σ))]).
    apply returns_bind.
    eapply (returns_pointEraseWalk_inside e r fuel σ1 path _ cs 0);
      [by eapply pathHas_grows|done|lia|].
    intros n. simpl. rewrite decide_False by (intros H; by apply H).
    by apply returns_ret. }
  apply returns_bind. case_decide as Hlen.
  - destruct cs as [|p [|??]]; try done.
    apply returns_bind. eapply returns_orThrow; [done|]. apply returns_ret.
    rewrite (insideCircle_lookup e r [p] 0 p Hin eq_refl). exact Hrest.
  - apply returns_ret. exact Hrest.
Qed.

Lemma capsuleErase_inside erasePath k e0 e1 r fuel σ path cs :
  erasePath !! k = Some e0 → erasePath !! (k + 1) = Some e1 →
  pathHas σ path cs → insideCapsule e0 e1 r cs → length cs ≤ fuel + 1 →
  returns (capsuleErase erasePath r fuel path k) (swallowed σ) σ.
Proof.
  intros He0 He1 Hp Hin Hfuel. unfold capsuleErase.
  apply returns_bind. eapply returns_orThrow; [done|].
  apply returns_bind. eapply returns_orThrow; [done|].
  apply returns_bind. eapply returns_coordsOf; [done|].
  assert (returns (np <- createNewPath path ;; clear np ;;;
                   st <- capsuleEraseWalk r fuel e0 e1 path np 0 0 ;;
                   (if decide (snd st ≠ fst st) then
                      cs <- coordsOf path ;;
                      assignCoords np (slice (snd st) (length cs) cs) ;;;
                      ncs <- coordsOf np ;;
                      if decide (0 < length ncs)
                      then c <- createNewPath np ;; pushNewPath c
                      else ret tt
                    else ret tt)) (swallowed σ) σ) as Hrest.
  { eapply returns_newShell; [done|]. intros kvs' va Hk.
    set (σ1 := mkStore _ _ _ _).
    assert (grows σ σ1) as Hg
        by (by exists [[]], va, [mkPath kvs' (length (coordArrays σ))]).
    apply returns_bind.
    eapply (returns_capsuleEraseWalk_inside e0 e1 r fuel σ1 path _ cs 0);
      [by eapply pathHas_grows|done|lia|].
    intros n. simpl. rewrite decide_False by (intros H; by apply H).
    by apply returns_ret. }
  apply returns_bind. case_decide as Hlen.
  - destruct cs as [|p [|??]]; try done.
    apply returns_bind. eapply returns_orThrow; [done|]. apply returns_ret.
    rewrite (insideCapsule_lookup e0 e1 r [p] 0 p Hin eq_refl). exact Hrest.
  - apply returns_ret. exact Hrest.
Qed.

Lemma forEach_inside (f : loc → M unit) (P : list Point → Prop) paths css σ :
  (∀ σ1 l cs, pathHas σ1 l cs → P cs → returns (f l) (swallowed σ1) σ1) →
  Forall2 (pathHas σ) paths css → Forall P css →
  returns (forEach f paths) (swallowed σ) σ.
Proof.
  intros Hf. revert σ css.
  induction paths as [|p paths IH]; intros σ css H2 HP.
  - simpl. apply returns_ret. split; [apply grows_refl|done].
  - apply Forall2_cons_inv_l in H2 as (cs & css' & Hp & H2 & ->).
    apply Forall_cons in HP as [HPcs HP]. simpl.
    apply returns_bind. eapply returns_mono; [|by apply (Hf _ _ cs)].
    intros ? σ1 (Hg & Hnp).
    eapply returns_mono; [|apply (IH σ1 css'); [|done]].
    2:{ eapply Forall2_impl; [exact H2|]. intros ??. by apply pathHas_grows. }
    intros ? σ2 (Hg' & Hnp').
    split; [by eapply grows_trans|congruence].
Qed.

End Inside.

Section InsideErase.

Implicit Types (σ : Store) (l a c : loc) (cs : list Point) (e p q : Point).

Lemma grows_newPaths σ σ' nps :
  grows σ σ' → grows σ (mkStore (coordArrays σ') (valueArrays σ') (objects σ') nps).
Proof. done. Qed.

Lemma pathHas_all_grows σ σ' paths css :
  grows σ σ' → Forall2 (pathHas σ) paths css → Forall2 (pathHas σ') paths css.
Proof.
  intros Hg H2. eapply Forall2_impl; [exact H2|]. intros ??. by apply pathHas_grows.
Qed.

(** When every path lies in the capsule of the first pass of a chain, that
    pass emits nothing and the passes after it have nothing to run on. *)
Lemma capsuleChain_inside fuel (t : list Point) r k es e0 e1 paths css σ :
  newPaths σ = [] →
  Forall2 (pathHas σ) paths css →
  t !! k = Some e0 → t !! (k + 1) = Some e1 →
  Forall (λ cs, length cs ≤ fuel + 1 ∧ insideCapsule e0 e1 r cs) css →
  returns (capsuleChain fuel t r (k :: es) paths)
          (λ out σ', out = [] ∧ grows σ σ') σ.
Proof.
  intros Hnil H2 He0 He1 Hall. simpl.
  apply returns_bind.
  eapply returns_mono;
    [|apply (forEach_inside _ (λ cs, length cs ≤ fuel + 1 ∧ insideCapsule e0 e1 r cs)
                            paths css)].
  - intros ? σ1 (Hg & Hnp).
    apply returns_bind. unfold returns at 1. simpl. rewrite Hnp, Hnil.
    unfold returns. rewrite capsuleChain_no_paths by done. done.
  - intros σ1 p cs Hp [Hlen Hin]. by eapply capsuleErase_inside.
  - done.
  - done.
Qed.

(** The passes before it copy the paths that stay away from their
    capsules. *)
Lemma capsuleChain_clear_inside fuel (t : list Point) r es1 k es2 e0 e1 paths css σ :
  newPaths σ = [] →
  Forall2 (pathHas σ) paths css →
  Forall (λ cs, cs ≠ [] ∧ length cs ≤ fuel) css →
  (∀ j, j ∈ es1 → ∃ d0 d1, t !! j = Some d0 ∧ t !! (j + 1) = Some d1
                           ∧ Forall (awayFromCapsule d0 d1 r) css) →
  t !! k = Some e0 → t !! (k + 1) = Some e1 →
  Forall (insideCapsule e0 e1 r) css →
  returns (capsuleChain fuel t r (es1 ++ k :: es2) paths)
          (λ out σ', out = [] ∧ grows σ σ') σ.
Proof.
  intros Hnil H2 Hwf Haway He0 He1 Hin.
  revert paths σ Hnil H2. induction es1 as [|j es1 IH]; intros paths σ Hnil H2.
  - eapply capsuleChain_inside; [done..|].
    rewrite Forall_forall in Hwf, Hin |- *. intros cs Hcs.
    destruct (Hwf _ Hcs). split; [lia|auto].
  - destruct (Haway j) as (d0 & d1 & Hd0 & Hd1 & Hj); [by left|].
    simpl. apply returns_bind.
    eapply returns_mono;
      [|apply (forEach_clear _ (λ cs, cs ≠ [] ∧ length cs ≤ fuel
                                     ∧ awayFromCapsule d0 d1 r cs) paths css)].
    + simpl. intros _ σ1 (Hg & outs & Hnp & Houts).
      apply returns_bind. unfold returns at 1. simpl.
      rewrite Hnp, Hnil. simpl.
      eapply returns_mono; [|apply IH].
      * simpl. intros out σ2 [-> Hg']. split; [done|].
        eapply grows_trans; [exact Hg|]. exact Hg'.
      * intros j' Hj'. apply Haway. by right.
      * done.
      * eapply Forall2_impl; [exact Houts|]. intros ??. by apply pathHas_newPaths.
    + intros σ1 p cs Hp (Hne & Hlen & Haw). by eapply capsuleErase_clear.
    + done.
    + rewrite Forall_forall in Hwf, Hj |- *. intros cs Hcs.
      destruct (Hwf _ Hcs). split_and!; auto.
Qed.

Lemma grows_from_taken σ σ' :
  grows (mkStore (coordArrays σ) (valueArrays σ) (objects σ) []) σ' → grows σ σ'.
Proof. done. Qed.

Lemma erase_inside_point fuel paths trail e r σ css :
  cleanPath trail = Some [e] →
  Forall2 (pathHas σ) paths css →
  Forall (λ cs, length cs ≤ fuel + 1 ∧ insideCircle e (radiusOrDefault r) cs) css →
  returns (erase fuel paths trail r) (λ out σ', out = [] ∧ grows σ σ') σ.
Proof.
  intros Hc H2 Hall. unfold erase.
  apply returns_bind. unfold returns at 1. simpl.
  apply returns_bind. eapply returns_orThrow; [done|].
  rewrite decide_True by done.
  apply returns_bind.
  eapply returns_mono;
    [|apply (forEach_inside _ (λ cs, length cs ≤ fuel + 1
                                     ∧ insideCircle e (radiusOrDefault r) cs) paths css)].
  - intros ? σ1 (Hg & Hnp). unfold returns. simpl. by rewrite Hnp.
  - intros σ1 p cs Hp [Hlen Hin]. by eapply pointErase_inside.
  - eapply Forall2_impl; [exact H2|]. intros ??. by apply pathHas_newPaths.
  - done.
Qed.

Lemma capsuleIndices_split (t : list Point) k :
  k + 1 < length t →
  capsuleIndices t = seq 0 k ++ k :: seq (S k) (length t - k - 2).
Proof.
  intros Hk. unfold capsuleIndices.
  replace (length t - 1) with (k + S (length t - k - 2)) by lia.
  by rewrite seq_app.
Qed.

Lemma erase_inside_first_capsule fuel paths trail e0 e1 rest r σ css :
  cleanPath trail = Some (e0 :: e1 :: rest) →
  Forall2 (pathHas σ) paths css →
  Forall (λ cs, length cs ≤ fuel + 1 ∧ insideCapsule e0 e1 (radiusOrDefault r) cs) css →
  returns (erase fuel paths trail r) (λ out σ', out = [] ∧ grows σ σ') σ.
Proof.
  intros Hc H2 Hall. unfold erase.
  apply returns_bind. unfold returns at 1. simpl.
  apply returns_bind. eapply returns_orThrow; [done|].
  rewrite decide_False by (simpl; lia).
  rewrite (capsuleIndices_split _ 0) by (simpl; lia). simpl seq at 1. simpl app.
  eapply returns_mono; cycle 1.
  - eapply (capsuleChain_inside _ _ _ 0 _ e0 e1); [done| |done..].
    eapply Forall2_impl; [exact H2|]. intros ??. by apply pathHas_newPaths.
  - intros out σ' [-> Hg]. split; [done|exact Hg].
Qed.

Lemma erase_clear_then_inside fuel paths trail (t : list Point) r σ css k e0 e1 :
  cleanPath trail = Some t →
  t !! k = Some e0 → t !! (k + 1) = Some e1 →
  Forall2 (pathHas σ) paths css →
  Forall (λ cs, cs ≠ [] ∧ length cs ≤ fuel
                ∧ (∀ j d0 d1, j < k → t !! j = Some d0 → t !! (j + 1) = Some d1 →
                              awayFromCapsule d0 d1 (radiusOrDefault r) cs)
                ∧ insideCapsule e0 e1 (radiusOrDefault r) cs) css →
  returns (erase fuel paths trail r) (λ out σ', out = [] ∧ grows σ σ') σ.
Proof.
  intros Hc He0 He1 H2 Hall. unfold erase.
  pose proof (lookup_lt_Some _ _ _ He1) as Hk.
  apply returns_bind. unfold returns at 1. simpl.
  apply returns_bind. eapply returns_orThrow; [done|].
  rewrite decide_False by lia.
  rewrite (capsuleIndices_split _ k) by done.
  eapply returns_mono; cycle 1.
  - eapply (capsuleChain_clear_inside _ _ _ _ k _ e0 e1 paths css); [done| | | |done..| ].
    + eapply Forall2_impl; [exact H2|]. intros ??. by apply pathHas_newPaths.
    + eapply Forall_impl; [exact Hall|]. by intros cs (? & ? & _).
    + intros j [_ Hj]%elem_of_seq.
      destruct (lookup_lt_is_Some_2 t j) as [d0 Hd0]; [lia|].
      destruct (lookup_lt_is_Some_2 t (j + 1)) as [d1 Hd1]; [lia|].
      exists d0, d1. split_and!; [done..|].
      eapply Forall_impl; [exact Hall|]. intros cs (_ & _ & Haw & _).
      eapply Haw; [|done..]. lia.
    + eapply Forall_impl; [exact Hall|]. by intros cs (_ & _ & _ & ?).
  - intros out σ' [-> Hg]. split; [done|exact Hg].
Qed.

(** Paths that only saw the store grow are what they were. *)
Lemma erased_unchanged (m : M (list loc)) σ paths css :
  Forall2 (pathHas σ) paths css →
  returns m (λ out σ', out = [] ∧ grows σ σ') σ →
  ∃ σ', m σ = Done ([], σ') ∧ Forall2 (pathHas σ') paths css.
Proof.
  intros H2 Hr. destruct (returns_done _ _ _ Hr) as (out & σ' & Hrun & -> & Hg).
  exists σ'. split; [done|]. by eapply pathHas_all_grows.
Qed.

Lemma diffPoint_nan_l p z : isNumber p = false → diffPoint p z = true.
Proof.
  intros [H|H]%isNumber_false; unfold diffPoint, Num.sne; rewrite H, eqb_nan_l;
    [done|apply orb_true_r].
Qed.

Lemma samePoint_nan_r p z : isNumber p = false → samePoint z p = false.
Proof.
  intros [H|H]%isNumber_false; unfold samePoint, Num.seq; rewrite H, eqb_nan_r;
    [done|apply andb_false_r].
Qed.

(** A first point that is not a number is kept, and so is a second point. *)
Lemma cleanPath_nan_head e0 e1 rest :
  isNumber e0 = false →
  ∃ d1 ds, cleanPath (e0 :: e1 :: rest) = Some (e0 :: d1 :: ds).
Proof.
  intros Hnan.
  assert (cleanScan (e0 :: e1 :: rest) = e0 :: cleanScan (e1 :: rest)) as Hcons.
  { by rewrite cleanScan_cons, diffPoint_nan_l. }
  destruct (cleanPath_long e0 e1 rest) as (z & Hz & [[Hs _]|(t & h & pc & Hs & Hpc & ->)]).
  - by rewrite Hcons in Hs.
  - rewrite Hcons in Hs. destruct t as [|t0 t]; cbn [app] in Hs.
    + injection Hs as <- _. cbn in Hpc. injection Hpc as <-.
      assert (diffPoint z e0 = true) as ->.
      { apply diffPoint_sym. by apply diffPoint_nan_l. }
      by eexists _, _.
    + injection Hs as <- _.
      destruct (diffPoint z pc); destruct t; by eexists _, _.
Qed.

End InsideErase.

Section Dots.

Implicit Types (σ : Store) (l : loc) (cs : list Point) (e p q : Point).

Lemma coordsIn_inv σ l cs :
  coordsIn σ l = Some cs →
  ∃ o, objects σ !! l = Some o ∧ coordArrays σ !! coords o = Some cs.
Proof.
  unfold coordsIn. destruct (objects σ !! l) as [o|]; [|done]. simpl. by exists o.
Qed.

(** A pass pushes a path of one point that is outside its eraser as it
    is, and does nothing else. *)
Lemma pointErase_dot erasePath e r fuel σ l p :
  erasePath !! 0 = Some e →
  coordsIn σ l = Some [p] →
  withinCircle (x p) (y p) (x e) (y e) r = false →
  pointErase erasePath r fuel l σ
  = Done (tt, mkStore (coordArrays σ) (valueArrays σ) (objects σ) (newPaths σ ++ [l])).
Proof.
  intros He (o & Ho & Hcs)%coordsIn_inv Hw.
  unfold pointErase, bind, coordsOf, bind, getObject, getCoordArray.
  rewrite He. simpl. rewrite Ho. simpl. rewrite Hcs. simpl. by rewrite Hw.
Qed.

Lemma capsuleErase_dot erasePath k e0 e1 r fuel σ l p :
  erasePath !! k = Some e0 → erasePath !! (k + 1) = Some e1 →
  coordsIn σ l = Some [p] →
  hasOne (withinCapsule (x p) (y p) (x e0) (y e0) (x e1) (y e1) r) = false →
  capsuleErase erasePath r fuel l k σ
  = Done (tt, mkStore (coordArrays σ) (valueArrays σ) (objects σ) (newPaths σ ++ [l])).
Proof.
  intros He0 He1 (o & Ho & Hcs)%coordsIn_inv Hw.
  unfold capsuleErase, bind, coordsOf, bind, getObject, getCoordArray.
  rewrite He0. simpl. rewrite He1. simpl. rewrite Ho. simpl. rewrite Hcs. simpl.
  by rewrite Hw.
Qed.

Lemma forEach_dots (f : loc → M unit) (P : loc → Prop) ca va os paths nps :
  (∀ l nps', P l →
     f l (mkStore ca va os nps') = Done (tt, mkStore ca va os (nps' ++ [l]))) →
  Forall P paths →
  forEach f paths (mkStore ca va os nps) = Done (tt, mkStore ca va os (nps ++ paths)).
Proof.
  intros Hf Hall. revert nps.
  induction Hall as [|l paths Hl Hall IH]; intros nps; simpl.
  - unfold ret. by rewrite app_nil_r.
  - unfold bind. rewrite (Hf _ _ Hl), IH. by rewrite <- app_assoc.
Qed.

Lemma capsuleChain_dots fuel (t : list Point) r es ca va os paths :
  (∀ k, k ∈ es → ∃ e0 e1, t !! k = Some e0 ∧ t !! (k + 1) = Some e1) →
  Forall (λ l, ∃ p, coordsIn (mkStore ca va os []) l = Some [p] ∧ missedBy t r p) paths →
  length t ≠ 1 →
  capsuleChain fuel t r es paths (mkStore ca va os [])
  = Done (paths, mkStore ca va os []).
Proof.
  intros Hes Hall Hlen. induction es as [|k es IH]; [done|].
  destruct (Hes k) as (e0 & e1 & He0 & He1); [by left|].
  simpl. unfold bind at 1.
  rewrite (forEach_dots _ (λ l, ∃ p, coordsIn (mkStore ca va os []) l = Some [p]
                                      ∧ missedBy t r p) ca va os paths []).
  - unfold bind, takeNewPaths. simpl. apply IH. intros k' Hk'. apply Hes. by right.
  - intros l nps' (p & Hp & Hm).
    rewrite (capsuleErase_dot t k e0 e1 r fuel _ l p); [done..|].
    destruct t as [|? [|??]]; [done..|]. by eapply Hm.
  - done.
Qed.

Lemma erase_dots fuel paths trail (t : list Point) r σ :
  cleanPath trail = Some t →
  Forall (λ l, ∃ p, coordsIn σ l = Some [p] ∧ missedBy t (radiusOrDefault r) p) paths →
  ∃ nps, erase fuel paths trail r σ
         = Done (paths, mkStore (coordArrays σ) (valueArrays σ) (objects σ) nps).
Proof.
  intros Hc Hall. rewrite (erase_cleaned _ _ _ _ _ _ Hc).
  case_decide as Hlen.
  - destruct t as [|e [|??]]; try done.
    exists paths. unfold bind.
    rewrite (forEach_dots _ (λ l, ∃ p, coordsIn σ l = Some [p]
                                       ∧ missedBy [e] (radiusOrDefault r) p)
                          _ _ _ paths []); [done| |done].
    intros l nps' (p & Hp & Hm). by rewrite (pointErase_dot [e] e _ fuel _ l p).
  - exists []. apply capsuleChain_dots; [|done..].
    intros k [_ Hk]%elem_of_seq.
    destruct (lookup_lt_is_Some_2 t k) as [e0 He0]; [lia|].
    destruct (lookup_lt_is_Some_2 t (k + 1)) as [e1 He1]; [lia|].
    by exists e0, e1.
Qed.

End Dots.

(** X8: a path whose [coords] is empty is dropped without an error: when
    every path given to [erase] has no point, [erase] returns the empty
    list, for every trail that is not empty, every radius and every
    fuel. *)
Theorem erase_drops_empty_paths fuel paths trail eraseRadius σ :
  trail ≠ [] →
  Forall (λ l, pathHas σ l []) paths →
  ∃ σ', erase fuel paths trail eraseRadius σ = Done ([], σ')
        ∧ Forall (λ l, pathHas σ' l []) paths.
Proof.
  intros Hne Hall.
  assert (Forall2 (pathHas σ) paths (replicate (length paths) [])) as H2.
  { induction Hall; simpl; by constructor. }
  assert (∃ σ', erase fuel paths trail eraseRadius σ = Done ([], σ')
                ∧ Forall2 (pathHas σ') paths (replicate (length paths) []))
    as (σ' & Hrun & H2').
  { apply erased_unchanged; [done|].
    destruct (cleanPath_nonempty trail Hne) as (t & Ht & Hne').
    destruct t as [|e0 [|e1 rest]]; [done| |].
    - eapply erase_inside_point; [done..|].
      apply Forall_forall. intros cs [-> _]%elem_of_replicate.
      split; [simpl; lia|constructor].
    - eapply erase_inside_first_capsule; [done..|].
      apply Forall_forall. intros cs [-> _]%elem_of_replicate.
      split; [simpl; lia|constructor]. }
  exists σ'. split; [done|].
  clear -H2'. induction paths as [|l paths IH]; [done|].
  simpl in H2'. apply Forall2_cons in H2' as [Hl H2']. constructor; auto.
Qed.

Lemma erase_drops_empty_paths_witness :
  ∃ σ', erase 0 [1] bentTrail None dotStore = Done ([], σ')
        ∧ Forall (λ l, pathHas σ' l []) [1].
Proof.
  apply erase_drops_empty_paths; [done|].
  apply Forall_singleton. eexists. split_and!; [reflexivity..|]. by repeat constructor.
Defined.

(** X9: a path all of whose points are within the eraser circle is erased
    entirely.  When the cleaned trail is the single point [e] and every
    point of every path is within the circle (and the fuel covers the
    longest path), [erase] returns the empty list, and the paths of the
    caller hold the points they held. *)
Theorem erase_inside_circle fuel paths trail e eraseRadius σ css :
  cleanPath trail = Some [e] →
  Forall2 (pathHas σ) paths css →
  Forall (λ cs, length cs ≤ fuel + 1
                ∧ insideCircle e (radiusOrDefault eraseRadius) cs) css →
  ∃ σ', erase fuel paths trail eraseRadius σ = Done ([], σ')
        ∧ Forall2 (pathHas σ') paths css.
Proof.
  intros Hc H2 Hall. apply erased_unchanged; [done|]. by eapply erase_inside_point.
Qed.

Lemma erase_inside_circle_witness :
  ∃ σ', erase 1 [0] [pt 50 50] (Some 100%float) diagonalStore = Done ([], σ')
        ∧ Forall2 (pathHas σ') [0] [[pt 0 0; pt 100 100]].
Proof.
  apply (erase_inside_circle 1 [0] [pt 50 50] (pt 50 50)).
  - reflexivity.
  - apply Forall2_cons. split; [|apply Forall2_nil_2].
    eexists. split_and!; [reflexivity..|]. by repeat constructor.
  - apply Forall_singleton. split; [simpl; lia|].
    repeat constructor; by vm_compute.
Defined.

(** X10: a path that stays away from the first [k] capsules of the cleaned
    trail and has all its points in the next capsule is erased entirely:
    the passes before copy it, the pass of that capsule emits nothing, and
    the paths of the caller hold the points they held. *)
Theorem erase_inside_capsule fuel paths trail cleaned eraseRadius σ css k e0 e1 :
  cleanPath trail = Some cleaned →
  cleaned !! k = Some e0 → cleaned !! (k + 1) = Some e1 →
  Forall2 (pathHas σ) paths css →
  Forall (λ cs, cs ≠ [] ∧ length cs ≤ fuel
                ∧ (∀ j d0 d1, j < k → cleaned !! j = Some d0 →
                              cleaned !! (j + 1) = Some d1 →
                              awayFromCapsule d0 d1 (radiusOrDefault eraseRadius) cs)
                ∧ insideCapsule e0 e1 (radiusOrDefault eraseRadius) cs) css →
  ∃ σ', erase fuel paths trail eraseRadius σ = Done ([], σ')
        ∧ Forall2 (pathHas σ') paths css.
Proof.
  intros Hc He0 He1 H2 Hall. apply erased_unchanged; [done|].
  by apply (erase_clear_then_inside _ _ _ cleaned _ _ css k e0 e1).
Qed.

Lemma erase_inside_capsule_witness :
  ∃ σ', erase 2 [0] bentTrail (Some 100%float) diagonalStore = Done ([], σ')
        ∧ Forall2 (pathHas σ') [0] [[pt 0 0; pt 100 100]].
Proof.
  apply (erase_inside_capsule 2 [0] bentTrail bentTrail (Some 100%float) diagonalStore
                              [[pt 0 0; pt 100 100]] 1 (pt 1000 500) (pt 50 50)).
  - reflexivity.
  - reflexivity.
  - reflexivity.
  - apply Forall2_cons. split; [|apply Forall2_nil_2].
    eexists. split_and!; [reflexivity..|]. by repeat constructor.
  - apply Forall_singleton. split_and!; [done|simpl; lia| |].
    + unfold bentTrail. intros [|j] d0 d1 Hj; [|lia]. intros [= <-] [= <-]. split.
      * repeat constructor; by vm_compute.
      * intros [|[|i]] p0 p1 [= <-] [= <-]. split_and!; by vm_compute.
    + repeat constructor; by vm_compute.
Defined.

(** X11: a trail of two points or more whose first point has a coordinate
    that is not a number erases everything: every point is reported in the
    box of the first capsule, so [erase] returns the empty list whatever
    the paths are (the fuel covering the longest path). *)
Theorem erase_nan_trail fuel paths e0 e1 rest eraseRadius σ css :
  isNumber e0 = false →
  Forall2 (pathHas σ) paths css →
  Forall (λ cs, length cs ≤ fuel + 1) css →
  ∃ σ', erase fuel paths (e0 :: e1 :: rest) eraseRadius σ = Done ([], σ')
        ∧ Forall2 (pathHas σ') paths css.
Proof.
  intros Hnan H2 Hall. apply erased_unchanged; [done|].
  destruct (cleanPath_nan_head e0 e1 rest Hnan) as (d1 & ds & Hc).
  eapply erase_inside_first_capsule; [done..|].
  eapply Forall_impl; [exact Hall|]. intros cs Hlen. split; [done|].
  apply Forall_forall. intros p _. unfold hasOne, withinCapsule. simpl.
  rewrite withinBox_nan_start by done. apply orb_true_r.
Qed.

Lemma erase_nan_trail_witness :
  ∃ σ', erase 1 [0] [pt nan 0; pt 5000 5000] (Some 1%float) diagonalStore = Done ([], σ')
        ∧ Forall2 (pathHas σ') [0] [[pt 0 0; pt 100 100]].
Proof.
  apply (erase_nan_trail 1 [0] (pt nan 0) (pt 5000 5000) []).
  - reflexivity.
  - apply Forall2_cons. split; [|apply Forall2_nil_2].
    eexists. split_and!; [reflexivity..|]. by repeat constructor.
  - apply Forall_singleton. simpl. lia.
Defined.

(** X12: a path of one point that the eraser misses is returned as the
    object the caller gave, not as a copy.  When every path has a single
    point and that point is outside the eraser along the cleaned trail,
    [erase] returns the list of paths it was given and leaves every object
    and array of the store as it is. *)
Theorem erase_missed_dots fuel paths trail cleaned eraseRadius σ :
  cleanPath trail = Some cleaned →
  Forall (λ l, ∃ p, coordsIn σ l = Some [p]
                    ∧ missedBy cleaned (radiusOrDefault eraseRadius) p) paths →
  ∃ σ', erase fuel paths trail eraseRadius σ = Done (paths, σ') ∧ sameHeap σ σ'.
Proof.
  intros Hc Hall. destruct (erase_dots fuel _ _ _ _ _ Hc Hall) as (nps & Hrun).
  eexists. split; [exact Hrun|]. by split_and!.
Qed.

Lemma erase_missed_dots_witness :
  ∃ σ', erase 0 [0] bentTrail (Some 10%float) dotStore = Done ([0], σ')
        ∧ sameHeap dotStore σ'.
Proof.
  apply (erase_missed_dots 0 [0] bentTrail bentTrail).
  - reflexivity.
  - apply Forall_singleton. exists (pt 20 10). split; [reflexivity|].
    unfold bentTrail, missedBy.
    intros [|[|[|k]]] d0 d1 H0 H1; try done; injection H0 as <-; injection H1 as <-;
      by vm_compute.
Defined.

(** ** The copy [createNewPath] makes *)

Lemma copyAttrs_copies va0 kvs :
  attrsValid va0 kvs →
  ∀ ca os nps ext, ∃ kvs' new,
    copyAttrs kvs (mkStore ca (va0 ++ ext) os nps)
    = Done (kvs', mkStore ca (va0 ++ ext ++ new) os nps)
    ∧ Forall2 (λ kv kv',
         kv'.1 = kv.1
         ∧ copiedValue (mkStore ca va0 os nps)
                       (mkStore ca (va0 ++ ext ++ new) os nps) kv.2 kv'.2)
        (filter carried kvs) kvs'.
Proof.
  induction kvs as [|[key v] kvs IH]; intros Hval ca os nps ext.
  - exists [], []. by rewrite app_nil_r.
  - apply Forall_cons in Hval as [Hv Hval]. specialize (IH Hval).
    destruct v as [s|n|b| |a]; simpl.
    + destruct (IH ca os nps ext) as (kvs' & new & Hrun & Hall).
      exists ((key, VStr s) :: kvs'), new. unfold bind. rewrite Hrun. split; [done|].
      rewrite filter_cons_True by done. by constructor.
    + destruct (IH ca os nps ext) as (kvs' & new & Hrun & Hall).
      exists kvs', new. split; [done|]. by rewrite filter_cons_False by (by intros ?).
    + destruct (IH ca os nps ext) as (kvs' & new & Hrun & Hall).
      exists kvs', new. split; [done|]. by rewrite filter_cons_False by (by intros ?).
    + destruct (IH ca os nps ext) as (kvs' & new & Hrun & Hall).
      exists kvs', new. split; [done|]. by rewrite filter_cons_False by (by intros ?).
    + simpl in Hv. destruct Hv as [vs Hvs].
      destruct (IH ca os nps (ext ++ [vs])) as (kvs' & new & Hrun & Hall).
      exists ((key, VArr (length (va0 ++ ext))) :: kvs'), (vs :: new).
      unfold bind, getValueArray, newValueArray. simpl.
      rewrite (lookup_app_l_Some _ _ _ _ Hvs). simpl.
      rewrite <- !app_assoc in Hrun. rewrite <- app_assoc. simpl in Hrun. rewrite Hrun.
      split; [done|].
      rewrite <- app_assoc in Hall.
      rewrite filter_cons_True by done. constructor; [|exact Hall].
      split; [done|]. simpl. split; [rewrite length_app; lia|].
      exists vs. split; [done|].
      rewrite app_assoc. by apply list_lookup_middle.
Qed.

(** X13: [createNewPath] leaves every object and array of the store as it
    is and returns a new object.  Its [coords] is a new array with the same
    points; its other attributes are the string-valued and array-valued
    attributes of the source, in their order, each string the same and each
    array a new array with the same elements (one level deep); attributes
    of any other type are not carried over. *)
Theorem createNewPath_copy σ l o cs :
  objects σ !! l = Some o →
  coordArrays σ !! coords o = Some cs →
  attrsValid (valueArrays σ) (attrs o) →
  ∃ σ' o',
    createNewPath l σ = Done (length (objects σ), σ')
    ∧ grows σ σ' ∧ newPaths σ' = newPaths σ
    ∧ objects σ' = objects σ ++ [o']
    ∧ coordArrays σ' = coordArrays σ ++ [cs]
    ∧ coords o' = length (coordArrays σ)
    ∧ Forall2 (λ kv kv', kv'.1 = kv.1 ∧ copiedValue σ σ' kv.2 kv'.2)
              (filter carried (attrs o)) (attrs o').
Proof.
  intros Ho Hcs Hval.
  destruct (copyAttrs_copies _ _ Hval (coordArrays σ) (objects σ) (newPaths σ) [])
    as (kvs' & new & Hrun & Hall).
  rewrite app_nil_r in Hrun. simpl in Hrun, Hall.
  rewrite <- store_eta in Hrun.
  eexists _, (mkPath kvs' (length (coordArrays σ))).
  unfold createNewPath, bind, getObject, getCoordArray, newCoordArray, newObject.
  rewrite Ho. simpl. rewrite Hrun. simpl. rewrite Hcs. simpl.
  split_and!; try done.
  by exists [cs], new, [mkPath kvs' (length (coordArrays σ))].
Qed.

Lemma createNewPath_copy_witness :
  ∃ σ' o',
    createNewPath 0 styledStore = Done (length (objects styledStore), σ')
    ∧ grows styledStore σ' ∧ newPaths σ' = newPaths styledStore
    ∧ objects σ' = objects styledStore ++ [o']
    ∧ coordArrays σ' = coordArrays styledStore ++ [[pt 0 0; pt 100 100]]
    ∧ coords o' = length (coordArrays styledStore)
    ∧ Forall2 (λ kv kv', kv'.1 = kv.1 ∧ copiedValue styledStore σ' kv.2 kv'.2)
              (filter carried
                 [("stroke", VStr "#000000"); ("width", VNum 2); ("dash", VArr 0)])
              (attrs o').
Proof.
  apply (createNewPath_copy styledStore 0
           (mkPath [("stroke", VStr "#000000"); ("width", VNum 2); ("dash", VArr 0)] 0)).
  - reflexivity.
  - reflexivity.
  - repeat constructor. by eexists.
Defined.

(** ** Distances *)

Section Distances.

Local Open Scope float_scope.

(** The sign given to the rounding only labels its result. *)
Lemma binary_round_aux_abs s s' m e l :
  SFabs (binary_round_aux prec emax s m e l)
  = SFabs (binary_round_aux prec emax s' m e l).
Proof.
  unfold binary_round_aux.
  destruct (shr_fexp prec emax m e l) as [mrs' e'].
  destruct (shr_fexp prec emax _ e' loc_Exact) as [mrs'' e''].
  destruct (shr_m mrs''); [done| |done].
  by destruct (e'' <=? emax - prec)%Z.
Qed.

Lemma binary_round_abs s s' m e :
  SFabs (binary_round prec emax s m e) = SFabs (binary_round prec emax s' m e).
Proof.
  unfold binary_round. destruct (shl_align _ _ _) as [mz ez].
  apply binary_round_aux_abs.
Qed.

Lemma binary_normalize_opp m e :
  SFabs (binary_normalize prec emax (- m) e false)
  = SFabs (binary_normalize prec emax m e false).
Proof. destruct m; [done|..]; apply binary_round_abs. Qed.

(** [b - a] is [a - b] with the other sign. *)
Lemma SFsub_abs f g : SFabs (SF64sub f g) = SFabs (SF64sub g f).
Proof.
  unfold SF64sub, SFsub.
  destruct f as [sf|sf| |sf mf ef], g as [sg|sg| |sg mg eg]; try done;
    try (by destruct sf, sg).
  rewrite (Z.min_comm eg ef).
  set (u := cond_Zopp sf _). set (v := cond_Zopp sg _).
  replace (v - u)%Z with (- (u - v))%Z by lia.
  symmetry. apply binary_normalize_opp.
Qed.

Lemma SFmul_self_abs f g : SFabs f = SFabs g → SF64mul f f = SF64mul g g.
Proof.
  unfold SF64mul, SFmul.
  destruct f as [sf|sf| |sf mf ef], g as [sg|sg| |sg mg eg]; try done; simpl.
  - by destruct sf, sg.
  - by destruct sf, sg.
  - intros [= -> ->]. by destruct sf, sg.
Qed.

Lemma pow2_sub_sym a b : Num.pow2 (a - b) = Num.pow2 (b - a).
Proof.
  unfold Num.pow2. apply Prim2SF_inj. rewrite !mul_spec, !sub_spec.
  apply SFmul_self_abs, SFsub_abs.
Qed.

Lemma getDistance_swap aX aY bX bY :
  getDistance aX aY bX bY = getDistance bX bY aX aY.
Proof.
  unfold getDistance. by rewrite (pow2_sub_sym bX aX), (pow2_sub_sym bY aY).
Qed.

(** A square root is not negative: it is below no number that is not
    above zero. *)
Lemma SFsqrt_sign f :
  match SF64sqrt f with
  | S754_infinity true | S754_finite true _ _ => False
  | _ => True
  end.
Proof.
  unfold SF64sqrt, SFsqrt. destruct f as [s|[|]| |[|] m e]; try done.
  destruct (SFsqrt_core_binary prec emax (Z.pos m) e) as [[mz ez] lz].
  unfold binary_round_aux.
  destruct (shr_fexp prec emax mz ez lz) as [mrs' e'].
  destruct (shr_fexp prec emax _ e' loc_Exact) as [mrs'' e''].
  destruct (shr_m mrs''); [done| |done].
  by destruct (e'' <=? emax - prec)%Z.
Qed.

Lemma sqrt_not_below a r : (0 <? r) = false → (sqrt a <? r) = false.
Proof.
  rewrite !ltb_spec, sqrt_spec. change (Prim2SF 0) with (S754_zero false).
  pose proof (SFsqrt_sign (Prim2SF a)) as Hs.
  destruct (SF64sqrt (Prim2SF a)) as [s|[|]| |[|] m e]; try done;
    destruct (Prim2SF r) as [s'|[|]| |[|] m' e']; try done.
Qed.

End Distances.

(** X14: the distance [getDistance] computes does not depend on the order
    of the two points, so a point is within the circle of radius [r]
    around another exactly when that one is within the circle of radius [r]
    around it. *)
Theorem getDistance_symmetric aX aY bX bY r :
  getDistance aX aY bX bY = getDistance bX bY aX aY
  ∧ withinCircle aX aY bX bY r = withinCircle bX bY aX aY r.
Proof.
  split; [apply getDistance_swap|].
  unfold withinCircle. by rewrite getDistance_swap.
Qed.

(** X15: [getDistance] is never below zero, and [withinCircle] answers 0
    for every point when the radius is not above zero: negative, a zero or
    [NaN]. *)
Theorem withinCircle_needs_positive_radius px py cX cY r :
  Num.gtb r 0 = false →
  (getDistance px py cX cY <? 0)%float = false
  ∧ withinCircle px py cX cY r = false.
Proof.
  unfold Num.gtb, withinCircle, getDistance. intros H. split.
  - by apply sqrt_not_below.
  - by rewrite (sqrt_not_below _ _ H).
Qed.

Lemma withinCircle_needs_positive_radius_witness :
  (getDistance 0 0 0 0 <? 0)%float = false ∧ withinCircle 0 0 0 0 (-1) = false.
Proof. apply withinCircle_needs_positive_radius. reflexivity. Defined.

(** ** A point that is not a number holds the point pass up *)

Section HeldUp.

Implicit Types (σ : Store) (l : loc) (cs : list Point) (e p q : Point).

(** From a point that is not a number the double-crossing routine passes
    its distance test and answers with two [NaN] points. *)
Lemma getCircleIntersections_nan p bX bY cX cY r :
  isNumber p = false →
  getCircleIntersections (x p) (y p) bX bY cX cY r = Some (nanPoint, nanPoint).
Proof.
  intros [H|H]%isNumber_false; rewrite H;
    unfold getCircleIntersections, getClosestPointOnSegment, getLength, nanPoint;
    nan_simpl; reflexivity.
Qed.

Variables (e q : Point) (r : float).
Hypothesis q_outside : withinCircle (x q) (y q) (x e) (y e) r = false.
Variables path np : loc.

(** A walk that is held up takes a turn, emits a path, and is held up
    again with the same cursors. *)
Lemma heldUp_step σ :
  heldUp q path np σ →
  returns (pointEraseStep r (x e) (y e) path np 0 0)
          (λ st σ', st = (0, 0) ∧ heldUp q path np σ') σ.
Proof.
  intros (op & on & csn & p & more & Hop & Hon & Hne & Hca & Hcp & Hnan & Hcn & Hval).
  pose proof (lookup_lt_Some _ _ _ Hcp) as Hltp.
  pose proof (lookup_lt_Some _ _ _ Hcn) as Hltn.
  pose proof (lookup_lt_Some _ _ _ Hon) as Hlto.
  unfold pointEraseStep.
  apply returns_bind. eapply returns_coordsOf_obj; [done..|].
  apply returns_bind. eapply returns_orThrow; [done|].
  apply returns_bind. eapply returns_orThrow; [done|].
  rewrite (withinCircle_nan p _ _ _ Hnan), q_outside,
    (getCircleIntersections_nan p _ _ _ _ _ Hnan).
  cbn [andb negb].
  apply returns_bind. eapply returns_assignCoords; [done|].
  apply returns_bind. eapply returns_coordsOf_obj; [lookup_tac..|].
  apply returns_bind. eapply returns_orThrow; [done|].
  rewrite (diffPoint_nan_l p nanPoint Hnan).
  apply returns_bind. eapply returns_pushCoord; [lookup_tac..|].
  apply returns_bind. eapply returns_coordsOf_obj; [lookup_tac..|].
  simpl.
  apply returns_bind, returns_bind.
  eapply (returns_createNewPath np [p; nanPoint]).
  { eexists. split_and!; [lookup_tac..|done]. }
  simpl. intros kvs' va Hk.
  unfold returns at 1. simpl.
  apply returns_bind. eapply returns_writeCoord; [lookup_tac..|simpl; lia|].
  simpl.
  apply returns_bind. eapply returns_coordsOf_obj; [lookup_tac..|].
  simpl. rewrite (samePoint_nan_r nanPoint q eq_refl). apply returns_ret.
  split; [done|].
  eexists op, _, _, nanPoint, more. simpl.
  split_and!; [lookup_tac..|]; first [lia | done | by apply attrsValid_app].
Qed.

(** A walk that is held up uses up whatever fuel it is given. *)
Lemma heldUp_forever fuel σ :
  heldUp q path np σ →
  pointEraseWalk r fuel (x e) (y e) path np 0 0 σ = OutOfFuel.
Proof.
  revert σ. induction fuel as [|fuel IH]; intros σ Hst.
  - destruct Hst as (op & on & csn & p & more & Hop & Hon & Hne & Hca & Hcp & _).
    simpl. unfold bind. by rewrite (coordsOf_eq _ _ _ _ Hop Hcp).
  - pose proof (heldUp_step σ Hst) as Hstep.
    destruct Hst as (op & on & csn & p & more & Hop & Hon & Hne & Hca & Hcp & _).
    simpl. unfold bind at 1. rewrite (coordsOf_eq _ _ _ _ Hop Hcp). simpl.
    unfold bind at 1. unfold returns in Hstep.
    destruct (pointEraseStep _ _ _ _ _ _ _ σ) as [[st σ']| |]; [|done..].
    destruct Hstep as [-> Hst']. by apply IH.
Qed.

End HeldUp.

Lemma returns_exhausts {A B} (m : M A) (k : A → M B) σ :
  returns m (λ a σ', k a σ' = OutOfFuel) σ → bind m k σ = OutOfFuel.
Proof. unfold returns, bind. by destruct (m σ) as [[a σ']| |]. Qed.

Lemma exhausts_bind {A B} (m : M A) (k : A → M B) σ :
  m σ = OutOfFuel → bind m k σ = OutOfFuel.
Proof. unfold bind. by intros ->. Qed.

Lemma exhausts_newShell {B} σ path cs (k : loc → M B) :
  pathHas σ path cs →
  (∀ kvs' va,
      attrsValid (valueArrays σ ++ va) kvs' →
      k (length (objects σ))
        (mkStore (coordArrays σ ++ [[]]) (valueArrays σ ++ va)
                 (objects σ ++ [mkPath kvs' (length (coordArrays σ))])
                 (newPaths σ)) = OutOfFuel)
  → (np <- createNewPath path ;; clear np ;;; k np) σ = OutOfFuel.
Proof.
  intros Hp H. apply returns_exhausts. eapply returns_createNewPath; [done|].
  intros kvs' va Hk. apply returns_exhausts. unfold clear.
  apply returns_bind. unfold getObject. simpl.
  eapply returns_orThrow; [by apply list_lookup_middle|]. simpl.
  apply returns_bind. unfold getCoordArray. simpl.
  eapply returns_orThrow; [by apply list_lookup_middle|].
  unfold returns at 1. simpl. rewrite insert_snoc. by apply H.
Qed.

Lemma pointErase_heldUp erasePath e r fuel σ l p q more :
  erasePath !! 0 = Some e →
  pathHas σ l (p :: q :: more) → isNumber p = false →
  withinCircle (x q) (y q) (x e) (y e) r = false →
  pointErase erasePath r fuel l σ = OutOfFuel.
Proof.
  intros He Hp Hnan Hq. unfold pointErase.
  apply returns_exhausts. eapply returns_orThrow; [done|].
  apply returns_exhausts. eapply returns_coordsOf; [done|].
  rewrite decide_False by (simpl; lia).
  change (bind (ret false) ?k ?s) with (k false s). cbv beta iota.
  eapply exhausts_newShell; [done|]. intros kvs' va Hk.
  apply exhausts_bind. apply (heldUp_forever e q r Hq).
  destruct Hp as (o & Ho & Hcs & Hval).
  pose proof (lookup_lt_Some _ _ _ Ho). pose proof (lookup_lt_Some _ _ _ Hcs).
  eexists o, _, [], p, more. simpl.
  split_and!; [lookup_tac..|]; first [lia | done | idtac].
Qed.

(** X16: a point that is not a number holds the point pass up for ever.
    When the first point of the first path has a coordinate that is [NaN]
    and its second point is outside the circle, [erase] with a trail of
    one point does not return, whatever fuel it is given: the double
    crossing it computes is [NaN] again, and the cursor stays where it
    is. *)
Theorem erase_nan_point_never_returns fuel l rest e eraseRadius σ p q more :
  pathHas σ l (p :: q :: more) →
  isNumber p = false →
  withinCircle (x q) (y q) (x e) (y e) (radiusOrDefault eraseRadius) = false →
  erase fuel (l :: rest) [e] eraseRadius σ = OutOfFuel.
Proof.
  intros Hp Hnan Hq. rewrite erase_point_trail.
  apply exhausts_bind. simpl. apply exhausts_bind.
  by eapply pointErase_heldUp.
Qed.

Lemma erase_nan_point_never_returns_witness :
  erase 1000 [0] [pt 0 0] (Some 1%float) nanStore = OutOfFuel.
Proof.
  apply (erase_nan_point_never_returns 1000 0 [] (pt 0 0) (Some 1%float) nanStore
           (pt nan 0) (pt 100 100) []).
  - eexists. split_and!; [reflexivity..|]. by repeat constructor.
  - reflexivity.
  - reflexivity.
Defined.

(** ** [erase] raises no [TypeError] *)

Section Safe.

Context {A B : Type}.
Implicit Types (Q : A → Store → Prop) (σ : Store).

Lemma safe_ret Q (a : A) σ : Q a σ → safe (ret a) Q σ.
Proof. done. Qed.

Lemma safe_bind (m : M A) (k : A → M B) (R : B → Store → Prop) σ :
  safe m (λ a σ', safe (k a) R σ') σ → safe (bind m k) R σ.
Proof. unfold safe, bind. by destruct (m σ) as [[a σ']| |]. Qed.

Lemma safe_mono (m : M A) Q Q' σ :
  (∀ a σ', Q a σ' → Q' a σ') → safe m Q σ → safe m Q' σ.
Proof. unfold safe. intros H. destruct (m σ) as [[a σ']| |]; auto. Qed.

Lemma safe_orThrow (o : option A) Q σ a :
  o = Some a → Q a σ → safe (orThrow o) Q σ.
Proof. by intros ->. Qed.

Lemma safe_outOfFuel Q σ : safe (@outOfFuel A) Q σ.
Proof. done. Qed.

Lemma returns_safe (m : M A) Q σ : returns m Q σ → safe m Q σ.
Proof. unfold returns, safe. by destruct (m σ) as [[a σ']| |]. Qed.

Lemma safe_wp (m : M A) Q (R : A → Store → Prop) σ :
  safe m Q σ → wp m R σ → safe m (λ a σ', Q a σ' ∧ R a σ') σ.
Proof. unfold safe, wp. by destruct (m σ) as [[a σ']| |]. Qed.

Lemma safe_done (m : M A) Q σ a σ' : safe m Q σ → m σ = Done (a, σ') → Q a σ'.
Proof. unfold safe. intros H E. by rewrite E in H. Qed.

Lemma safe_not_throw (m : M A) Q σ : safe m Q σ → m σ ≠ Throw.
Proof. unfold safe. intros H E. by rewrite E in H. Qed.

End Safe.

Section WellFormed.

Implicit Types (σ : Store) (l a c : loc) (cs : list Point).

Lemma wellFormed_newPaths σ nps :
  wellFormed σ →
  wellFormed (mkStore (coordArrays σ) (valueArrays σ) (objects σ) nps).
Proof. done. Qed.

(** Allocation keeps a store well formed when the new objects are. *)
Lemma wellFormed_grow σ ca va oa :
  wellFormed σ →
  Forall (λ o, coords o < length (coordArrays σ ++ ca)
               ∧ attrsValid (valueArrays σ ++ va) (attrs o)) oa →
  wellFormed (mkStore (coordArrays σ ++ ca) (valueArrays σ ++ va)
                      (objects σ ++ oa) (newPaths σ)).
Proof.
  intros Hwf Hnew l o. simpl. intros [Ho|[_ Ho]]%lookup_app_Some.
  - destruct (Hwf _ _ Ho) as [Hc Ha]. split.
    + rewrite length_app. lia.
    + by apply attrsValid_app.
  - rewrite Forall_forall in Hnew. apply Hnew. by eapply list_elem_of_lookup_2.
Qed.

Lemma wellFormed_setCoordArray σ a cs :
  wellFormed σ →
  wellFormed (mkStore (<[a := cs]> (coordArrays σ)) (valueArrays σ)
                      (objects σ) (newPaths σ)).
Proof.
  intros Hwf l o Ho. simpl in *. rewrite length_insert. by apply (Hwf l o).
Qed.

Lemma wellFormed_setObject σ l o a :
  wellFormed σ → objects σ !! l = Some o → a < length (coordArrays σ) →
  wellFormed (mkStore (coordArrays σ) (valueArrays σ)
                      (<[l := mkPath (attrs o) a]> (objects σ)) (newPaths σ)).
Proof.
  intros Hwf Ho Ha l' o'. simpl.
  intros [(-> & <- & _)|[_ Ho']]%list_lookup_insert_Some.
  - split; [done|]. by apply (Hwf _ _ Ho).
  - by apply (Hwf l' o').
Qed.

Lemma wellFormed_pathHas σ l o :
  wellFormed σ → objects σ !! l = Some o →
  ∃ cs, coordArrays σ !! coords o = Some cs ∧ pathHas σ l cs.
Proof.
  intros Hwf Ho. destruct (Hwf _ _ Ho) as [Hc Ha].
  destruct (lookup_lt_is_Some_2 _ _ Hc) as [cs Hcs].
  exists cs. split; [done|]. by exists o.
Qed.

Lemma isPath_pathHas σ l :
  wellFormed σ → isPath σ l → ∃ cs, pathHas σ l cs.
Proof.
  intros Hwf Hl. destruct (lookup_lt_is_Some_2 _ _ Hl) as [o Ho].
  destruct (wellFormed_pathHas _ _ _ Hwf Ho) as (cs & _ & Hp). by exists cs.
Qed.

Lemma ownOrGiven_mono n0 given σ σ' :
  ownOrGiven n0 given σ → newPaths σ' = newPaths σ →
  length (objects σ) ≤ length (objects σ') →
  ownOrGiven n0 given σ'.
Proof.
  unfold ownOrGiven, isPath. intros H -> Hlen.
  eapply Forall_impl; [exact H|]. intros l [??]. split; [lia|done].
Qed.

(** A safe computation on a path that reads its coordinates. *)
Lemma safe_coordsOf σ l (Q : list Point → Store → Prop) :
  wellFormed σ → isPath σ l →
  (∀ o cs, objects σ !! l = Some o → coordArrays σ !! coords o = Some cs → Q cs σ) →
  safe (coordsOf l) Q σ.
Proof.
  intros Hwf Hl HQ. destruct (lookup_lt_is_Some_2 _ _ Hl) as [o Ho].
  destruct (wellFormed_pathHas _ _ _ Hwf Ho) as (cs & Hcs & Hp).
  apply returns_safe. eapply returns_coordsOf; [done|]. by eapply HQ.
Qed.

End WellFormed.

Section WalkSafe.

Variables (n0 : nat) (given : loc → Prop) (path np : loc).
Implicit Types (σ : Store) (l a c : loc) (cs : list Point) (n i last : nat).

Lemma walkOk_weaken n m σ :
  walkOk n0 given path np n σ → m ≤ n → walkOk n0 given path np m σ.
Proof.
  intros [Hwf Hout (o & cs & Ho & Hcs & Hn) Hsh Hne] Hm.
  split; [done..| |done|done]. exists o, cs. split_and!; [done..|lia].
Qed.

Lemma walkOk_coords n σ o cs :
  walkOk n0 given path np n σ →
  objects σ !! path = Some o → coordArrays σ !! coords o = Some cs →
  walkOk n0 given path np (length cs) σ.
Proof.
  intros [Hwf Hout _ Hsh Hne] Ho Hcs.
  split; [done..| |done|done]. by exists o, cs.
Qed.

Lemma walkOk_grow n σ ca va oa :
  walkOk n0 given path np n σ →
  Forall (λ o, coords o < length (coordArrays σ ++ ca)
               ∧ attrsValid (valueArrays σ ++ va) (attrs o)) oa →
  walkOk n0 given path np n
         (mkStore (coordArrays σ ++ ca) (valueArrays σ ++ va)
                  (objects σ ++ oa) (newPaths σ)).
Proof.
  intros [Hwf Hout (o & cs & Ho & Hcs & Hn) [Hn0 Hsh] Hne] Hnew. split.
  - by apply wellFormed_grow.
  - eapply ownOrGiven_mono; [exact Hout|done|]. simpl. rewrite length_app. lia.
  - exists o, cs. simpl. split_and!; [by apply lookup_app_l_Some..|done].
  - split; [done|]. unfold isPath in *. simpl. rewrite length_app. lia.
  - done.
Qed.

Lemma walkOk_setCoordArray n σ a cs cs' :
  walkOk n0 given path np n σ →
  coordArrays σ !! a = Some cs → length cs ≤ length cs' →
  walkOk n0 given path np n
         (mkStore (<[a := cs']> (coordArrays σ)) (valueArrays σ)
                  (objects σ) (newPaths σ)).
Proof.
  intros [Hwf Hout (o & csp & Ho & Hcs & Hn) Hsh Hne] Ha Hlen. split.
  - by apply wellFormed_setCoordArray.
  - done.
  - exists o. simpl. destruct (decide (a = coords o)) as [->|Hd].
    + exists cs'. split_and!; [done| |].
      * apply list_lookup_insert_eq. by eapply lookup_lt_Some.
      * assert (cs = csp) as -> by congruence. lia.
    + exists csp. split_and!; [done| |done]. by rewrite list_lookup_insert_ne.
  - done.
  - done.
Qed.

Lemma walkOk_setShell n σ o a :
  walkOk n0 given path np n σ →
  objects σ !! np = Some o → a < length (coordArrays σ) →
  walkOk n0 given path np n
         (mkStore (coordArrays σ) (valueArrays σ)
                  (<[np := mkPath (attrs o) a]> (objects σ)) (newPaths σ)).
Proof.
  intros [Hwf Hout (op & cs & Ho & Hcs & Hn) [Hn0 Hsh] Hne] Hnp Ha. split.
  - by apply wellFormed_setObject.
  - eapply ownOrGiven_mono; [exact Hout|done|]. simpl. by rewrite length_insert.
  - exists op, cs. simpl. split_and!; [|done..]. by rewrite list_lookup_insert_ne.
  - split; [done|]. unfold isPath in *. simpl. by rewrite length_insert.
  - done.
Qed.

Lemma walkOk_push n σ c :
  walkOk n0 given path np n σ → isPath σ c → n0 ≤ c ∨ given c →
  walkOk n0 given path np n
         (mkStore (coordArrays σ) (valueArrays σ) (objects σ) (newPaths σ ++ [c])).
Proof.
  intros [Hwf Hout Hp Hsh Hne] Hc Hg. split; [done| |done..].
  unfold ownOrGiven in *. simpl. apply Forall_app. split; [done|].
  by apply Forall_singleton.
Qed.

Lemma safe_coordsOf_path n σ (Q : list Point → Store → Prop) :
  walkOk n0 given path np n σ →
  (∀ o cs, objects σ !! path = Some o → coordArrays σ !! coords o = Some cs →
           n ≤ length cs → Q cs σ) →
  safe (coordsOf path) Q σ.
Proof.
  intros [Hwf Hout (o & cs & Ho & Hcs & Hn) Hsh Hne] HQ.
  apply returns_safe. eapply returns_coordsOf_obj; [done..|]. by eapply HQ.
Qed.

Lemma safe_coordsOf_shell n σ (Q : list Point → Store → Prop) :
  walkOk n0 given path np n σ →
  (∀ o cs, objects σ !! np = Some o → coordArrays σ !! coords o = Some cs → Q cs σ) →
  safe (coordsOf np) Q σ.
Proof.
  intros [Hwf Hout _ [_ Hsh] Hne] HQ. by apply safe_coordsOf.
Qed.

Lemma safe_writeCoord n σ i p (Q : unit → Store → Prop) :
  walkOk n0 given path np n σ → i < n →
  (∀ σ', walkOk n0 given path np n σ' → Q tt σ') →
  safe (writeCoord path i p) Q σ.
Proof.
  intros Hok Hi HQ. pose proof Hok as [_ _ (o & cs & Ho & Hcs & Hn) _ _].
  apply returns_safe. eapply returns_writeCoord; [done..|lia|].
  apply HQ. eapply walkOk_setCoordArray; [done..|]. by rewrite length_insert.
Qed.

Lemma safe_pushCoord n σ p (Q : unit → Store → Prop) :
  walkOk n0 given path np n σ →
  (∀ σ', walkOk n0 given path np n σ' → Q tt σ') →
  safe (pushCoord np p) Q σ.
Proof.
  intros Hok HQ. pose proof Hok as [Hwf _ _ [_ Hsh] _].
  destruct (lookup_lt_is_Some_2 _ _ Hsh) as [o Ho].
  destruct (wellFormed_pathHas _ _ _ Hwf Ho) as (cs & Hcs & _).
  apply returns_safe. eapply returns_pushCoord; [done..|].
  apply HQ. eapply walkOk_setCoordArray; [done..|]. rewrite length_app. lia.
Qed.

Lemma safe_assignCoords n σ cs (Q : unit → Store → Prop) :
  walkOk n0 given path np n σ →
  (∀ σ' o, walkOk n0 given path np n σ' →
           objects σ' !! np = Some o → coordArrays σ' !! coords o = Some cs →
           Q tt σ') →
  safe (assignCoords np cs) Q σ.
Proof.
  intros Hok HQ. pose proof Hok as [Hwf _ _ [_ Hsh] _].
  destruct (lookup_lt_is_Some_2 _ _ Hsh) as [o Ho].
  apply returns_safe. eapply returns_assignCoords; [done|].
  pose proof (walkOk_grow n σ [cs] [] [] Hok (Forall_nil_2 _)) as Hok1.
  rewrite !app_nil_r in Hok1.
  eapply HQ.
  - apply (walkOk_setShell n _ o (length (coordArrays σ)) Hok1).
    + done.
    + simpl. rewrite length_app. simpl. lia.
  - simpl. by apply list_lookup_insert_eq.
  - simpl. by apply list_lookup_middle.
Qed.

Lemma safe_createNewPath n σ l (Q : loc → Store → Prop) :
  walkOk n0 given path np n σ → isPath σ l →
  (∀ σ' c, walkOk n0 given path np n σ' → isPath σ' c → n0 ≤ c → Q c σ') →
  safe (createNewPath l) Q σ.
Proof.
  intros Hok Hl HQ. pose proof Hok as [Hwf _ _ [Hn0 Hsh] _].
  destruct (isPath_pathHas _ _ Hwf Hl) as (cs & Hp).
  apply returns_safe. eapply returns_createNewPath; [done|].
  intros kvs' va Hk. apply HQ.
  - apply walkOk_grow; [done|]. apply Forall_singleton. simpl.
    split; [rewrite length_app; simpl; lia|done].
  - unfold isPath. simpl. rewrite length_app. simpl. lia.
  - unfold isPath in Hsh. lia.
Qed.

Lemma safe_pushNewPath n σ c (Q : unit → Store → Prop) :
  walkOk n0 given path np n σ → isPath σ c → n0 ≤ c ∨ given c →
  (∀ σ', walkOk n0 given path np n σ' → Q tt σ') →
  safe (pushNewPath c) Q σ.
Proof. intros Hok Hc Hg HQ. unfold safe. simpl. by apply HQ, walkOk_push. Qed.

Lemma safe_emit n σ (Q : unit → Store → Prop) :
  walkOk n0 given path np n σ →
  (∀ σ', walkOk n0 given path np n σ' → Q tt σ') →
  safe (c <- createNewPath np ;; pushNewPath c) Q σ.
Proof.
  intros Hok HQ. apply safe_bind.
  eapply safe_createNewPath; [done|by destruct Hok as [_ _ _ [_ ?] _]|].
  intros σ1 c Hok1 Hc Hn0. apply (safe_pushNewPath n); auto.
Qed.

Lemma length_slice {T} (k : list T) from to :
  length (slice from to k) = min (to - from) (length k - from).
Proof. unfold slice. by rewrite length_take, length_drop. Qed.

Lemma safe_doubleCrossing n σ i last cs0 q0 q1 (Q : nat * nat → Store → Prop) :
  walkOk n0 given path np n σ →
  last ≤ i → i < length cs0 → i < n →
  (∀ st σ', walkOk n0 given path np n σ' → snd st ≤ fst st → Q st σ') →
  safe (assignCoords np (slice last (i + 1) cs0) ;;;
        ncs <- coordsOf np ;;
        tl <- orThrow (ncs !! (length ncs - 1)) ;;
        (if diffPoint tl q0 then pushCoord np q0 else ret tt) ;;;
        ncs <- coordsOf np ;;
        (if decide (1 < length ncs)
         then c <- createNewPath np ;; pushNewPath c
         else ret tt) ;;;
        writeCoord path i q1 ;;;
        cs <- coordsOf path ;;
        let i' := match cs !! (i + 1) with
                  | Some nxt => if samePoint nxt q1 then i + 1 else i
                  | None => i
                  end in
        ret (i', i')) Q σ.
Proof.
  intros Hok Hlast Hi Hn HQ.
  apply safe_bind. apply (safe_assignCoords n); [done|]. intros σ1 o1 Hok1 Ho1 Hcs1.
  apply safe_bind. apply (safe_coordsOf_shell n); [done|]. intros o cs Ho Hcs.
  assert (cs = slice last (i + 1) cs0) as -> by congruence.
  destruct (lookup_lt_is_Some_2 (slice last (i + 1) cs0)
              (length (slice last (i + 1) cs0) - 1)) as [tl Htl].
  { rewrite length_slice. lia. }
  apply safe_bind. eapply safe_orThrow; [done|].
  apply safe_bind.
  assert (safe (if diffPoint tl q0 then pushCoord np q0 else ret tt)
               (λ _ σ', walkOk n0 given path np n σ') σ1) as Hpush.
  { destruct (diffPoint tl q0); [by apply (safe_pushCoord n)|by apply safe_ret]. }
  eapply safe_mono; [|exact Hpush]. simpl. intros _ σ2 Hok2.
  apply safe_bind. apply (safe_coordsOf_shell n); [done|]. intros o2 ncs _ _.
  apply safe_bind.
  assert (safe (if decide (1 < length ncs)
                then c <- createNewPath np ;; pushNewPath c
                else ret tt)
               (λ _ σ', walkOk n0 given path np n σ') σ2) as Hemit.
  { case_decide; [by apply (safe_emit n)|by apply safe_ret]. }
  eapply safe_mono; [|exact Hemit]. simpl. intros _ σ3 Hok3.
  apply safe_bind. apply (safe_writeCoord n); [done..|]. intros σ4 Hok4.
  apply safe_bind. apply (safe_coordsOf_path n); [done|]. intros o4 cs4 _ _ _.
  apply safe_ret. by apply HQ.
Qed.

Lemma safe_singleCrossing n σ i last cs0 xp (Q : nat * nat → Store → Prop) :
  walkOk n0 given path np n σ →
  (∀ st σ', walkOk n0 given path np n σ' → snd st ≤ fst st → Q st σ') →
  safe (assignCoords np (slice last (i + 1) cs0) ;;;
        pushCoord np xp ;;;
        c <- createNewPath np ;;
        pushNewPath c ;;;
        ret (i + 1, i + 1)) Q σ.
Proof.
  intros Hok HQ.
  apply safe_bind. apply (safe_assignCoords n); [done|]. intros σ1 o1 Hok1 _ _.
  apply safe_bind. apply (safe_pushCoord n); [done|]. intros σ2 Hok2.
  apply safe_bind.
  eapply safe_createNewPath; [done|by destruct Hok2 as [_ _ _ [_ ?] _]|].
  intros σ3 c Hok3 Hc Hn0.
  apply safe_bind. apply (safe_pushNewPath n); auto. intros σ4 Hok4.
  apply safe_ret. by apply HQ.
Qed.

Variable eraseRadius : float.

Lemma safe_pointEraseStep σ eX eY i last :
  walkOk n0 given path np (i + 2) σ → last ≤ i →
  safe (pointEraseStep eraseRadius eX eY path np i last)
       (λ st σ', walkOk n0 given path np 0 σ' ∧ snd st ≤ fst st) σ.
Proof.
  intros Hok Hlast. unfold pointEraseStep.
  assert (∀ st σ', walkOk n0 given path np (i + 2) σ' → snd st ≤ fst st →
                   walkOk n0 given path np 0 σ' ∧ snd st ≤ fst st) as Hpost.
  { intros st σ' H ?. split; [|done]. eapply walkOk_weaken; [exact H|lia]. }
  apply safe_bind. apply (safe_coordsOf_path (i + 2)); [done|].
  intros o cs Ho Hcs Hlen.
  destruct (lookup_lt_is_Some_2 cs i) as [p0 Hp0]; [lia|].
  destruct (lookup_lt_is_Some_2 cs (i + 1)) as [p1 Hp1]; [lia|].
  apply safe_bind. eapply safe_orThrow; [done|].
  apply safe_bind. eapply safe_orThrow; [done|].
  repeat case_match; try (apply safe_ret; apply Hpost; [done|simpl; lia]).
  - apply safe_bind. apply (safe_writeCoord (i + 2)); [done|lia|]. intros σ1 Hok1.
    apply safe_ret. apply Hpost; [done|simpl; lia].
  - by apply (safe_singleCrossing (i + 2)).
  - subst. apply (safe_doubleCrossing (i + 2)); [done|done|lia|lia|done].
Qed.

Lemma safe_capsuleEraseStep σ e0 e1 i last :
  walkOk n0 given path np (i + 2) σ → last ≤ i →
  safe (capsuleEraseStep eraseRadius e0 e1 path np i last)
       (λ st σ', walkOk n0 given path np 0 σ' ∧ snd st ≤ fst st) σ.
Proof.
  intros Hok Hlast. unfold capsuleEraseStep.
  assert (∀ st σ', walkOk n0 given path np (i + 2) σ' → snd st ≤ fst st →
                   walkOk n0 given path np 0 σ' ∧ snd st ≤ fst st) as Hpost.
  { intros st σ' H ?. split; [|done]. eapply walkOk_weaken; [exact H|lia]. }
  apply safe_bind. apply (safe_coordsOf_path (i + 2)); [done|].
  intros o cs Ho Hcs Hlen.
  destruct (lookup_lt_is_Some_2 cs i) as [p0 Hp0]; [lia|].
  destruct (lookup_lt_is_Some_2 cs (i + 1)) as [p1 Hp1]; [lia|].
  apply safe_bind. eapply safe_orThrow; [done|].
  apply safe_bind. eapply safe_orThrow; [done|].
  repeat case_match; try (apply safe_ret; apply Hpost; [done|simpl; lia]).
  - apply safe_bind. apply (safe_writeCoord (i + 2)); [done|lia|]. intros σ1 Hok1.
    apply safe_ret. apply Hpost; [done|simpl; lia].
  - by apply (safe_singleCrossing (i + 2)).
  - subst. apply (safe_doubleCrossing (i + 2)); [done|done|lia|lia|done].
Qed.

Lemma safe_pointEraseWalk fuel σ eX eY i last :
  walkOk n0 given path np 0 σ → last ≤ i →
  safe (pointEraseWalk eraseRadius fuel eX eY path np i last)
       (λ st σ', walkOk n0 given path np 0 σ' ∧ snd st ≤ fst st) σ.
Proof.
  revert σ i last. induction fuel as [|fuel IH]; intros σ i last Hok Hlast; simpl.
  - apply safe_bind. apply (safe_coordsOf_path 0); [done|]. intros o cs _ _ _.
    case_decide; [apply safe_outOfFuel|by apply safe_ret].
  - apply safe_bind. apply (safe_coordsOf_path 0); [done|]. intros o cs Ho Hcs _.
    case_decide; [|by apply safe_ret].
    apply safe_bind. eapply safe_mono; [|apply safe_pointEraseStep; [|done]].
    + intros st σ' [Hok' Hst]. by apply IH.
    + eapply walkOk_weaken; [by eapply walkOk_coords|lia].
Qed.

Lemma safe_capsuleEraseWalk fuel σ e0 e1 i last :
  walkOk n0 given path np 0 σ → last ≤ i →
  safe (capsuleEraseWalk eraseRadius fuel e0 e1 path np i last)
       (λ st σ', walkOk n0 given path np 0 σ' ∧ snd st ≤ fst st) σ.
Proof.
  revert σ i last. induction fuel as [|fuel IH]; intros σ i last Hok Hlast; simpl.
  - apply safe_bind. apply (safe_coordsOf_path 0); [done|]. intros o cs _ _ _.
    case_decide; [apply safe_outOfFuel|by apply safe_ret].
  - apply safe_bind. apply (safe_coordsOf_path 0); [done|]. intros o cs Ho Hcs _.
    case_decide; [|by apply safe_ret].
    apply safe_bind. eapply safe_mono; [|apply safe_capsuleEraseStep; [|done]].
    + intros st σ' [Hok' Hst]. by apply IH.
    + eapply walkOk_weaken; [by eapply walkOk_coords|lia].
Qed.

End WalkSafe.

Section PassSafe.

Variables (n0 : nat) (given : loc → Prop).
Implicit Types (σ : Store) (l a c : loc) (cs : list Point).

Lemma walkOk_passOk path np n σ :
  walkOk n0 given path np n σ → passOk n0 given σ ∧ np < length (objects σ).
Proof.
  intros [Hwf Hout _ [Hn0 Hsh] _]. unfold isPath in Hsh.
  split; [|done]. split_and!; [done| |done]. lia.
Qed.

(** The clone a pass starts from, and the invariant of its walk. *)
Lemma safe_newShell {B} σ path (k : loc → M B) (Q : B → Store → Prop) :
  passOk n0 given σ → isPath σ path →
  (∀ σ', walkOk n0 given path (length (objects σ)) 0 σ' →
         safe (k (length (objects σ))) Q σ') →
  safe (np <- createNewPath path ;; clear np ;;; k np) Q σ.
Proof.
  intros (Hwf & Hn0 & Hout) Hpath H.
  destruct (lookup_lt_is_Some_2 _ _ Hpath) as [o Ho].
  destruct (wellFormed_pathHas _ _ _ Hwf Ho) as (cs & Hcs & Hp).
  apply safe_bind, returns_safe. eapply returns_createNewPath; [done|].
  intros kvs' va Hk. apply safe_bind, returns_safe. unfold clear.
  apply returns_bind. unfold getObject. simpl.
  eapply returns_orThrow; [by apply list_lookup_middle|]. simpl.
  apply returns_bind. unfold getCoordArray. simpl.
  eapply returns_orThrow; [by apply list_lookup_middle|].
  unfold returns at 1. simpl. rewrite insert_snoc. apply H.
  pose proof (lookup_lt_Some _ _ _ Hcs) as Hlt.
  split.
  - apply (wellFormed_grow σ [[]] va [mkPath kvs' (length (coordArrays σ))]); [done|].
    apply Forall_singleton. simpl. split; [rewrite length_app; simpl; lia|done].
  - eapply ownOrGiven_mono; [exact Hout|done|]. simpl. rewrite length_app. lia.
  - exists o, cs. simpl. split_and!; [by apply lookup_app_l_Some..|lia].
  - split; [done|]. unfold isPath. simpl. rewrite length_app. simpl. lia.
  - unfold isPath in Hpath. lia.
Qed.

Lemma safe_pointErase_flush σ path np (st : nat * nat) :
  walkOk n0 given path np 0 σ →
  safe (if decide (snd st ≠ fst st) then
          cs <- coordsOf path ;;
          assignCoords np (slice (snd st) (length cs) cs) ;;;
          ncs <- coordsOf np ;;
          if decide (0 < length ncs) then pushNewPath np else ret tt
        else ret tt) (λ _ σ', walkOk n0 given path np 0 σ') σ.
Proof.
  intros Hok. case_decide; [|by apply safe_ret].
  apply safe_bind. apply (safe_coordsOf_path n0 given path np 0); [done|].
  intros o cs _ _ _.
  apply safe_bind. apply (safe_assignCoords n0 given path np 0); [done|].
  intros σ1 o1 Hok1 _ _.
  apply safe_bind. apply (safe_coordsOf_shell n0 given path np 0); [done|].
  intros o2 ncs _ _.
  case_decide; [|by apply safe_ret].
  pose proof Hok1 as [_ _ _ [Hn0 Hsh] _].
  apply (safe_pushNewPath n0 given path np 0); auto.
Qed.

Lemma safe_capsuleErase_flush σ path np (st : nat * nat) :
  walkOk n0 given path np 0 σ →
  safe (if decide (snd st ≠ fst st) then
          cs <- coordsOf path ;;
          assignCoords np (slice (snd st) (length cs) cs) ;;;
          ncs <- coordsOf np ;;
          if decide (0 < length ncs)
          then c <- createNewPath np ;; pushNewPath c
          else ret tt
        else ret tt) (λ _ σ', walkOk n0 given path np 0 σ') σ.
Proof.
  intros Hok. case_decide; [|by apply safe_ret].
  apply safe_bind. apply (safe_coordsOf_path n0 given path np 0); [done|].
  intros o cs _ _ _.
  apply safe_bind. apply (safe_assignCoords n0 given path np 0); [done|].
  intros σ1 o1 Hok1 _ _.
  apply safe_bind. apply (safe_coordsOf_shell n0 given path np 0); [done|].
  intros o2 ncs _ _.
  case_decide; [|by apply safe_ret].
  by apply (safe_emit n0 given path np 0).
Qed.


Lemma safe_single σ path cs (test : Point → bool) (rest : M unit) :
  passOk n0 given σ → isPath σ path →
  (length cs = 1 → n0 ≤ path ∨ given path) →
  safe rest (passKeeps n0 given σ) σ →
  safe (single <-
          (if decide (length cs = 1) then
             p <- orThrow (cs !! 0) ;; ret (test p)
           else ret false) ;;
        if (single : bool) then pushNewPath path else rest)
       (passKeeps n0 given σ) σ.
Proof.
  intros (Hwf & Hn0 & Hout) Hpath Hdot Hrest. apply safe_bind.
  case_decide as Hlen.
  - destruct cs as [|p [|??]]; try done.
    apply safe_bind. eapply safe_orThrow; [done|]. apply safe_ret.
    destruct (test p); [|done].
    unfold safe. simpl. split; [|done]. split_and!; [done..|].
    unfold ownOrGiven in *. simpl. apply Forall_app. split; [done|].
    apply Forall_singleton. split; [done|]. by apply Hdot.
  - by apply safe_ret.
Qed.

Lemma safe_pointErase erasePath e r fuel σ path :
  erasePath !! 0 = Some e →
  passOk n0 given σ → isPath σ path →
  (∀ o cs, objects σ !! path = Some o → coordArrays σ !! coords o = Some cs →
           length cs = 1 → n0 ≤ path ∨ given path) →
  safe (pointErase erasePath r fuel path) (passKeeps n0 given σ) σ.
Proof.
  intros He Hok Hpath Hdot. unfold pointErase.
  apply safe_bind. eapply safe_orThrow; [done|].
  apply safe_bind. apply safe_coordsOf; [by destruct Hok|done|]. intros o cs Ho Hcs.
  apply safe_single; [done..|by eapply Hdot|].
  apply safe_newShell; [done..|]. intros σ1 Hok1.
  apply safe_bind. eapply safe_mono; [|by apply safe_pointEraseWalk].
  simpl. intros st σ2 [Hok2 _].
  eapply safe_mono; [|by apply safe_pointErase_flush].
  intros ? σ3 Hok3. destruct (walkOk_passOk _ _ _ _ Hok3). split; [done|lia].
Qed.

Lemma safe_capsuleErase erasePath k e0 e1 r fuel σ path :
  erasePath !! k = Some e0 → erasePath !! (k + 1) = Some e1 →
  passOk n0 given σ → isPath σ path →
  (∀ o cs, objects σ !! path = Some o → coordArrays σ !! coords o = Some cs →
           length cs = 1 → n0 ≤ path ∨ given path) →
  safe (capsuleErase erasePath r fuel path k) (passKeeps n0 given σ) σ.
Proof.
  intros He0 He1 Hok Hpath Hdot. unfold capsuleErase.
  apply safe_bind. eapply safe_orThrow; [done|].
  apply safe_bind. eapply safe_orThrow; [done|].
  apply safe_bind. apply safe_coordsOf; [by destruct Hok|done|]. intros o cs Ho Hcs.
  apply safe_single; [done..|by eapply Hdot|].
  apply safe_newShell; [done..|]. intros σ1 Hok1.
  apply safe_bind. eapply safe_mono; [|by apply safe_capsuleEraseWalk].
  simpl. intros st σ2 [Hok2 _].
  eapply safe_mono; [|by apply safe_capsuleErase_flush].
  intros ? σ3 Hok3. destruct (walkOk_passOk _ _ _ _ Hok3). split; [done|lia].
Qed.

End PassSafe.

Section EraseSafe.

Variables (σ0 : Store) (given : loc → Prop).
Implicit Types (σ : Store) (l a c : loc) (cs : list Point).

Lemma safe_forEach (f : loc → M unit) paths σ :
  (∀ p σ1, passOk (length (objects σ0)) given σ1 → isPath σ1 p →
           (∀ o cs, objects σ1 !! p = Some o → coordArrays σ1 !! coords o = Some cs →
                    length cs = 1 → length (objects σ0) ≤ p ∨ given p) →
           safe (f p) (passKeeps (length (objects σ0)) given σ1) σ1) →
  (∀ p σ1, passInv σ0 σ1 → wp (f p) (λ _ σ', passInv σ0 σ') σ1) →
  Forall (λ p, isPath σ p
               ∧ ∀ σ1 o cs, extends σ0 σ1 → objects σ1 !! p = Some o →
                            coordArrays σ1 !! coords o = Some cs → length cs = 1 →
                            length (objects σ0) ≤ p ∨ given p) paths →
  passOk (length (objects σ0)) given σ → passInv σ0 σ →
  safe (forEach f paths)
       (λ _ σ', passOk (length (objects σ0)) given σ' ∧ passInv σ0 σ'
                ∧ length (objects σ) ≤ length (objects σ')) σ.
Proof.
  intros Hsafe Hwp. revert σ.
  induction paths as [|p paths IH]; intros σ Hall Hok Hinv; simpl.
  - by apply safe_ret.
  - apply Forall_cons in Hall as [[Hp Hdot] Hall].
    apply safe_bind.
    eapply safe_mono; [|apply safe_wp; [apply Hsafe|apply Hwp]]; try done.
    + intros ? σ1 [[Hok1 Hlen] Hinv1].
      eapply safe_mono; [|apply IH; [|done..]].
      * simpl. intros ? σ2 (? & ? & ?). split_and!; [done..|lia].
      * eapply Forall_impl; [exact Hall|]. intros q [Hq Hd]. split; [|done].
        unfold isPath in *. lia.
    + intros o cs Ho Hcs Hlen. eapply Hdot; [|done..]. by destruct Hinv.
Qed.

Lemma passInv_taken σ :
  passInv σ0 σ →
  passInv σ0 (mkStore (coordArrays σ) (valueArrays σ) (objects σ) []).
Proof. intros [Hext _]. split; [done|]. by apply Forall_nil_2. Qed.

Lemma passOk_taken n0 σ :
  passOk n0 given σ →
  passOk n0 given (mkStore (coordArrays σ) (valueArrays σ) (objects σ) []).
Proof. intros (? & ? & _). split_and!; [done..|]. by apply Forall_nil_2. Qed.

Lemma safe_capsuleChain fuel (t : list Point) r es paths σ :
  (∀ k, k ∈ es → k + 1 < length t) →
  Forall (λ p, isPath σ p
               ∧ ∀ σ1 o cs, extends σ0 σ1 → objects σ1 !! p = Some o →
                            coordArrays σ1 !! coords o = Some cs → length cs = 1 →
                            length (objects σ0) ≤ p ∨ given p) paths →
  (es = [] → Forall (λ p, length (objects σ0) ≤ p ∨ given p) paths) →
  passOk (length (objects σ0)) given σ → passInv σ0 σ →
  safe (capsuleChain fuel t r es paths)
       (λ out σ', wellFormed σ'
                  ∧ Forall (λ l, isPath σ' l ∧ (length (objects σ0) ≤ l ∨ given l)) out) σ.
Proof.
  revert paths σ. induction es as [|k es IH]; intros paths σ Hes Hall Hnil Hok Hinv; simpl.
  - apply safe_ret. split; [by destruct Hok|].
    specialize (Hnil eq_refl). rewrite Forall_forall in Hall, Hnil |- *.
    intros l Hl. split; [by apply Hall|by apply Hnil].
  - assert (k + 1 < length t) as Hk by (apply Hes; by left).
    destruct (lookup_lt_is_Some_2 t k) as [e0 He0]; [lia|].
    destruct (lookup_lt_is_Some_2 t (k + 1)) as [e1 He1]; [lia|].
    apply safe_bind.
    eapply safe_mono; [|apply safe_forEach; [| |exact Hall|done|done]].
    + intros ? σ1 (Hok1 & Hinv1 & Hlen).
      apply safe_bind. unfold safe at 1. simpl.
      pose proof Hok1 as (_ & _ & Hout). unfold ownOrGiven in Hout.
      apply IH.
      * intros k' Hk'. apply Hes. by right.
      * eapply Forall_impl; [exact Hout|]. intros l [Hl Hg]. split; [done|]. auto.
      * intros _. eapply Forall_impl; [exact Hout|]. by intros l [_ Hg].
      * by apply passOk_taken.
      * by apply passInv_taken.
    + intros p σ1 Hok1 Hp Hdot. by eapply safe_capsuleErase.
    + intros p σ1 Hinv1. by apply inv_capsuleErase.
Qed.

End EraseSafe.

Lemma extends_refl σ nps :
  extends σ (mkStore (coordArrays σ) (valueArrays σ) (objects σ) nps).
Proof. split_and!; [done..|]. intros a cs Ha. by exists cs. Qed.

(** The paths of the caller that a pass may push as they are have a single
    point in the store of the caller. *)
Lemma given_dot σ paths p :
  wellFormed σ → p ∈ paths →
  ∀ σ1 o cs, extends σ σ1 → objects σ1 !! p = Some o →
             coordArrays σ1 !! coords o = Some cs → length cs = 1 →
             length (objects σ) ≤ p ∨ givenDot σ paths p.
Proof.
  intros Hwf Hp σ1 o cs (Hobj & _ & Hca) Ho Hcs Hlen.
  destruct (decide (length (objects σ) ≤ p)) as [|Hlt]; [by left|right].
  destruct (lookup_lt_is_Some_2 (objects σ) p) as [o0 Ho0]; [lia|].
  pose proof (Hobj _ _ Ho0) as Ho1. assert (o = o0) as -> by congruence.
  destruct (wellFormed_pathHas _ _ _ Hwf Ho0) as (cs0 & Hcs0 & _).
  destruct (Hca _ _ Hcs0) as (cs' & Hcs' & Hl).
  assert (cs' = cs) as -> by congruence.
  split; [done|]. destruct cs0 as [|q [|??]]; simpl in *; try lia.
  exists q. unfold coordsIn. rewrite Ho0. done.
Qed.

Lemma safe_erase fuel paths trail r σ :
  wellFormed σ → Forall (isPath σ) paths → trail ≠ [] →
  safe (erase fuel paths trail r)
       (λ out σ', wellFormed σ'
                  ∧ Forall (λ l, isPath σ' l
                                 ∧ (length (objects σ) ≤ l ∨ givenDot σ paths l)) out) σ.
Proof.
  intros Hwf Hpaths Hne.
  destruct (cleanPath_nonempty trail Hne) as (t & Ht & Hne').
  unfold erase.
  apply safe_bind. unfold safe at 1. simpl.
  apply safe_bind. eapply safe_orThrow; [done|].
  set (σ1 := mkStore _ _ _ _).
  assert (passOk (length (objects σ)) (givenDot σ paths) σ1) as Hok.
  { split_and!; [done|done|by apply Forall_nil_2]. }
  assert (passInv σ σ1) as Hinv.
  { split; [apply extends_refl|by apply Forall_nil_2]. }
  assert (Forall (λ p, isPath σ1 p
                       ∧ ∀ σ2 o cs, extends σ σ2 → objects σ2 !! p = Some o →
                                    coordArrays σ2 !! coords o = Some cs →
                                    length cs = 1 →
                                    length (objects σ) ≤ p ∨ givenDot σ paths p) paths)
    as Hall.
  { rewrite Forall_forall in Hpaths |- *. intros p Hp. split; [by apply Hpaths|].
    by apply given_dot. }
  case_decide as Hlen.
  - destruct t as [|e [|??]]; try done.
    apply safe_bind.
    eapply safe_mono; [|apply (safe_forEach σ (givenDot σ paths)); [| |exact Hall|done|done]].
    + intros ? σ2 (Hok2 & _ & _). unfold safe. simpl.
      destruct Hok2 as (? & _ & Hout). by split.
    + intros p σ2 Hok2 Hp Hdot. by eapply safe_pointErase.
    + intros p σ2 Hinv2. by apply inv_pointErase.
  - apply (safe_capsuleChain σ (givenDot σ paths)); [|done| |done|done].
    + unfold capsuleIndices. intros k [_ Hk]%elem_of_seq. lia.
    + unfold capsuleIndices. intros Hnil. exfalso.
      destruct t as [|? [|??]]; simpl in *; done.
Qed.

Lemma diagonalStore_wellFormed : wellFormed diagonalStore.
Proof.
  intros [|l] o; [|done]. intros [= <-]. split; [simpl; lia|].
  by repeat constructor.
Qed.

(** X17: [erase] raises no [TypeError] on a well-formed store: when every
    path object has its arrays, the paths given are path objects and the
    trail is not empty, every array read of the two passes is within
    bounds, so [erase] returns, or is still walking when the fuel runs
    out. *)
Theorem erase_no_type_error fuel paths trail eraseRadius σ :
  wellFormed σ → Forall (isPath σ) paths → trail ≠ [] →
  erase fuel paths trail eraseRadius σ = OutOfFuel
  ∨ ∃ out σ', erase fuel paths trail eraseRadius σ = Done (out, σ').
Proof.
  intros Hwf Hpaths Hne.
  pose proof (safe_erase fuel paths trail eraseRadius σ Hwf Hpaths Hne) as Hs.
  unfold safe in Hs.
  destruct (erase fuel paths trail eraseRadius σ) as [[out σ']| |]; [|done|by left].
  right. by exists out, σ'.
Qed.

Lemma erase_no_type_error_witness :
  erase 2 [0] [pt 50 50] (Some 10%float) diagonalStore = OutOfFuel
  ∨ ∃ out σ', erase 2 [0] [pt 50 50] (Some 10%float) diagonalStore = Done (out, σ').
Proof.
  apply erase_no_type_error.
  - apply diagonalStore_wellFormed.
  - apply Forall_singleton. unfold isPath. simpl. lia.
  - done.
Defined.

(** X18: what [erase] returns can be given to [erase] again: from a
    well-formed store and path objects, the store [erase] leaves is well
    formed and every path it returns is a path object of that store. *)
Theorem erase_result_well_formed fuel paths trail eraseRadius σ out σ' :
  wellFormed σ → Forall (isPath σ) paths →
  erase fuel paths trail eraseRadius σ = Done (out, σ') →
  wellFormed σ' ∧ Forall (isPath σ') out.
Proof.
  intros Hwf Hpaths Hrun.
  destruct trail as [|e trail]; [done|].
  pose proof (safe_erase fuel paths (e :: trail) eraseRadius σ Hwf Hpaths) as Hs.
  destruct (safe_done _ _ _ _ _ (Hs ltac:(done)) Hrun) as [Hwf' Hout].
  split; [done|]. eapply Forall_impl; [exact Hout|]. by intros l [? _].
Qed.

Lemma erase_result_well_formed_witness :
  wellFormed diagonalAfter ∧ Forall (isPath diagonalAfter) [2; 1].
Proof.
  apply (erase_result_well_formed 2 [0] [pt 50 50] (Some 10%float) diagonalStore).
  - apply diagonalStore_wellFormed.
  - apply Forall_singleton. unfold isPath. simpl. lia.
  - by vm_compute.
Defined.

(** X19: every path [erase] returns is an object [erase] created, or a
    path of the caller that has a single point, returned as it was given:
    a path of two points or more is never returned as the caller's
    object. *)
Theorem erase_returns_own_paths fuel paths trail eraseRadius σ out σ' :
  wellFormed σ → Forall (isPath σ) paths →
  erase fuel paths trail eraseRadius σ = Done (out, σ') →
  Forall (λ l, length (objects σ) ≤ l ∨ givenDot σ paths l) out.
Proof.
  intros Hwf Hpaths Hrun.
  destruct trail as [|e trail]; [done|].
  pose proof (safe_erase fuel paths (e :: trail) eraseRadius σ Hwf Hpaths) as Hs.
  destruct (safe_done _ _ _ _ _ (Hs ltac:(done)) Hrun) as [Hwf' Hout].
  eapply Forall_impl; [exact Hout|]. by intros l [_ ?].
Qed.

Lemma erase_returns_own_paths_witness :
  Forall (λ l, length (objects diagonalStore) ≤ l ∨ givenDot diagonalStore [0] l) [2; 1].
Proof.
  apply (erase_returns_own_paths 2 [0] [pt 50 50] (Some 10%float) diagonalStore
           [2; 1] diagonalAfter).
  - apply diagonalStore_wellFormed.
  - apply Forall_singleton. unfold isPath. simpl. lia.
  - by vm_compute.
Defined.

(** ** A point that is not a number and the capsule pass *)

(** X20: a point with a coordinate that is not a number is reported
    outside both end circles of every capsule and inside its box: all the
    comparisons of [withinBox] fail, and it answers 1. *)
Theorem withinCapsule_nan_point p e0 e1 r :
  isNumber p = false →
  withinCapsule (x p) (y p) (x e0) (y e0) (x e1) (y e1) r = mkIndex false false true.
Proof.
  intros Hnan. unfold withinCapsule.
  by rewrite !withinCircle_nan, withinBox_nan_point.
Qed.

Lemma withinCapsule_nan_point_witness :
  withinCapsule nan 0 0 0 10 0 1 = mkIndex false false true.
Proof. apply (withinCapsule_nan_point (pt nan 0) (pt 0 0) (pt 10 0)). reflexivity. Defined.

Section HeldUpCapsule.

Implicit Types (σ : Store) (l : loc) (cs : list Point) (e p q : Point).

Lemma getDistance_nan p tX tY :
  isNumber p = false → getDistance (x p) (y p) tX tY = nan.
Proof.
  intros [H|H]%isNumber_false; rewrite H; unfold getDistance; nan_simpl; reflexivity.
Qed.

(** Nothing is closer to the target than a start that is not a number. *)
Lemma closestTo_nan tX tY start candidates :
  isNumber start = false → closestTo tX tY start candidates = start.
Proof.
  intros Hnan. unfold closestTo.
  induction candidates as [|[c|] candidates IH]; simpl; [done| |done].
  by rewrite (getDistance_nan start), ltb_nan_r.
Qed.

(** From a point that is not a number the single-crossing routine of the
    capsule answers with that point. *)
Lemma getCapsuleIntersection_nan p li bX bY c0_x c0_y c1_x c1_y r :
  isNumber p = false →
  getCapsuleIntersection (x p) (y p) li bX bY c0_x c0_y c1_x c1_y r = Some p.
Proof.
  intros Hnan. unfold getCapsuleIntersection.
  assert (mkPoint (x p) (y p) = p) as Heta by (by destruct p).
  rewrite Heta, closestTo_nan by done.
  unfold Num.seq. destruct (isNumber_false _ Hnan) as [H|H]; rewrite H.
  - by rewrite eqb_nan_l.
  - by rewrite eqb_nan_l, andb_false_r.
Qed.

Variables (e0 e1 q : Point) (r : float).
Hypothesis q_outside :
  hasOne (withinCapsule (x q) (y q) (x e0) (y e0) (x e1) (y e1) r) = false.
Variables path np : loc.

(** A walk that is held up takes a turn and is held up again with the
    same cursors. *)
Lemma heldUp_capsule_step σ :
  heldUp q path np σ →
  returns (capsuleEraseStep r e0 e1 path np 0 0)
          (λ st σ', st = (0, 0) ∧ heldUp q path np σ') σ.
Proof.
  intros (op & on & csn & p & more & Hop & Hon & Hne & Hca & Hcp & Hnan & Hcn & Hval).
  pose proof (lookup_lt_Some _ _ _ Hcp) as Hltp.
  unfold capsuleEraseStep.
  apply returns_bind. eapply returns_coordsOf_obj; [done..|].
  apply returns_bind. eapply returns_orThrow; [done|].
  apply returns_bind. eapply returns_orThrow; [done|].
  rewrite q_outside, (withinCapsule_nan_point p e0 e1 r Hnan).
  cbn [hasOne inStart inEnd inBox orb andb negb].
  rewrite getCapsuleIntersection_nan by done.
  apply returns_bind. eapply returns_writeCoord; [done..|simpl; lia|].
  apply returns_ret. split; [done|].
  exists op, on, csn, p, more. simpl.
  split_and!; try done; lookup_tac.
Qed.

Lemma heldUp_capsule_forever fuel σ :
  heldUp q path np σ →
  capsuleEraseWalk r fuel e0 e1 path np 0 0 σ = OutOfFuel.
Proof.
  revert σ. induction fuel as [|fuel IH]; intros σ Hst.
  - destruct Hst as (op & on & csn & p & more & Hop & Hon & Hne & Hca & Hcp & _).
    simpl. unfold bind. by rewrite (coordsOf_eq _ _ _ _ Hop Hcp).
  - pose proof (heldUp_capsule_step σ Hst) as Hstep.
    destruct Hst as (op & on & csn & p & more & Hop & Hon & Hne & Hca & Hcp & _).
    simpl. unfold bind at 1. rewrite (coordsOf_eq _ _ _ _ Hop Hcp). simpl.
    unfold bind at 1. unfold returns in Hstep.
    destruct (capsuleEraseStep _ _ _ _ _ _ _ σ) as [[st σ']| |]; [|done..].
    destruct Hstep as [-> Hst']. by apply IH.
Qed.

End HeldUpCapsule.

Lemma capsuleErase_heldUp erasePath k e0 e1 r fuel σ l p q more :
  erasePath !! k = Some e0 → erasePath !! (k + 1) = Some e1 →
  pathHas σ l (p :: q :: more) → isNumber p = false →
  hasOne (withinCapsule (x q) (y q) (x e0) (y e0) (x e1) (y e1) r) = false →
  capsuleErase erasePath r fuel l k σ = OutOfFuel.
Proof.
  intros He0 He1 Hp Hnan Hq. unfold capsuleErase.
  apply returns_exhausts. eapply returns_orThrow; [done|].
  apply returns_exhausts. eapply returns_orThrow; [done|].
  apply returns_exhausts. eapply returns_coordsOf; [done|].
  rewrite decide_False by (simpl; lia).
  change (bind (ret false) ?k ?s) with (k false s). cbv beta iota.
  eapply exhausts_newShell; [done|]. intros kvs' va Hk.
  apply exhausts_bind. apply (heldUp_capsule_forever e0 e1 q r Hq).
  destruct Hp as (o & Ho & Hcs & Hval).
  pose proof (lookup_lt_Some _ _ _ Ho). pose proof (lookup_lt_Some _ _ _ Hcs).
  eexists o, _, [], p, more. simpl.
  split_and!; [lookup_tac..|]; first [lia | done | idtac].
Qed.

(** X21: a point that is not a number holds the capsule pass up as well.
    When the first point of the first path has a coordinate that is [NaN]
    and its second point is outside the first capsule of the cleaned trail,
    [erase] does not return, whatever fuel it is given: the crossing the
    capsule routine answers with is the [NaN] point itself, and the cursor
    stays where it is. *)
Theorem erase_nan_point_holds_capsule_pass
        fuel l others trail e0 e1 rest eraseRadius σ p q more :
  cleanPath trail = Some (e0 :: e1 :: rest) →
  pathHas σ l (p :: q :: more) →
  isNumber p = false →
  hasOne (withinCapsule (x q) (y q) (x e0) (y e0) (x e1) (y e1)
                        (radiusOrDefault eraseRadius)) = false →
  erase fuel (l :: others) trail eraseRadius σ = OutOfFuel.
Proof.
  intros Hc Hp Hnan Hq. rewrite (erase_cleaned _ _ _ _ _ _ Hc).
  rewrite decide_False by (simpl; lia).
  rewrite (capsuleIndices_split _ 0) by (simpl; lia). simpl.
  apply exhausts_bind, exhausts_bind.
  by eapply (capsuleErase_heldUp _ 0 e0 e1).
Qed.

Lemma erase_nan_point_holds_capsule_pass_witness :
  erase 1000 [0] [pt 0 0; pt 10 0] (Some 1%float) nanStore = OutOfFuel.
Proof.
  apply (erase_nan_point_holds_capsule_pass 1000 0 [] [pt 0 0; pt 10 0] (pt 0 0) (pt 10 0) []
           (Some 1%float) nanStore (pt nan 0) (pt 100 100) []).
  - reflexivity.
  - eexists. split_and!; [reflexivity..|]. by repeat constructor.
  - reflexivity.
  - reflexivity.
Defined.

(** ** Erasing along a trail, one stretch after the other *)

Section TrailSplit.

Implicit Types (σ : Store) (l : loc) (t : list Point) (es : list nat).

(** A capsule pass reads the trail at its two indices only. *)
Lemma capsuleErase_lookup t t' r fuel p k k' σ :
  t !! k = t' !! k' → t !! (k + 1) = t' !! (k' + 1) →
  capsuleErase t r fuel p k σ = capsuleErase t' r fuel p k' σ.
Proof.
  intros H1 H2. unfold capsuleErase, bind at 1 3. rewrite H1.
  destruct (t' !! k') as [e0|]; [|done]. simpl.
  unfold bind at 1 3. rewrite H2. done.
Qed.

Lemma forEach_ext (f g : loc → M unit) paths σ :
  (∀ p σ', f p σ' = g p σ') → forEach f paths σ = forEach g paths σ.
Proof.
  intros Hfg. revert σ. induction paths as [|p paths IH]; intros σ; [done|].
  simpl. unfold bind. rewrite Hfg. by destruct (g p σ) as [[[] σ']| |].
Qed.

Lemma capsuleChain_reindex fuel t t' r (g : nat → nat) es paths σ :
  (∀ k, k ∈ es → t !! k = t' !! g k ∧ t !! (k + 1) = t' !! (g k + 1)) →
  capsuleChain fuel t r es paths σ = capsuleChain fuel t' r (g <$> es) paths σ.
Proof.
  revert paths σ. induction es as [|k es IH]; intros paths σ Hes; [done|].
  destruct (Hes k) as [H1 H2]; [by left|].
  simpl. unfold bind at 1 3.
  rewrite (forEach_ext _ (λ p, capsuleErase t' r fuel p (g k))).
  2:{ intros p σ'. by apply capsuleErase_lookup. }
  destruct (forEach _ paths σ) as [[[] σ1]| |]; [|done..].
  unfold bind, takeNewPaths. apply IH. intros k' Hk'. apply Hes. by right.
Qed.

Lemma capsuleChain_app fuel t r es1 es2 paths σ :
  capsuleChain fuel t r (es1 ++ es2) paths σ
  = (out <- capsuleChain fuel t r es1 paths ;; capsuleChain fuel t r es2 out) σ.
Proof.
  revert paths σ. induction es1 as [|k es1 IH]; intros paths σ; [done|].
  simpl. unfold bind in *.
  destruct (forEach _ paths σ) as [[[] σ1]| |]; [|done..].
  unfold takeNewPaths. apply IH.
Qed.

(** A chain of one pass or more leaves the variable [newPaths] empty. *)
Lemma capsuleChain_newPaths fuel t r es paths σ out σ' :
  es ≠ [] ∨ newPaths σ = [] →
  capsuleChain fuel t r es paths σ = Done (out, σ') → newPaths σ' = [].
Proof.
  revert paths σ. induction es as [|k es IH]; intros paths σ Hes.
  - destruct Hes as [|Hnil]; [done|]. simpl. by intros [= _ <-].
  - simpl. unfold bind at 1.
    destruct (forEach _ paths σ) as [[[] σ1]| |]; [|done..].
    unfold bind, takeNewPaths. apply IH. by right.
Qed.

Lemma adjacentDiffer_app (t1 t2 : list Point) :
  adjacentDiffer (t1 ++ t2) → adjacentDiffer t1 ∧ adjacentDiffer t2.
Proof.
  induction t1 as [|p [|q t1] IH]; simpl.
  - done.
  - destruct t2; [done|]. by intros [_ ?].
  - intros [Hpq H]. destruct (IH H) as [??]. done.
Qed.

Lemma erase_capsules fuel paths t r σ :
  adjacentDiffer t → 2 ≤ length t →
  erase fuel paths t r σ
  = capsuleChain fuel t (radiusOrDefault r) (seq 0 (length t - 1)) paths
                 (mkStore (coordArrays σ) (valueArrays σ) (objects σ) []).
Proof.
  intros Hadj Hlen.
  rewrite (erase_cleaned _ _ t t).
  - by rewrite decide_False by lia.
  - apply cleanPath_fixed; [|done]. intros ->. simpl in Hlen. lia.
Qed.

End TrailSplit.

(** X22: erasing along a trail is erasing along its first stretch and
    then, on what that returns, along the rest.  For a trail with no
    repeated neighbour that is cut at an inner point [b], [erase] with the
    whole trail does what [erase] with the stretch up to [b] followed by
    [erase] with the stretch from [b] does, result and store alike. *)
Theorem erase_trail_split fuel paths t1 b t2 eraseRadius σ :
  t1 ≠ [] → t2 ≠ [] → adjacentDiffer (t1 ++ b :: t2) →
  erase fuel paths (t1 ++ b :: t2) eraseRadius σ
  = (out <- erase fuel paths (t1 ++ [b]) eraseRadius ;;
     erase fuel out (b :: t2) eraseRadius) σ.
Proof.
  intros Hne1 Hne2 Hadj.
  assert (adjacentDiffer (t1 ++ [b])) as Hadj1.
  { replace (t1 ++ b :: t2) with ((t1 ++ [b]) ++ t2) in Hadj
      by (by rewrite <- app_assoc).
    by apply adjacentDiffer_app in Hadj as [? _]. }
  assert (adjacentDiffer (b :: t2)) as Hadj2.
  { by apply adjacentDiffer_app in Hadj as [_ ?]. }
  assert (0 < length t1 ∧ 0 < length t2) as [Hl1 Hl2].
  { destruct t1, t2; simpl; try done; lia. }
  rewrite erase_capsules by (done || rewrite length_app; simpl; lia).
  unfold bind at 1.
  rewrite erase_capsules by (done || rewrite length_app; simpl; lia).
  set (σ0 := mkStore _ _ _ _). set (R := radiusOrDefault eraseRadius).
  replace (length (t1 ++ b :: t2) - 1) with (length t1 + length t2)
    by (rewrite length_app; simpl; lia).
  replace (length (t1 ++ [b]) - 1) with (length t1)
    by (rewrite length_app; simpl; lia).
  rewrite seq_app, capsuleChain_app. unfold bind at 1.
  rewrite (capsuleChain_reindex fuel (t1 ++ [b]) (t1 ++ b :: t2) R id).
  2:{ intros k [_ Hk]%elem_of_seq. simpl in Hk. unfold id.
      replace (t1 ++ b :: t2) with ((t1 ++ [b]) ++ t2) by (by rewrite <- app_assoc).
      rewrite !(lookup_app_l (t1 ++ [b])) by (rewrite length_app; simpl; lia).
      done. }
  rewrite list_fmap_id.
  destruct (capsuleChain fuel (t1 ++ b :: t2) R (seq 0 (length t1)) paths σ0)
    as [[out σ1]| |] eqn:Hrun; [|done..].
  assert (newPaths σ1 = []) as Hnil.
  { eapply capsuleChain_newPaths; [|exact Hrun]. left. by destruct t1. }
  rewrite erase_capsules by (done || simpl; lia).
  rewrite <- Hnil, <- store_eta. simpl length.
  replace (S (length t2) - 1) with (length t2) by lia.
  rewrite (capsuleChain_reindex fuel (b :: t2) (t1 ++ b :: t2) R (Nat.add (length t1))).
  2:{ intros k [_ Hk]%elem_of_seq. simpl in Hk.
      rewrite !(lookup_app_r t1) by lia.
      split; f_equal; lia. }
  by rewrite fmap_add_seq, Nat.add_0_r.
Qed.

Lemma erase_trail_split_witness :
  erase 2 [0] ([pt 1000 0] ++ pt 1000 500 :: [pt 50 50]) (Some 100%float) diagonalStore
  = (out <- erase 2 [0] ([pt 1000 0] ++ [pt 1000 500]) (Some 100%float) ;;
     erase 2 out (pt 1000 500 :: [pt 50 50]) (Some 100%float)) diagonalStore.
Proof. apply erase_trail_split; [done|done|]. by repeat constructor. Defined.

(** ** A single pass takes the paths one after the other *)

Section AppendsOnly.

Lemma appendsOnly_ret {A} (a : A) : appendsOnly (ret a).
Proof. by intros nps σ. Qed.

Lemma appendsOnly_throw {A} : appendsOnly (@throw A).
Proof. by intros nps σ. Qed.

Lemma appendsOnly_outOfFuel {A} : appendsOnly (@outOfFuel A).
Proof. by intros nps σ. Qed.

Lemma appendsOnly_bind {A B} (m : M A) (k : A → M B) :
  appendsOnly m → (∀ a, appendsOnly (k a)) → appendsOnly (bind m k).
Proof.
  intros Hm Hk nps σ. unfold bind. rewrite Hm.
  destruct (m σ) as [[a σ']| |]; [|done..]. apply Hk.
Qed.

Lemma appendsOnly_orThrow {A} (o : option A) : appendsOnly (orThrow o).
Proof. by destruct o. Qed.

Lemma appendsOnly_getObject l : appendsOnly (getObject l).
Proof. intros nps σ. unfold getObject. simpl. by destruct (objects σ !! l). Qed.

Lemma appendsOnly_getCoordArray a : appendsOnly (getCoordArray a).
Proof. intros nps σ. unfold getCoordArray. simpl. by destruct (coordArrays σ !! a). Qed.

Lemma appendsOnly_getValueArray a : appendsOnly (getValueArray a).
Proof. intros nps σ. unfold getValueArray. simpl. by destruct (valueArrays σ !! a). Qed.

Lemma appendsOnly_newCoordArray cs : appendsOnly (newCoordArray cs).
Proof. by intros nps σ. Qed.

Lemma appendsOnly_newValueArray vs : appendsOnly (newValueArray vs).
Proof. by intros nps σ. Qed.

Lemma appendsOnly_newObject o : appendsOnly (newObject o).
Proof. by intros nps σ. Qed.

Lemma appendsOnly_setCoordArray a cs : appendsOnly (setCoordArray a cs).
Proof. by intros nps σ. Qed.

Lemma appendsOnly_setObject l o : appendsOnly (setObject l o).
Proof. by intros nps σ. Qed.

Lemma appendsOnly_pushNewPath l : appendsOnly (pushNewPath l).
Proof.
  intros nps σ. unfold pushNewPath, pushedBefore. simpl. by rewrite app_assoc.
Qed.

End AppendsOnly.

Create HintDb appends discriminated.

#[export] Hint Resolve appendsOnly_ret appendsOnly_throw appendsOnly_outOfFuel
  appendsOnly_orThrow appendsOnly_getObject appendsOnly_getCoordArray
  appendsOnly_getValueArray appendsOnly_newCoordArray appendsOnly_newValueArray
  appendsOnly_newObject appendsOnly_setCoordArray appendsOnly_setObject
  appendsOnly_pushNewPath : appends.

(** Goes through a computation built from the operations of the store. *)
Ltac appends_tac :=
  repeat first
    [ solve [auto with appends nocore]
    | apply appendsOnly_bind; [|intros ?]
    | progress cbv zeta
    | case_match ].

Lemma appendsOnly_coordsOf l : appendsOnly (coordsOf l).
Proof. unfold coordsOf. appends_tac. Qed.
#[export] Hint Resolve appendsOnly_coordsOf : appends.

Lemma appendsOnly_writeCoord l i p : appendsOnly (writeCoord l i p).
Proof. unfold writeCoord. appends_tac. Qed.
#[export] Hint Resolve appendsOnly_writeCoord : appends.

Lemma appendsOnly_pushCoord l p : appendsOnly (pushCoord l p).
Proof. unfold pushCoord. appends_tac. Qed.
#[export] Hint Resolve appendsOnly_pushCoord : appends.

Lemma appendsOnly_assignCoords l cs : appendsOnly (assignCoords l cs).
Proof. unfold assignCoords. appends_tac. Qed.
#[export] Hint Resolve appendsOnly_assignCoords : appends.

Lemma appendsOnly_clear l : appendsOnly (clear l).
Proof. unfold clear. appends_tac. Qed.
#[export] Hint Resolve appendsOnly_clear : appends.

Lemma appendsOnly_copyAttrs kvs : appendsOnly (copyAttrs kvs).
Proof.
  induction kvs as [|[key v] kvs IH]; simpl; [apply appendsOnly_ret|].
  destruct v; appends_tac.
Qed.
#[export] Hint Resolve appendsOnly_copyAttrs : appends.

Lemma appendsOnly_createNewPath l : appendsOnly (createNewPath l).
Proof.
  unfold createNewPath.
  appends_tac.
Qed.
#[export] Hint Resolve appendsOnly_createNewPath : appends.

Lemma appendsOnly_pointEraseStep r eX eY path np i last :
  appendsOnly (pointEraseStep r eX eY path np i last).
Proof.
  unfold pointEraseStep. appends_tac.
Qed.
#[export] Hint Resolve appendsOnly_pointEraseStep : appends.

Lemma appendsOnly_capsuleEraseStep r e0 e1 path np i last :
  appendsOnly (capsuleEraseStep r e0 e1 path np i last).
Proof.
  unfold capsuleEraseStep. appends_tac.
Qed.
#[export] Hint Resolve appendsOnly_capsuleEraseStep : appends.

Lemma appendsOnly_pointEraseWalk r fuel eX eY path np i last :
  appendsOnly (pointEraseWalk r fuel eX eY path np i last).
Proof.
  revert i last. induction fuel as [|fuel IH]; intros i last; simpl.
  - appends_tac.
  - appends_tac.
Qed.
#[export] Hint Resolve appendsOnly_pointEraseWalk : appends.

Lemma appendsOnly_capsuleEraseWalk r fuel e0 e1 path np i last :
  appendsOnly (capsuleEraseWalk r fuel e0 e1 path np i last).
Proof.
  revert i last. induction fuel as [|fuel IH]; intros i last; simpl.
  - appends_tac.
  - appends_tac.
Qed.
#[export] Hint Resolve appendsOnly_capsuleEraseWalk : appends.

Lemma appendsOnly_pointErase t r fuel path : appendsOnly (pointErase t r fuel path).
Proof.
  unfold pointErase. appends_tac.
Qed.

Lemma appendsOnly_capsuleErase t r fuel path k :
  appendsOnly (capsuleErase t r fuel path k).
Proof.
  unfold capsuleErase. appends_tac.
Qed.

Lemma appendsOnly_forEach (f : loc → M unit) paths :
  (∀ p, appendsOnly (f p)) → appendsOnly (forEach f paths).
Proof.
  intros Hf. induction paths as [|p paths IH]; simpl; appends_tac.
Qed.

Lemma forEach_app (f : loc → M unit) ps1 ps2 σ :
  forEach f (ps1 ++ ps2) σ = (forEach f ps1 ;;; forEach f ps2) σ.
Proof.
  revert σ. induction ps1 as [|p ps1 IH]; intros σ; [done|].
  simpl. unfold bind in *. destruct (f p σ) as [[[] σ1]| |]; [|done..]. apply IH.
Qed.

(** One pass over two lists of paths, one after the other. *)
Lemma forEach_concat (f : loc → M unit) ps1 ps2 ca va os σ1 σ2 :
  (∀ p, appendsOnly (f p)) →
  forEach f ps1 (mkStore ca va os []) = Done (tt, σ1) →
  forEach f ps2 (mkStore (coordArrays σ1) (valueArrays σ1) (objects σ1) [])
  = Done (tt, σ2) →
  forEach f (ps1 ++ ps2) (mkStore ca va os [])
  = Done (tt, pushedBefore (newPaths σ1) σ2).
Proof.
  intros Hf H1 H2. rewrite forEach_app. unfold bind. rewrite H1.
  pose proof (appendsOnly_forEach f ps2 Hf (newPaths σ1)
                (mkStore (coordArrays σ1) (valueArrays σ1) (objects σ1) [])) as Happ.
  unfold pushedBefore in Happ at 1. simpl in Happ. rewrite app_nil_r in Happ.
  rewrite <- store_eta in Happ. by rewrite Happ, H2.
Qed.


(** X23: with a cleaned trail of one point or of one segment, [erase] takes
    the paths one after the other: erasing the list [ps1 ++ ps2] returns
    what erasing [ps1] returns followed by what erasing [ps2] in the store
    the first call left returns, and leaves the same objects and arrays. *)
Theorem erase_paths_one_after_the_other
        fuel ps1 ps2 trail cleaned eraseRadius σ out1 σ1 out2 σ2 :
  cleanPath trail = Some cleaned → length cleaned ≤ 2 →
  erase fuel ps1 trail eraseRadius σ = Done (out1, σ1) →
  erase fuel ps2 trail eraseRadius σ1 = Done (out2, σ2) →
  ∃ σ', erase fuel (ps1 ++ ps2) trail eraseRadius σ = Done (out1 ++ out2, σ')
        ∧ sameHeap σ2 σ'.
Proof.
  intros Hc Hlen H1 H2.
  rewrite (erase_cleaned fuel ps1 _ _ _ _ Hc) in H1.
  rewrite (erase_cleaned fuel ps2 _ _ _ _ Hc) in H2.
  rewrite (erase_cleaned fuel (ps1 ++ ps2) _ _ _ _ Hc).
  destruct cleaned as [|e0 [|e1 [|??]]]; [|simpl in *..|simpl in Hlen; lia].
  - by apply cleanPath_Some_nonempty in Hc.
  - unfold bind in *.
    destruct (forEach _ ps1 _) as [[[] s1]| |] eqn:E1; [|done..].
    injection H1 as <- <-.
    destruct (forEach _ ps2 _) as [[[] s2]| |] eqn:E2; [|done..].
    injection H2 as <- <-.
    rewrite (forEach_concat _ ps1 ps2 _ _ _ s1 s2); [|apply appendsOnly_pointErase|done..].
    eexists. split; [done|]. by split_and!.
  - unfold capsuleIndices in *. simpl in *. unfold bind in *.
    destruct (forEach _ ps1 _) as [[[] s1]| |] eqn:E1; [|done..].
    injection H1 as <- <-.
    destruct (forEach _ ps2 _) as [[[] s2]| |] eqn:E2; [|done..].
    injection H2 as <- <-.
    rewrite (forEach_concat _ ps1 ps2 _ _ _ s1 s2);
      [|intros p; apply appendsOnly_capsuleErase|done..].
    eexists. split; [done|]. by split_and!.
Qed.

Lemma erase_paths_one_after_the_other_witness :
  ∃ σ', erase 2 ([0] ++ [1]) [pt 20 10] (Some 5%float) dotStore
        = Done ([] ++ [], σ')
        ∧ sameHeap
            (mkStore [[pt 20 10]; []; []; []] []
                     [mkPath [("stroke", VStr "#000000")] 0;
                      mkPath [("stroke", VStr "#000000")] 1;
                      mkPath [("stroke", VStr "#000000")] 2;
                      mkPath [("stroke", VStr "#000000")] 3] []) σ'.
Proof.
  apply (erase_paths_one_after_the_other 2 [0] [1] [pt 20 10] [pt 20 10] (Some 5%float)
           dotStore []
           (mkStore [[pt 20 10]; []; []] []
                    [mkPath [("stroke", VStr "#000000")] 0;
                     mkPath [("stroke", VStr "#000000")] 1;
                     mkPath [("stroke", VStr "#000000")] 2] [])).
  - reflexivity.
  - simpl. lia.
  - by vm_compute.
  - by vm_compute.
Defined.

(** ** The text of the printing functions *)

Section PrintingText.

Variable numberText : float → string.

Lemma string_app_assoc (s t u : string) : (s +:+ t) +:+ u = s +:+ (t +:+ u).
Proof.
  induction s as [|a s IH]; [done|].
  change (String a ((s +:+ t) +:+ u) = String a (s +:+ (t +:+ u))). by rewrite IH.
Qed.

Lemma string_app_nil_r (s : string) : s +:+ "" = s.
Proof.
  induction s as [|a s IH]; [done|].
  change (String a (s +:+ "") = String a s). by rewrite IH.
Qed.

Lemma string_concat_cons sep (s : string) (l : list string) :
  l ≠ [] → String.concat sep (s :: l) = s +:+ sep +:+ String.concat sep l.
Proof. by destruct l. Qed.

(** All the writes of a document, one after the other. *)
Lemma string_concat_empty_cons (s : string) (l : list string) :
  String.concat "" (s :: l) = s +:+ String.concat "" l.
Proof. destruct l; [by rewrite string_app_nil_r|done]. Qed.

Lemma string_concat_empty_app (k l : list string) :
  String.concat "" (k ++ l) = String.concat "" k +:+ String.concat "" l.
Proof.
  induction k as [|s k IH]; [done|].
  change ((s :: k) ++ l) with (s :: (k ++ l)).
  by rewrite !string_concat_empty_cons, IH, string_app_assoc.
Qed.

Lemma logPathFrom_items log path :
  path ≠ [] →
  logPathFrom numberText log path
  = log +:+ String.concat "," (pointText numberText <$> path) +:+ "]".
Proof.
  revert log. induction path as [|p [|q path] IH]; intros log Hne; [done| |].
  - simpl. by rewrite string_app_assoc.
  - change (logPathFrom numberText log (p :: q :: path))
      with (logPathFrom numberText ((log +:+ pointText numberText p) +:+ ",") (q :: path)).
    rewrite IH by done.
    change (pointText numberText <$> p :: q :: path)
      with (pointText numberText p :: (pointText numberText <$> q :: path)).
    rewrite string_concat_cons by done.
    by rewrite !string_app_assoc.
Qed.

Lemma logPathFrom_bracketed path :
  logPathFrom numberText "[" path = bracketed "," (pointText numberText <$> path).
Proof.
  destruct path as [|p path]; [done|]. by rewrite logPathFrom_items.
Qed.

Lemma displayPathFrom_items path :
  path ≠ [] →
  String.concat "" (displayPathFrom numberText path)
  = String.concat ", " (pointText numberText <$> path) +:+ "]".
Proof.
  induction path as [|p [|q path] IH]; intros Hne; [done| |].
  - change (displayPathFrom numberText [p]) with [pointText numberText p; "]"].
    rewrite !string_concat_empty_cons. simpl. by rewrite string_app_nil_r.
  - change (displayPathFrom numberText (p :: q :: path))
      with (pointText numberText p :: ", " :: displayPathFrom numberText (q :: path)).
    rewrite !string_concat_empty_cons, IH by done.
    change (pointText numberText <$> p :: q :: path)
      with (pointText numberText p :: (pointText numberText <$> q :: path)).
    rewrite string_concat_cons by done.
    by rewrite !string_app_assoc.
Qed.

Lemma displayPath_bracketed path :
  String.concat "" (displayPath numberText path)
  = bracketed ", " (pointText numberText <$> path).
Proof.
  unfold displayPath. rewrite string_concat_empty_cons.
  destruct path as [|p path]; [done|]. by rewrite displayPathFrom_items.
Qed.

Lemma logPathsFrom_items σ log paths css :
  paths ≠ [] →
  Forall2 (λ l cs, coordsIn σ l = Some cs) paths css →
  logPathsFrom numberText σ log paths
  = Some (log +:+ String.concat ","
                    ((λ cs, bracketed "," (pointText numberText <$> cs)) <$> css)
              +:+ "]").
Proof.
  intros Hne H2. revert log. induction H2 as [|l cs paths css Hl H2 IH]; intros log; [done|].
  cbn [logPathsFrom]. rewrite Hl. cbn [mbind option_bind logPath fst].
  rewrite logPathFrom_bracketed.
  destruct H2 as [|l' cs' paths css Hl' H2].
  - simpl. by rewrite string_app_assoc.
  - rewrite IH by done.
    change ((λ cs0, bracketed "," (pointText numberText <$> cs0)) <$> cs :: cs' :: css)
      with (bracketed "," (pointText numberText <$> cs)
              :: ((λ cs0, bracketed "," (pointText numberText <$> cs0)) <$> cs' :: css)).
    rewrite string_concat_cons by done.
    by rewrite !string_app_assoc.
Qed.

Lemma displayPathsFrom_items σ paths css :
  paths ≠ [] →
  Forall2 (λ l cs, coordsIn σ l = Some cs) paths css →
  ∃ written,
    displayPathsFrom numberText σ paths = Some written
    ∧ String.concat "" written
      = String.concat ",<br/>"
          ((λ cs, bracketed ", " (pointText numberText <$> cs)) <$> css) +:+ "]".
Proof.
  intros Hne H2. induction H2 as [|l cs paths css Hl H2 IH]; [done|].
  cbn [displayPathsFrom]. rewrite Hl. cbn [mbind option_bind].
  destruct H2 as [|l' cs' paths css Hl' H2].
  - eexists. split; [done|].
    by rewrite string_concat_empty_app, displayPath_bracketed.
  - destruct IH as (written & -> & Hw); [done|].
    eexists. split; [done|].
    rewrite string_concat_empty_app, displayPath_bracketed.
    rewrite string_concat_empty_cons, Hw.
    change ((λ cs0, bracketed ", " (pointText numberText <$> cs0)) <$> cs :: cs' :: css)
      with (bracketed ", " (pointText numberText <$> cs)
              :: ((λ cs0, bracketed ", " (pointText numberText <$> cs0)) <$> cs' :: css)).
    rewrite string_concat_cons by done.
    by rewrite !string_app_assoc.
Qed.

(** X24: [logPath] returns (or, with a truthy switch, logs and returns
    nothing) the points of the path as [[x,y]] items between brackets with
    a comma between two items; the closing bracket is written with the last
    point, so for an empty path the text is the opening bracket alone. *)
Theorem logPath_text path :
  logPath numberText path false
  = (Some (bracketed "," (pointText numberText <$> path)), [])
  ∧ logPath numberText path true
    = (None, [bracketed "," (pointText numberText <$> path)])
  ∧ logPath numberText [] false = (Some "[", []).
Proof. unfold logPath. by rewrite logPathFrom_bracketed. Qed.

(** X25: [logPaths] logs one line: the texts [logPath] returns for the
    [coords] of the paths, between brackets with a comma between two of
    them, and the opening bracket alone when there is no path. *)
Theorem logPaths_text σ paths css :
  Forall2 (λ l cs, coordsIn σ l = Some cs) paths css →
  logPaths numberText σ paths
  = Some [bracketed "," ((λ cs, bracketed "," (pointText numberText <$> cs)) <$> css)].
Proof.
  intros H2. unfold logPaths.
  destruct H2 as [|l cs paths css Hl H2]; [done|].
  by rewrite (logPathsFrom_items σ "[" (l :: paths) (cs :: css)) by (done || by constructor).
Qed.

(** X26: what [displayPath] writes to the document is, put together, the
    points as [[x,y]] items between brackets with a comma and a space
    between two items, and the opening bracket alone for an empty path. *)
Theorem displayPath_text path :
  String.concat "" (displayPath numberText path)
  = bracketed ", " (pointText numberText <$> path)
  ∧ displayPath numberText [] = ["["].
Proof. split; [apply displayPath_bracketed|done]. Qed.

(** X27: what [displayPaths] writes to the document is, put together, the
    heading followed by the texts of [displayPath] for the [coords] of the
    paths, between brackets with [",<br/>"] between two of them. *)
Theorem displayPaths_text σ paths css :
  Forall2 (λ l cs, coordsIn σ l = Some cs) paths css →
  ∃ written,
    displayPaths numberText σ paths = Some written
    ∧ String.concat "" written
      = "<br/>Printing paths:<br/>"
          +:+ bracketed ",<br/>"
                ((λ cs, bracketed ", " (pointText numberText <$> cs)) <$> css).
Proof.
  intros H2. unfold displayPaths.
  destruct H2 as [|l cs paths css Hl H2].
  - eexists. split; [done|]. done.
  - destruct (displayPathsFrom_items σ (l :: paths) (cs :: css)) as (written & Hw & Ht);
      [done|by constructor|].
    rewrite Hw. eexists. split; [done|].
    rewrite !string_concat_empty_cons, Ht. done.
Qed.

End PrintingText.

Lemma logPaths_text_witness :
  logPaths (λ _, "7") diagonalStore [0]
  = Some [bracketed ","
            ((λ cs, bracketed "," (pointText (λ _, "7") <$> cs))
               <$> [[pt 0 0; pt 100 100]])].
Proof.
  apply logPaths_text. apply Forall2_cons. split; [reflexivity|apply Forall2_nil_2].
Defined.

Lemma displayPaths_text_witness :
  ∃ written,
    displayPaths (λ _, "7") diagonalStore [0] = Some written
    ∧ String.concat "" written
      = "<br/>Printing paths:<br/>"
          +:+ bracketed ",<br/>"
                ((λ cs, bracketed ", " (pointText (λ _, "7") <$> cs))
                   <$> [[pt 0 0; pt 100 100]]).
Proof.
  apply displayPaths_text. apply Forall2_cons. split; [reflexivity|apply Forall2_nil_2].
Defined.

(** ** When the eraser is a circle *)

(** The scan cannot keep a single point on a trail that comes back to a
    point that is the same as its first one. *)
Lemma cleanScan_one_kept p l h z :
  cleanScan (p :: l) = [h] → last (p :: l) = Some z → samePoint z p = false.
Proof.
  intros Hs Hz.
  pose proof (cleanScan_last p l [] h z Hs Hz) as Hhz.
  rewrite diffPoint_samePoint, negb_true_iff in Hhz.
  destruct (samePoint z p) eqn:Hzp; [|done].
  destruct (cleanScan_head _ _ _ _ Hs) as [->|Hph].
  - apply samePoint_sym in Hzp. congruence.
  - assert (samePoint h z = true); [|congruence].
    apply samePoint_sym. by eapply samePoint_trans.
Qed.

(** X28: [cleanPath] returns a single point, and so [erase] uses the
    circle eraser, exactly when the trail is that one point, or starts with
    it and has only points that are the same as it. *)
Theorem cleanPath_one_point_iff path c :
  cleanPath path = Some [c]
  ↔ path = [c]
    ∨ ∃ rest, path = c :: rest ∧ rest ≠ []
              ∧ Forall (λ z, samePoint c z = true) rest.
Proof.
  split.
  - destruct path as [|p [|q l]]; [done| |].
    + unfold cleanPath. simpl. intros [= ->]. by left.
    + destruct (cleanPath_long p q l) as (z & Hz & [[Hs ->]|(t & h & pc & Hs & Hpc & ->)]).
      * intros [= <-]. right. exists (q :: l). split_and!; [done..|].
        apply Forall_forall. intros z' Hz'. by eapply cleanScan_nil.
      * destruct t as [|t0 t]; [|by destruct (diffPoint z pc), t].
        simpl in Hpc. injection Hpc as <-.
        rewrite diffPoint_samePoint, (cleanScan_one_kept _ _ _ _ Hs Hz). done.
  - intros [->|(rest & -> & Hne & Hall)]; [done|].
    destruct rest as [|q l]; [done|]. by apply cleanPath_all_same.
Qed.

Section Nearest.

Local Open Scope float_scope.

Lemma SFltb_trans f g h :
  SFltb f g = true → SFltb g h = true → SFltb f h = true.
Proof.
  unfold SFltb, SFcompare.
  destruct f as [sf|sf| |sf mf ef], g as [sg|sg| |sg mg eg], h as [sh|sh| |sh mh eh];
    try done; try (by destruct sf, sg, sh); try (by destruct sf, sg);
    try (by destruct sg, sh); try (by destruct sf, sh).
  change (PosDef.Pos.compare_cont Eq mf mg) with (Pos.compare mf mg).
  change (PosDef.Pos.compare_cont Eq mg mh) with (Pos.compare mg mh).
  change (PosDef.Pos.compare_cont Eq mf mh) with (Pos.compare mf mh).
  destruct sf, sg, sh; try done;
    destruct (Z.compare_spec ef eg), (Z.compare_spec eg eh), (Z.compare_spec ef eh);
    try done; try lia; subst;
    destruct (Pos.compare_spec mf mg), (Pos.compare_spec mg mh),
      (Pos.compare_spec mf mh); try done; try lia.
Qed.

Lemma ltb_trans a b c : (a <? b) = true → (b <? c) = true → (a <? c) = true.
Proof. rewrite !ltb_spec. apply SFltb_trans. Qed.

(** A number is below or above every number that is not [NaN], or the
    same as it: what is below [c] is below [b], or [b] is below [c]. *)
Lemma SFltb_between f g h :
  SFltb f h = true → g ≠ S754_nan → SFltb f g = true ∨ SFltb g h = true.
Proof.
  unfold SFltb, SFcompare.
  destruct f as [sf|sf| |sf mf ef], g as [sg|sg| |sg mg eg], h as [sh|sh| |sh mh eh];
    try done; try (destruct sf, sg, sh; by auto); try (destruct sf, sg; by auto);
    try (destruct sg, sh; by auto); try (destruct sf, sh; by auto).
  change (PosDef.Pos.compare_cont Eq mf mg) with (Pos.compare mf mg).
  change (PosDef.Pos.compare_cont Eq mg mh) with (Pos.compare mg mh).
  change (PosDef.Pos.compare_cont Eq mf mh) with (Pos.compare mf mh).
  intros H _. revert H.
  destruct sf, sg, sh; try (by auto);
    destruct (Z.compare_spec ef eg), (Z.compare_spec eg eh), (Z.compare_spec ef eh);
    try (by auto); try lia; subst;
    destruct (Pos.compare_spec mf mg), (Pos.compare_spec mg mh),
      (Pos.compare_spec mf mh); try (by auto); try lia.
Qed.

Lemma ltb_between a b c :
  (a <? c) = true → Num.seq b b = true → (a <? b) = true ∨ (b <? c) = true.
Proof.
  unfold Num.seq. rewrite !ltb_spec, FloatAxioms.eqb_spec. intros Hac Hb.
  apply SFltb_between; [done|]. intros E. by rewrite E in Hb.
Qed.

Variables tX tY : float.

(** Nothing replaces a start whose distance to the target is not a
    number. *)
Lemma closestTo_no_distance start candidates :
  Num.seq (getDistance (x start) (y start) tX tY)
          (getDistance (x start) (y start) tX tY) = false →
  closestTo tX tY start candidates = start.
Proof.
  intros Hnan%sne_self_nan. unfold closestTo.
  induction candidates as [|[c|] candidates IH]; simpl; [done| |done].
  by rewrite Hnan, ltb_nan_r.
Qed.

Lemma closestTo_cons start c candidates :
  closestTo tX tY start (c :: candidates)
  = closestTo tX tY
      match c with
      | Some q =>
          if getDistance (x q) (y q) tX tY <? getDistance (x start) (y start) tX tY
          then q else start
      | None => start
      end candidates.
Proof. done. Qed.

(** X29: the scan that [getCapsuleIntersection] and
    [getCapsuleIntersections] run over their candidate crossings returns
    the start or one of the candidates, and none of them is closer to the
    target than what it returns, by the distances [getDistance] computes:
    no distance is below the distance of the result. *)
Theorem closestTo_nearest start candidates :
  (closestTo tX tY start candidates = start
   ∨ Some (closestTo tX tY start candidates) ∈ candidates)
  ∧ (getDistance (x start) (y start) tX tY
     <? getDistance (x (closestTo tX tY start candidates))
                    (y (closestTo tX tY start candidates)) tX tY) = false
  ∧ Forall (λ c, match c with
                 | Some q =>
                     (getDistance (x q) (y q) tX tY
                      <? getDistance (x (closestTo tX tY start candidates))
                                     (y (closestTo tX tY start candidates)) tX tY)
                     = false
                 | None => True
                 end) candidates.
Proof.
  revert start. induction candidates as [|c candidates IH]; intros start.
  - split_and!; [by left| |done]. unfold closestTo. simpl.
    destruct (_ <? _) eqn:E; [|done].
    rewrite ltb_spec in E. unfold SFltb, SFcompare in E.
    destruct (Prim2SF _) as [s|s| |s m e]; try done; try (by destruct s).
    rewrite Z.compare_refl in E.
    change (PosDef.Pos.compare_cont Eq m m) with (Pos.compare m m) in E.
    rewrite Pos.compare_refl in E. by destruct s.
  - rewrite closestTo_cons. destruct c as [q|].
    2:{ destruct (IH start) as (Hin & Hs & Hall).
        split_and!; [|done|by constructor].
        destruct Hin as [?|?]; [by left|right; by right]. }
    set (dq := getDistance (x q) (y q) tX tY).
    set (ds := getDistance (x start) (y start) tX tY).
    destruct (dq <? ds) eqn:Hqs.
    + destruct (IH q) as (Hin & Hq & Hall). fold dq in Hq.
      split_and!.
      * right. destruct Hin as [Hr|?]; [rewrite Hr; by left|by right].
      * fold ds. match goal with |- ?b = false => destruct b eqn:E; [|done] end.
        by rewrite (ltb_trans _ _ _ Hqs E) in Hq.
      * by constructor.
    + destruct (IH start) as (Hin & Hs & Hall). fold ds in Hs.
      split_and!.
      * destruct Hin as [?|?]; [by left|right; by right].
      * done.
      * constructor; [|done]. fold dq.
        match goal with |- ?b = false => destruct b eqn:E; [|done] end.
        destruct (Num.seq ds ds) eqn:Hnum.
        -- destruct (ltb_between _ _ _ E Hnum); congruence.
        -- rewrite (closestTo_no_distance start candidates Hnum) in E.
           fold ds in E. congruence.
Qed.

End Nearest.
